(** * temp-deleter-go: the directory-cleaning engine and its command

    A shallow embedding of [internal/cleaner/cleaner.go]: the [CleanupResult]
    record with its int64 counters, [FormatSize], [shouldDelete],
    [deleteItem], the [filepath.Walk] callback of [cleanDirectory],
    [mergeResults] and the worker pool of [CleanDirectories]; of the packages
    [storage] and [config]; and of [main] of [cmd/temp-deleter].  The
    properties follow the definitions.

    The environment of the code is modelled as follows.
    - int64 counters are integers with two's-complement wrap-around;
      [float64] is Rocq's binary64.
    - The filesystem under a target is a tree whose nodes carry the outcome
      of each system call the cleaner makes on them; it changes only through
      the removals of the run itself, which the state of the run records.
    - [filepath.Walk] is the one of Go's [path/filepath]: the names of a
      directory are read before the walk function is called on it.
    - The logger is the list of the calls made on it.
    - A run-time panic is the result [None].
    - The goroutines of [CleanDirectories] are interleaved step by step;
      the targets do not share files.
    - [os.Getenv], [filepath.Join], [os.Hostname], [time.Now] and the
      printing of a [time.Duration] are parameters of the definitions that
      use them.
    - Standard input is the list of its lines, and what [main] prints is the
      list of the strings it passes to [fmt]. *)

From Stdlib Require Import ZArith List String Ascii Bool Lia Permutation.
From Stdlib Require Import Floats Uint63 SpecFloat DecimalString.
Import ListNotations.

Open Scope string_scope.
Open Scope Z_scope.

(* ================================================================== *)
(** ** Go's [int64]: a [Z] together with its wrap-around *)

Module Int64.

Definition min_int : Z := - 2 ^ 63.
Definition max_int : Z := 2 ^ 63 - 1.
Definition modulus : Z := 2 ^ 64.

Definition in_range (z : Z) : Prop := min_int <= z <= max_int.

(** The two's-complement representative of [z]. *)
Definition wrap (z : Z) : Z := (z + 2 ^ 63) mod modulus - 2 ^ 63.

(** [a + b], [a * b] and [a / b] on int64 ([/] truncates toward zero). *)
Definition add (a b : Z) : Z := wrap (a + b).
Definition mul (a b : Z) : Z := wrap (a * b).
Definition quot (a b : Z) : Z := wrap (Z.quot a b).

End Int64.

(* ================================================================== *)
(** ** Formatting helpers of package [fmt] *)

(** [%d]: the decimal rendering of an integer, with a leading [-] when negative. *)
Definition fmt_d (z : Z) : string := NilZero.string_of_int (Z.to_int z).

(** [float64(n)] for a non-negative int64 [n]: IEEE 754 binary64,
    round to nearest even. *)
Definition float64 (n : Z) : float := PrimFloat.of_uint63 (Uint63.of_Z n).

(** Round [n / d] to the nearest integer, ties to even ([0 < d]). *)
Definition round_half_even (n d : Z) : Z :=
  let q := n / d in
  let r := n mod d in
  if (2 * r <? d) then q
  else if (2 * r =? d) then (if Z.even q then q else q + 1)
  else q + 1.

(** The number of tenths [%.1f] prints for the finite value [m * 2^e]:
    the exact decimal expansion, rounded to one digit, ties to even. *)
Definition tenths (m e : Z) : Z :=
  if 0 <=? e then 10 * m * 2 ^ e else round_half_even (10 * m) (2 ^ (- e)).

(** [%.1f]. *)
Definition fmt_f1 (x : float) : string :=
  match Prim2SF x with
  | S754_nan => "NaN"
  | S754_infinity s => if s then "-Inf" else "+Inf"
  | S754_zero s => (if s then "-" else "") ++ "0.0"
  | S754_finite s m e =>
      let t := tenths (Z.pos m) e in
      (if s then "-" else "") ++ fmt_d (t / 10) ++ "." ++ fmt_d (t mod 10)
  end.

(** [%c] of a byte. *)
Definition fmt_c (c : ascii) : string := String c EmptyString.

(* ================================================================== *)
(** ** [FormatSize] *)

Definition unit : Z := 1024.

(** The scaling loop
    [for n := bytes / unit; n >= unit; n /= unit { div *= unit; exp++ }],
    started at [n], [div], [exp]; it yields the final [div] and [exp].
    [fuel] bounds the number of iterations. *)
Fixpoint scale (fuel : nat) (n div exp : Z) : option (Z * Z) :=
  if n >=? unit then
    match fuel with
    | O => None
    | S fuel' => scale fuel' (Int64.quot n unit) (Int64.mul div unit) (exp + 1)
    end
  else Some (div, exp).

(** The string constant indexed by [exp]; [None] is Go's index-out-of-range
    panic. *)
Definition unit_letter (exp : Z) : option ascii :=
  if exp <? 0 then None else String.get (Z.to_nat exp) "KMGTPE".

Definition FormatSize_fuel (fuel : nat) (bytes : Z) : option string :=
  if bytes <? unit then Some (fmt_d bytes ++ " B")
  else
    match scale fuel (Int64.quot bytes unit) unit 0 with
    | None => None
    | Some (div, exp) =>
        match unit_letter exp with
        | None => None
        | Some c =>
            Some (fmt_f1 (float64 bytes / float64 div)%float
                    ++ " " ++ fmt_c c ++ "B")
        end
    end.

(** An int64 is divided by 1024 at most six times before it drops below 1024. *)
Definition FormatSize (bytes : Z) : option string := FormatSize_fuel 64 bytes.

(* ================================================================== *)
(** ** [CleanupResult] and its counters *)

Record CleanupResult : Type := mkCleanupResult {
  TotalFiles : Z;
  TotalDirs : Z;
  TotalSize : Z;
  DeletedFiles : Z;
  DeletedDirs : Z;
  DeletedSize : Z;
  FailedFiles : Z;
  FailedDirs : Z;
  SkippedFiles : Z;
  SkippedDirs : Z;
  ProcessingTime : Z;
  ErrorMessages : list string
}.

(** [&CleanupResult{}]. *)
Definition emptyResult : CleanupResult :=
  mkCleanupResult 0 0 0 0 0 0 0 0 0 0 0 [].

(** The ten int64 fields that [atomic.AddInt64] is applied to. *)
Inductive counter : Type :=
| cTotalFiles | cTotalDirs | cTotalSize
| cDeletedFiles | cDeletedDirs | cDeletedSize
| cFailedFiles | cFailedDirs
| cSkippedFiles | cSkippedDirs.

Definition get (f : counter) (r : CleanupResult) : Z :=
  match f with
  | cTotalFiles => TotalFiles r
  | cTotalDirs => TotalDirs r
  | cTotalSize => TotalSize r
  | cDeletedFiles => DeletedFiles r
  | cDeletedDirs => DeletedDirs r
  | cDeletedSize => DeletedSize r
  | cFailedFiles => FailedFiles r
  | cFailedDirs => FailedDirs r
  | cSkippedFiles => SkippedFiles r
  | cSkippedDirs => SkippedDirs r
  end.

Definition set (f : counter) (v : Z) (r : CleanupResult) : CleanupResult :=
  let '(mkCleanupResult tf td ts df dd ds ff fd sf sd pt em) := r in
  match f with
  | cTotalFiles => mkCleanupResult v td ts df dd ds ff fd sf sd pt em
  | cTotalDirs => mkCleanupResult tf v ts df dd ds ff fd sf sd pt em
  | cTotalSize => mkCleanupResult tf td v df dd ds ff fd sf sd pt em
  | cDeletedFiles => mkCleanupResult tf td ts v dd ds ff fd sf sd pt em
  | cDeletedDirs => mkCleanupResult tf td ts df v ds ff fd sf sd pt em
  | cDeletedSize => mkCleanupResult tf td ts df dd v ff fd sf sd pt em
  | cFailedFiles => mkCleanupResult tf td ts df dd ds v fd sf sd pt em
  | cFailedDirs => mkCleanupResult tf td ts df dd ds ff v sf sd pt em
  | cSkippedFiles => mkCleanupResult tf td ts df dd ds ff fd v sd pt em
  | cSkippedDirs => mkCleanupResult tf td ts df dd ds ff fd sf v pt em
  end.

(** [atomic.AddInt64(&r.f, delta)]. *)
Definition AddInt64 (f : counter) (delta : Z) (r : CleanupResult)
  : CleanupResult :=
  set f (Int64.add (get f r) delta) r.

(** [r.ErrorMessages = append(r.ErrorMessages, msgs...)]. *)
Definition appendErrors (msgs : list string) (r : CleanupResult)
  : CleanupResult :=
  let '(mkCleanupResult tf td ts df dd ds ff fd sf sd pt em) := r in
  mkCleanupResult tf td ts df dd ds ff fd sf sd pt (em ++ msgs).

Definition setProcessingTime (d : Z) (r : CleanupResult) : CleanupResult :=
  let '(mkCleanupResult tf td ts df dd ds ff fd sf sd _ em) := r in
  mkCleanupResult tf td ts df dd ds ff fd sf sd d em.

(* ================================================================== *)
(** ** The host platform: [runtime.GOOS] and package [path/filepath] *)

(** What [filepath] takes from the operating system: the separator
    characters and the length of a path's volume name (always 0 outside
    Windows). *)
Record platform : Type := mkPlatform {
  GOOS : string;
  Separator : ascii;
  IsPathSeparator : ascii -> bool;
  VolumeNameLen : string -> nat
}.

Definition linux : platform :=
  mkPlatform "linux" "/"%char (fun c => Ascii.eqb c "/"%char) (fun _ => 0%nat).

Definition is_letter (c : ascii) : bool :=
  let n := nat_of_ascii c in
  ((97 <=? n)%nat && (n <=? 122)%nat) || ((65 <=? n)%nat && (n <=? 90)%nat).

(** Windows, with drive-letter volumes ([C:]); the volume of a UNC or device
    path is not told apart here. *)
Definition windows : platform :=
  mkPlatform "windows" "\"%char
    (fun c => Ascii.eqb c "\"%char || Ascii.eqb c "/"%char)
    (fun p => match p with
              | String c (String ":"%char _) => if is_letter c then 2%nat else 0%nat
              | _ => 0%nat
              end).

(** [dropWhile] on the characters of a path. *)
Fixpoint drop_while (p : ascii -> bool) (l : list ascii) : list ascii :=
  match l with
  | [] => []
  | c :: l' => if p c then drop_while p l' else l
  end.

Fixpoint take_while (p : ascii -> bool) (l : list ascii) : list ascii :=
  match l with
  | [] => []
  | c :: l' => if p c then c :: take_while p l' else []
  end.

(** [filepath.Base]: the last element of [path], trailing separators and the
    volume name removed; ["."] for the empty path and a single separator for a
    path of separators only. *)
Definition Base (pf : platform) (path : string) : string :=
  if String.eqb path "" then "."
  else
    let stripped :=
      rev (drop_while (IsPathSeparator pf) (rev (list_ascii_of_string path))) in
    let novol :=
      skipn (VolumeNameLen pf (string_of_list_ascii stripped)) stripped in
    let last :=
      rev (take_while (fun c => negb (IsPathSeparator pf c)) (rev novol)) in
    match last with
    | [] => String (Separator pf) ""
    | _ => string_of_list_ascii last
    end.

(** [filepath.Join(path, name)] for a directory [path] and an entry [name]
    read from it. *)
Definition Join (pf : platform) (path name : string) : string :=
  path ++ String (Separator pf) name.

(* ================================================================== *)
(** ** Operating-system errors, the logger and the state of a run *)

Inductive sysop : Type := OpLstat | OpOpen | OpRemove | OpRemoveAll.

Definition op_name (o : sysop) : string :=
  match o with
  | OpLstat => "lstat"
  | OpOpen => "open"
  | OpRemove => "remove"
  | OpRemoveAll => "unlinkat"
  end.

(** An [*fs.PathError]. *)
Record oserror : Type := mkError {
  err_op : sysop;
  err_path : string;
  err_text : string
}.

(** [err.Error()], which [%v] prints. *)
Definition Error (e : oserror) : string :=
  op_name (err_op e) ++ " " ++ err_path e ++ ": " ++ err_text e.

(** How a system call ends: [None] on success, the error text otherwise. *)
Definition outcome : Type := option string.

(** The calls made on the [Logger] interface. *)
Inductive event : Type :=
| LogDeletion (path : string) (size : Z) (isDir : bool)
| LogError (path : string) (err : oserror)
| LogSkipped (path reason : string)
| LogDirectoryProcessing (dir : string)
| Infof (msg : string).

(** The calls that change the filesystem, with how they ended. *)
Inductive syscall : Type :=
| SysRemove (path : string) (r : outcome)
| SysRemoveAll (path : string) (r : outcome).

(** The state threaded through [cleanDirectory]: the partial result, the
    log, and the removals made so far (the filesystem is the initial tree
    as these calls changed it). *)
Record state : Type := mkState {
  result : CleanupResult;
  events : list event;
  syscalls : list syscall
}.

Definition initState : state := mkState emptyResult [] [].

(** A computation over a state [S]; [None] is a run-time panic. *)
Definition Comp (S A : Type) : Type := S -> option (A * S).

Definition ret {S A : Type} (a : A) : Comp S A := fun st => Some (a, st).

Definition bind {S A B : Type} (m : Comp S A) (k : A -> Comp S B) : Comp S B :=
  fun st => match m st with
            | None => None
            | Some (a, st') => k a st'
            end.

Definition lift {S A : Type} (o : option A) : Comp S A :=
  fun st => match o with None => None | Some a => Some (a, st) end.

Notation "x <- m ;; k" := (bind m (fun x => k))
  (at level 61, m at next level, right associativity).
Notation "m ;;; k" := (bind m (fun _ => k))
  (at level 61, right associativity).

(** The computations of [cleanDirectory]. *)
Definition M (A : Type) : Type := Comp state A.

Definition modify (f : CleanupResult -> CleanupResult) : M Datatypes.unit :=
  fun st => Some (tt, mkState (f (result st)) (events st) (syscalls st)).

Definition log (e : event) : M Datatypes.unit :=
  fun st => Some (tt, mkState (result st) (events st ++ [e]) (syscalls st)).

Definition sys (s : syscall) : M Datatypes.unit :=
  fun st => Some (tt, mkState (result st) (events st) (syscalls st ++ [s])).

(* ================================================================== *)
(** ** The [Cleaner] and its deletion policy *)

Record FileInfo : Type := mkFileInfo {
  IsDir : bool;
  Size : Z
}.

Record Cleaner : Type := mkCleaner {
  maxWorkers : Z;
  dryRun : bool
}.

(** [New]: the worker count is the CPU count clamped to [2..8]. *)
Definition New (numCPU : Z) (dry : bool) : Cleaner :=
  let w := numCPU in
  let w := if w <? 2 then 2 else w in
  let w := if 8 <? w then 8 else w in
  mkCleaner w dry.

(** What the operating system answers to the calls made on one entry:
    [os.OpenFile(path, os.O_WRONLY, 0)], [file.Close()], and
    [os.Remove] / [os.RemoveAll]. *)
Record answers : Type := mkAnswers {
  ans_open : outcome;
  ans_close : outcome;
  ans_remove : outcome
}.

Definition no_answers : answers := mkAnswers None None None.

Definition is_ok (o : outcome) : bool :=
  match o with None => true | Some _ => false end.

(** [shouldDelete]; [None] is the index panic of [filepath.Base(path)[0]]
    on an empty base name. *)
Definition shouldDelete (pf : platform) (path : string) (info : FileInfo)
    (a : answers) : option bool :=
  match
    (if negb (String.eqb (GOOS pf) "windows") then
       match Base pf path with
       | EmptyString => None
       | String c _ => Some (Ascii.eqb c "."%char)
       end
     else Some false)
  with
  | None => None
  | Some true => Some false
  | Some false =>
      if String.eqb (GOOS pf) "windows"
         && (let name := Base pf path in
             String.eqb name "desktop.ini" || String.eqb name "thumbs.db"
             || String.eqb name "Thumbs.db")
      then Some false
      else if negb (IsDir info) then
        match ans_open a with
        | None =>
            match ans_close a with
            | Some _ => Some false
            | None => Some true
            end
        | Some _ => Some false
        end
      else Some true
  end.

(** [deleteItem]: [os.RemoveAll] for a directory, [os.Remove] for a file. *)
Definition deleteItem (path : string) (info : FileInfo) (a : answers)
  : M (option oserror) :=
  if IsDir info then
    sys (SysRemoveAll path (ans_remove a)) ;;;
    ret (option_map (mkError OpRemoveAll path) (ans_remove a))
  else
    sys (SysRemove path (ans_remove a)) ;;;
    ret (option_map (mkError OpRemove path) (ans_remove a)).

(* ================================================================== *)
(** ** The filesystem seen by one run *)

(** A tree of entries, each carrying what the operating system answers to
    the calls the cleaner makes on it.  An [entry] of a directory has the
    [name] that reading the directory lists, the outcome of [lstat] on it,
    the node found there ([here]), and what a failed [os.RemoveAll] of the
    directory leaves of it ([left], [None] when it is gone).  A successful
    [os.RemoveAll] leaves nothing below the directory. *)
Inductive node : Type :=
| File (size : Z) (open close remove : outcome)
| Dir (size : Z) (readdir removeAll : outcome) (entries : list entry)
with entry : Type :=
| Entry (name : string) (lstat : outcome) (here : node) (left : option node).

Definition info_of (n : node) : FileInfo :=
  match n with
  | File size _ _ _ => mkFileInfo false size
  | Dir size _ _ _ => mkFileInfo true size
  end.

(** A target directory at scan time: [Absent] when [os.Stat] reports that
    it does not exist, otherwise the outcome of [os.Lstat] on it and the
    node found there. *)
Inductive target : Type :=
| Absent
| Present (lstat : outcome) (n : node).

(** The latest [os.RemoveAll path] among the removals made so far. *)
Fixpoint removeAll_of (path : string) (l : list syscall) : option outcome :=
  match l with
  | [] => None
  | s :: l' =>
      match removeAll_of path l' with
      | Some o => Some o
      | None =>
          match s with
          | SysRemoveAll p o => if String.eqb p path then Some o else None
          | SysRemove _ _ => None
          end
      end
  end.

(* ================================================================== *)
(** ** [filepath.Walk] *)

(** What a [WalkFunc] returns besides [nil]: [filepath.SkipDir] or another
    error. *)
Inductive walkerror : Type :=
| SkipDir
| Failure (e : oserror).

(** A [filepath.WalkFunc]; the last argument carries the answers of the
    operating system for the entry visited. *)
Definition WalkFunc : Type :=
  string -> option FileInfo -> option oserror -> answers -> M (option walkerror).

(** An entry as the loop of [walk] meets it: its name, the outcome of
    [lstat], and the walks of the node found there and of the node a failed
    removal of the parent leaves. *)
Record child : Type := mkChild {
  ch_name : string;
  ch_lstat : outcome;
  ch_here : FileInfo * M (option walkerror);
  ch_left : option (FileInfo * M (option walkerror))
}.

Definition enoent : string := "no such file or directory".

Section Walk.

Variable pf : platform.
Variable fn : WalkFunc.

(** [lstat(filename)] for the entry [ch] of the directory [path], in the
    filesystem as the removals so far left it. *)
Definition lstat_entry (path : string) (ch : child)
  : M (oserror + FileInfo * M (option walkerror)) :=
  fun st =>
    let filename := Join pf path (ch_name ch) in
    let gone := inl (mkError OpLstat filename enoent) in
    Some
      (match removeAll_of path (syscalls st) with
       | Some None => gone
       | status =>
           match ch_lstat ch with
           | Some text => inl (mkError OpLstat filename text)
           | None =>
               match status with
               | None => inr (ch_here ch)
               | Some _ =>
                   match ch_left ch with
                   | Some w => inr w
                   | None => gone
                   end
               end
           end
       end, st).

(** The loop [for _, name := range names] of [walk]: an [lstat] error is
    passed to the function, and only an error other than [SkipDir] ends the
    loop; the walk of an entry ends the loop on any error, except [SkipDir]
    from a directory. *)
Fixpoint walkNames (path : string) (names : list child)
  : M (option walkerror) :=
  match names with
  | [] => ret None
  | ch :: rest =>
      let filename := Join pf path (ch_name ch) in
      r <- lstat_entry path ch ;;
      match r with
      | inl err =>
          err1 <- fn filename None (Some err) no_answers ;;
          match err1 with
          | Some (Failure e) => ret (Some (Failure e))
          | _ => walkNames path rest
          end
      | inr (fileInfo, walk_child) =>
          err1 <- walk_child ;;
          match err1 with
          | None => walkNames path rest
          | Some SkipDir =>
              if negb (IsDir fileInfo) then ret (Some SkipDir)
              else walkNames path rest
          | Some (Failure e) => ret (Some (Failure e))
          end
      end
  end.

(** The entry [e] of the directory [path] as the loop meets it, [walk]
    being the walk of a node. *)
Definition prepare (walk : string -> node -> M (option walkerror))
    (path : string) (e : entry) : child :=
  match e with
  | Entry name ls h l =>
      mkChild name ls
        (info_of h, walk (Join pf path name) h)
        (match l with
         | Some n' => Some (info_of n', walk (Join pf path name) n')
         | None => None
         end)
  end.

(** [walk(path, info, walkFn)] of [path/filepath]: a file is visited.  For
    a directory, [names, err := readDirNames(path)] comes first, then
    [err1 := walkFn(path, info, err)]; the walk of the directory ends there
    when either is an error, and otherwise each of the names read is
    [lstat]ed and walked, in the filesystem as the visit left it. *)
Fixpoint walk (path : string) (n : node) {struct n} : M (option walkerror) :=
  match n with
  | File size o c r =>
      fn path (Some (mkFileInfo false size)) None (mkAnswers o c r)
  | Dir size rd rm es =>
      let err := option_map (mkError OpOpen path) rd in
      err1 <- fn path (Some (mkFileInfo true size)) err (mkAnswers None None rm) ;;
      match err, err1 with
      | None, None => walkNames path (map (prepare walk path) es)
      | _, _ => ret err1
      end
  end.

(** [filepath.Walk(root, fn)]: [os.Lstat(root)], then the function on the
    error or the walk of the root; [SkipDir] is turned into [nil]. *)
Definition Walk (root : string) (ls : outcome) (n : node)
  : M (option oserror) :=
  err <- match ls with
         | Some text => fn root None (Some (mkError OpLstat root text)) no_answers
         | None => walk root n
         end ;;
  match err with
  | Some (Failure e) => ret (Some e)
  | _ => ret None
  end.

End Walk.

(* ================================================================== *)
(** ** [cleanDirectory] *)

Section CleanDirectory.

Variable pf : platform.
Variable c : Cleaner.
Variable dirPath : string.

(** The counter a failure, a deletion or a skip of an entry goes to. *)
Definition kind (files dirs : counter) (info : FileInfo) : counter :=
  if IsDir info then dirs else files.

(** The closure passed to [filepath.Walk]. *)
Definition walkFn : WalkFunc :=
  fun path info err a =>
    match err with
    | Some e =>
        log (LogError path e) ;;;
        modify (AddInt64
                  (match info with
                   | Some i => if IsDir i then cFailedDirs else cFailedFiles
                   | None => cFailedFiles
                   end) 1) ;;;
        modify (appendErrors ["Walk error for " ++ path ++ ": " ++ Error e]) ;;;
        ret (Some SkipDir)
    | None =>
        if String.eqb path dirPath then ret None
        else
          i <- lift info ;;
          (if IsDir i then modify (AddInt64 cTotalDirs 1)
           else modify (AddInt64 cTotalFiles 1) ;;;
                modify (AddInt64 cTotalSize (Size i))) ;;;
          eligible <- lift (shouldDelete pf path i a) ;;
          (if eligible then
             if dryRun c then
               log (Infof ("DRY RUN: Would delete " ++ path)) ;;;
               (if IsDir i then modify (AddInt64 cDeletedDirs 1)
                else modify (AddInt64 cDeletedFiles 1) ;;;
                     modify (AddInt64 cDeletedSize (Size i)))
             else
               failed <- deleteItem path i a ;;
               match failed with
               | Some e =>
                   log (LogError path e) ;;;
                   modify (AddInt64 (kind cFailedFiles cFailedDirs i) 1) ;;;
                   modify (appendErrors
                             ["Delete error for " ++ path ++ ": " ++ Error e])
               | None =>
                   log (LogDeletion path (Size i) (IsDir i)) ;;;
                   (if IsDir i then modify (AddInt64 cDeletedDirs 1)
                    else modify (AddInt64 cDeletedFiles 1) ;;;
                         modify (AddInt64 cDeletedSize (Size i)))
               end
           else
             log (LogSkipped path "protected or system file") ;;;
             modify (AddInt64 (kind cSkippedFiles cSkippedDirs i) 1)) ;;;
          ret None
    end.

(** [cleanDirectory(dirPath)] on the target [t]; the partial result is the
    [result] of the final state. *)
Definition cleanDirectory (t : target) : M Datatypes.unit :=
  match t with
  | Absent =>
      log (LogSkipped dirPath "directory does not exist") ;;;
      modify (AddInt64 cSkippedDirs 1)
  | Present ls n =>
      log (LogDirectoryProcessing dirPath) ;;;
      err <- Walk pf walkFn dirPath ls n ;;
      match err with
      | Some e =>
          log (LogError dirPath e) ;;;
          modify (appendErrors
                    ["Directory walk error for " ++ dirPath ++ ": " ++ Error e])
      | None => ret tt
      end
  end.

(** A run of [cleanDirectory] on a fresh [&CleanupResult{}]. *)
Definition runDirectory (t : target) : option state :=
  option_map snd (cleanDirectory t initState).

Definition dirResult (t : target) : option CleanupResult :=
  option_map result (runDirectory t).

End CleanDirectory.

(* ================================================================== *)
(** ** [mergeResults] *)

(** [*CleanupResult] pointers and the objects they point to. *)
Definition loc : Type := nat.
Definition heap : Type := loc -> option CleanupResult.

Definition store (p : loc) (r : CleanupResult) (h : heap) : heap :=
  fun q => if Nat.eqb q p then Some r else h q.

(** Reading through a pointer; a nil or dangling pointer panics. *)
Definition load (p : loc) : Comp heap CleanupResult :=
  fun h => match h p with None => None | Some r => Some (r, h) end.

Definition update (p : loc) (f : CleanupResult -> CleanupResult)
  : Comp heap Datatypes.unit :=
  fun h => match h p with None => None | Some r => Some (tt, store p (f r) h) end.

(** [mergeResults(target, source)]: each statement reads its field of
    [source] when it runs. *)
Definition mergeResults (target source : loc) : Comp heap Datatypes.unit :=
  s <- load source ;; update target (AddInt64 cTotalFiles (TotalFiles s)) ;;;
  s <- load source ;; update target (AddInt64 cTotalDirs (TotalDirs s)) ;;;
  s <- load source ;; update target (AddInt64 cTotalSize (TotalSize s)) ;;;
  s <- load source ;; update target (AddInt64 cDeletedFiles (DeletedFiles s)) ;;;
  s <- load source ;; update target (AddInt64 cDeletedDirs (DeletedDirs s)) ;;;
  s <- load source ;; update target (AddInt64 cDeletedSize (DeletedSize s)) ;;;
  s <- load source ;; update target (AddInt64 cFailedFiles (FailedFiles s)) ;;;
  s <- load source ;; update target (AddInt64 cFailedDirs (FailedDirs s)) ;;;
  s <- load source ;; update target (AddInt64 cSkippedFiles (SkippedFiles s)) ;;;
  s <- load source ;; update target (AddInt64 cSkippedDirs (SkippedDirs s)) ;;;
  s <- load source ;; update target (appendErrors (ErrorMessages s)).

(** The target of [mergeResults] when [target] and [source] are two
    objects: every counter of [s] added to that of [t], the messages of [s]
    appended. *)
Definition merged (t s : CleanupResult) : CleanupResult :=
  mkCleanupResult
    (Int64.add (TotalFiles t) (TotalFiles s))
    (Int64.add (TotalDirs t) (TotalDirs s))
    (Int64.add (TotalSize t) (TotalSize s))
    (Int64.add (DeletedFiles t) (DeletedFiles s))
    (Int64.add (DeletedDirs t) (DeletedDirs s))
    (Int64.add (DeletedSize t) (DeletedSize s))
    (Int64.add (FailedFiles t) (FailedFiles s))
    (Int64.add (FailedDirs t) (FailedDirs s))
    (Int64.add (SkippedFiles t) (SkippedFiles s))
    (Int64.add (SkippedDirs t) (SkippedDirs s))
    (ProcessingTime t)
    (ErrorMessages t ++ ErrorMessages s).

(* ================================================================== *)
(** ** [CleanDirectories]: the worker pool *)

(** A target directory: its path and what the filesystem holds there.  Each
    call of [cleanDirectory] runs on the tree of its own target. *)
Definition job : Type := (string * target)%type.

(** A worker goroutine: waiting on [workChan], inside [cleanDirectory], or
    returned. *)
Inductive worker : Type :=
| Waiting
| Cleaning (j : job)
| Exited.

(** The state of one call of [CleanDirectories]: the two channels (the work
    channel is filled and closed), the workers, the objects allocated so far
    ([result] is at address 0), and the calls of [cleanDirectory] completed
    so far, in the order they completed. *)
Record pool : Type := mkPool {
  workChan : list job;
  workers : list worker;
  resultChan : list loc;
  mem : heap;
  next : loc;
  completed : list (job * CleanupResult)
}.

Definition resultPtr : loc := 0%nat.

Definition initPool (c : Cleaner) (directories : list job) : pool :=
  mkPool directories
         (repeat Waiting (Z.to_nat (maxWorkers c)))
         []
         (store resultPtr emptyResult (fun _ => None))
         1%nat
         [].

Section Pool.

Variable pf : platform.
Variable c : Cleaner.

(** One step of one goroutine. *)
Inductive step : pool -> pool -> Prop :=
| step_receive : forall j work ws1 ws2 rc h n done,
    (* [for dir := range workChan]: a waiting worker receives a directory *)
    step (mkPool (j :: work) (ws1 ++ Waiting :: ws2) rc h n done)
         (mkPool work (ws1 ++ Cleaning j :: ws2) rc h n done)
| step_clean : forall j r ws1 ws2 work rc h n done,
    (* [dirResult := c.cleanDirectory(dir); resultChan <- dirResult] *)
    dirResult pf c (fst j) (snd j) = Some r ->
    step (mkPool work (ws1 ++ Cleaning j :: ws2) rc h n done)
         (mkPool work (ws1 ++ Waiting :: ws2) (rc ++ [n]) (store n r h)
                 (S n) (done ++ [(j, r)]))
| step_exit : forall ws1 ws2 rc h n done,
    (* [workChan] is closed and empty: the worker returns *)
    step (mkPool [] (ws1 ++ Waiting :: ws2) rc h n done)
         (mkPool [] (ws1 ++ Exited :: ws2) rc h n done)
| step_merge : forall p rc work ws h h' n done,
    (* [for dirResult := range resultChan { c.mergeResults(result, dirResult) }] *)
    mergeResults resultPtr p h = Some (tt, h') ->
    step (mkPool work ws (p :: rc) h n done)
         (mkPool work ws rc h' n done).

Inductive steps : pool -> pool -> Prop :=
| steps_refl : forall s, steps s s
| steps_step : forall s1 s2 s3, steps s1 s2 -> step s2 s3 -> steps s1 s3.

(** All workers have returned ([wg.Wait()] is over and [resultChan] is
    closed) and [resultChan] is drained: the loop of the dispatcher ends. *)
Definition finished (s : pool) : Prop :=
  Forall (fun w => w = Exited) (workers s) /\ resultChan s = [].

(** [CleanDirectories(directories)] returns [r] after [elapsed]
    nanoseconds ([time.Since(startTime)]). *)
Definition CleanDirectories (directories : list job) (elapsed : Z)
    (r : CleanupResult) : Prop :=
  exists s r0,
    steps (initPool c directories) s /\ finished s
    /\ mem s resultPtr = Some r0 /\ r = setProcessingTime elapsed r0.

End Pool.

(* ================================================================== *)
(** ** Package [storage] *)

(** The calls made on the [Logger] interface of package [storage]. *)
Inductive logcall : Type :=
| CallInfof (msg : string)
| CallErrorf (msg : string)
| CallWarnf (msg : string).

(** A [Storage]; its logger is the log the computations thread. *)
Record Storage : Type := mkStorage {
  enabled : bool
}.

Definition logf (l : logcall) : Comp (list logcall) Datatypes.unit :=
  fun calls => Some (tt, (calls ++ [l])%list).

(** [storage.New(sasURL, logger)]. *)
Definition storage_New (sasURL : string) : Comp (list logcall) Storage :=
  if String.eqb sasURL "" then
    logf (CallInfof "No SAS URL provided, cloud logging disabled") ;;;
    ret (mkStorage false)
  else
    logf (CallInfof
            "Cloud logging would be enabled (Azure integration available in full version)") ;;;
    ret (mkStorage false).

Definition IsEnabled (s : Storage) : bool := enabled s.

(** [UploadLogFile]; the result is the error returned, [None] for [nil]. *)
Definition UploadLogFile (s : Storage) (logFilePath : string)
  : Comp (list logcall) (option string) :=
  if negb (enabled s) then
    logf (CallWarnf ("Cloud storage not enabled, log file saved locally: "
                     ++ logFilePath)) ;;;
    ret None
  else ret (Some "cloud storage not implemented in this version").

(** [GenerateBlobName], [now] being [time.Now()] in the layout
    [2006-01-02_15-04-05] and [host] what [os.Hostname()] returns. *)
Definition GenerateBlobName (pf : platform) (now host : string) (s : Storage)
    (baseName : string) : string :=
  let timestamp := now in
  let hostname := host in
  let hostname := if String.eqb hostname "" then "unknown" else hostname in
  let baseName := Base pf baseName in
  let baseName := if String.eqb baseName "" then "temp-deleter" else baseName in
  hostname ++ "_" ++ baseName ++ "_" ++ timestamp ++ ".log".

Definition TestConnection (s : Storage) : Comp (list logcall) (option string) :=
  if negb (enabled s) then
    logf (CallInfof "Cloud storage connection test skipped (not enabled)") ;;;
    ret None
  else ret (Some "cloud storage not implemented in this version").

(** ** Package [config] *)

Record Config : Type := mkConfig {
  OS : string;
  LogFile : string;
  AzureSASURL : string
}.

Section Config.

(** [os.Getenv] and [filepath.Join] of the host. *)
Variable Getenv : string -> string.
Variable FilepathJoin : string -> string -> string.


Definition getWindowsTempDirs (c : Config) : list string :=
  let userProfile := Getenv "USERPROFILE" in
  let userProfile :=
    if String.eqb userProfile "" then Getenv "HOMEPATH" else userProfile in
  let dirs := ["C:\Windows\Temp";
               "C:\Windows\Panther";
               "C:\Windows\SoftwareDistribution\Download"] in
  if negb (String.eqb userProfile "") then
    (dirs ++ [FilepathJoin userProfile "AppData\Local\Temp";
              FilepathJoin userProfile
                "AppData\Local\Microsoft\Windows\Explorer"])%list
  else dirs.

Definition getLinuxTempDirs (c : Config) : list string :=
  let homeDir := Getenv "HOME" in
  let dirs := ["/tmp"; "/var/tmp"; "/var/cache"; "/var/cache/apt/archives";
               "/var/log"] in
  if negb (String.eqb homeDir "") then
    (dirs ++ [FilepathJoin homeDir ".cache";
              FilepathJoin homeDir ".config"])%list
  else dirs.

Definition getMacOSTempDirs (c : Config) : list string :=
  let homeDir := Getenv "HOME" in
  let dirs := ["/tmp"; "/var/tmp"; "/var/log"] in
  if negb (String.eqb homeDir "") then
    (dirs ++ [FilepathJoin homeDir "Library/Caches";
              FilepathJoin homeDir "Library/Logs";
              FilepathJoin homeDir ".Trash"])%list
  else dirs.

Definition GetTempDirectories (c : Config) : list string :=
  if String.eqb (OS c) "windows" then getWindowsTempDirs c
  else if String.eqb (OS c) "linux" then getLinuxTempDirs c
  else if String.eqb (OS c) "darwin" then getMacOSTempDirs c
  else [].

End Config.

(** The directories [GetTempDirectories] returns whatever the environment
    holds. *)
Definition system_dirs (os : string) : list string :=
  if String.eqb os "windows" then
    ["C:\Windows\Temp"; "C:\Windows\Panther";
     "C:\Windows\SoftwareDistribution\Download"]
  else if String.eqb os "linux" then
    ["/tmp"; "/var/tmp"; "/var/cache"; "/var/cache/apt/archives"; "/var/log"]
  else if String.eqb os "darwin" then ["/tmp"; "/var/tmp"; "/var/log"]
  else [].

(* ================================================================== *)
(** ** The command [temp-deleter] *)






Section Main.

(** The host: its platform and CPU count, [os.Getenv] and [filepath.Join],
    what the filesystem holds at each directory when it is cleaned, and how
    [%v] prints a [time.Duration]. *)
Variable pf : platform.
Variable numCPU : Z.
Variable Getenv : string -> string.
Variable FilepathJoin : string -> string -> string.
Variable fs : string -> target.
Variable fmt_duration : Z -> string.





End Main.

(* ================================================================== *)
(** ** Measures and predicates used in the statements *)

(** The deletion policy as a decision table: an entry is eligible unless
    its base name is hidden (outside Windows), is one of the three protected
    names (on Windows, compared as written), or it is a file whose probe
    fails at [open] or at [close]. *)
Definition hidden (pf : platform) (name : string) : bool :=
  negb (String.eqb (GOOS pf) "windows")
  && match name with
     | String c _ => Ascii.eqb c "."%char
     | EmptyString => false
     end.

Definition protected (pf : platform) (name : string) : bool :=
  String.eqb (GOOS pf) "windows"
  && (String.eqb name "desktop.ini" || String.eqb name "thumbs.db"
      || String.eqb name "Thumbs.db").

Definition probe_ok (info : FileInfo) (a : answers) : bool :=
  IsDir info || (is_ok (ans_open a) && is_ok (ans_close a)).

Definition policy (pf : platform) (path : string) (info : FileInfo)
    (a : answers) : bool :=
  negb (hidden pf (Base pf path)) && negb (protected pf (Base pf path))
  && probe_ok info a.

(** Comparison of names without regard to the case of ASCII letters. *)
Definition lower (c : ascii) : ascii :=
  let n := nat_of_ascii c in
  if ((65 <=? n)%nat && (n <=? 90)%nat)%bool then ascii_of_nat (n + 32) else c.

Fixpoint lower_string (s : string) : string :=
  match s with
  | EmptyString => EmptyString
  | String c s' => String (lower c) (lower_string s')
  end.

Definition eq_fold (a b : string) : bool :=
  String.eqb (lower_string a) (lower_string b).

(** The number of entries whose [lstat] failed during a run, as the log
    shows them. *)
Definition is_lstat_error (e : event) : bool :=
  match e with
  | LogError _ err =>
      match err_op err with OpLstat => true | _ => false end
  | _ => false
  end.

Definition lstat_failures (evs : list event) : Z :=
  Z.of_nat (List.length (filter is_lstat_error evs)).

(** A bound on the number of visits a walk of a node makes. *)
Fixpoint weight (n : node) : Z :=
  match n with
  | File _ _ _ _ => 1
  | Dir _ _ _ es =>
      1 + fold_right Z.add 0
            (map (fun e =>
                    match e with
                    | Entry _ _ h l =>
                        weight h
                        + match l with Some n' => weight n' | None => 0 end
                    end) es)
  end.

Definition entry_weight (e : entry) : Z :=
  match e with
  | Entry _ _ h l =>
      weight h + match l with Some n' => weight n' | None => 0 end
  end.

Definition entries_weight (es : list entry) : Z :=
  fold_right Z.add 0 (map entry_weight es).

Definition target_weight (t : target) : Z :=
  match t with
  | Absent => 1
  | Present _ n => weight n
  end.


(** Processing the targets one at a time and merging each partial result
    as it is produced. *)
Definition mergeAll (rs : list CleanupResult) : CleanupResult :=
  fold_left merged rs emptyResult.

(** The counts of a partial result after at most [k] visits: every count
    lies in [0..k], and the files counted add up. *)
Definition counts_within (k : Z) (r : CleanupResult) : Prop :=
  0 <= TotalFiles r <= k /\ 0 <= TotalDirs r <= k
  /\ 0 <= DeletedFiles r <= k /\ 0 <= DeletedDirs r <= k
  /\ 0 <= FailedFiles r <= k /\ 0 <= FailedDirs r <= k
  /\ 0 <= SkippedFiles r <= k /\ 0 <= SkippedDirs r <= k.

Definition accounted (k : Z) (st : state) : Prop :=
  counts_within k (result st)
  /\ lstat_failures (events st) <= k
  /\ DeletedFiles (result st) <= TotalFiles (result st)
  /\ DeletedDirs (result st) <= TotalDirs (result st)
  /\ DeletedFiles (result st) + FailedFiles (result st)
     + SkippedFiles (result st)
     = TotalFiles (result st) + lstat_failures (events st).

(** The arguments [filepath.Walk] calls its function with: an [lstat]
    error comes without file info, the error of reading a directory comes
    with the info of that directory, and a visit without error has its file
    info. *)
Definition visit_ok (info : option FileInfo) (err : option oserror) : Prop :=
  match err, info with
  | Some e, None => err_op e = OpLstat
  | Some e, Some i => IsDir i = true /\ err_op e <> OpLstat
  | None, Some _ => True
  | None, None => False
  end.

(** What an invariant [I], indexed by the number of visits made so far,
    gives for the walk of a node: the walk returns, without an error other
    than [SkipDir] on a directory, in a state where [I] holds again. *)
Definition walks_within (pf : platform) (fn : WalkFunc)
    (I : Z -> state -> Prop) (bound : Z) (n : node) : Prop :=
  forall (path : string) (k : Z) (st : state),
    I k st -> k + weight n <= bound ->
    exists r st',
      walk pf fn path n st = Some (r, st')
      /\ I (k + weight n) st'
      /\ (r = None \/ (r = Some SkipDir /\ IsDir (info_of n) = true)).

(** What [walkFn] returns: [SkipDir] on an error, [nil] otherwise. *)
Definition returned (err : option oserror) : option walkerror :=
  match err with
  | Some _ => Some SkipDir
  | None => None
  end.

Definition syscall_path (s : syscall) : string :=
  match s with
  | SysRemove p _ => p
  | SysRemoveAll p _ => p
  end.

(** The calls on the logger that report a deletion, real or simulated, of
    the entry at [p]. *)
Definition reports_deletion (p : string) (e : event) : Prop :=
  match e with
  | LogDeletion q _ _ => q = p
  | Infof msg => msg = "DRY RUN: Would delete " ++ p
  | _ => False
  end.

(** The entry at [p] was neither removed nor reported as deleted. *)
Definition untouched (p : string) (st : state) : Prop :=
  Forall (fun s => syscall_path s <> p) (syscalls st)
  /\ Forall (fun e => ~ reports_deletion p e) (events st).

(** The directories the workers are cleaning. *)
Definition cleaning (ws : list worker) : list job :=
  flat_map (fun w => match w with Cleaning j => [j] | _ => [] end) ws.

(** What holds of the pool throughout a call of [CleanDirectories]: the
    completed calls of [cleanDirectory] split into those already merged into
    [result] and those waiting in [resultChan]; [result] is the merge of the
    former, in order; every directory is in exactly one of the work channel,
    a worker, or the completed calls. *)
Definition pool_inv (pf : platform) (c : Cleaner) (directories : list job)
    (s : pool) : Prop :=
  exists mergedL pendingL : list (job * CleanupResult),
    completed s = (mergedL ++ pendingL)%list
    /\ mem s resultPtr = Some (mergeAll (map snd mergedL))
    /\ Forall2 (fun p jr => mem s p = Some (snd jr)) (resultChan s) pendingL
    /\ Forall (fun p => (resultPtr < p < next s)%nat) (resultChan s)
    /\ (resultPtr < next s)%nat
    /\ Permutation
         (map fst (completed s) ++ cleaning (workers s) ++ workChan s)%list
         directories
    /\ Forall (fun jr => dirResult pf c (fst (fst jr)) (snd (fst jr))
                         = Some (snd jr)) (completed s)
    /\ List.length (workers s) = Z.to_nat (maxWorkers c)
    /\ (In Exited (workers s) -> workChan s = []).



(** The sum of the weights of the targets. *)
Definition jobs_weight (js : list job) : Z :=
  fold_right Z.add 0 (map (fun j => target_weight (snd j)) js).

(** The counts of a partial result whose run met [L] failed [lstat]s in at
    most [k] visits. *)
Definition result_accounted (k L : Z) (r : CleanupResult) : Prop :=
  counts_within k r /\ 0 <= L <= k
  /\ DeletedFiles r <= TotalFiles r
  /\ DeletedDirs r <= TotalDirs r
  /\ DeletedFiles r + FailedFiles r + SkippedFiles r = TotalFiles r + L.

(** The failed [lstat]s of several runs of [cleanDirectory]. *)
Definition runs_lstat_failures (runs : list (job * state)) : Z :=
  fold_right Z.add 0 (map (fun js => lstat_failures (events (snd js))) runs).

(** The state after a traversal error [e] at [path] was recorded under the
    counter [f]: one failure, one message, one call of [LogError]. *)
Definition record_failure (f : counter) (path : string) (e : oserror)
    (st : state) : state :=
  mkState
    (appendErrors ["Walk error for " ++ path ++ ": " ++ Error e]
                  (AddInt64 f 1 (result st)))
    (events st ++ [LogError path e])
    (syscalls st).

(** Whether a directory at [path] is eligible: for a directory the policy
    looks at the path only. *)
Definition dir_eligible (pf : platform) (path : string) : bool :=
  policy pf path (mkFileInfo true 0) no_answers.

(** Trees on which a dry run can foretell the real one: every entry the
    walk finds eligible is removed without error, and every eligible
    directory is empty. *)
Fixpoint clean_node (pf : platform) (dirPath path : string) (n : node)
  : bool :=
  match n with
  | File size o cl rm =>
      if String.eqb path dirPath then true
      else if policy pf path (mkFileInfo false size) (mkAnswers o cl rm)
           then is_ok rm
           else true
  | Dir size rd rm es =>
      match rd with
      | Some _ => true
      | None =>
          if negb (String.eqb path dirPath) && dir_eligible pf path
          then is_ok rm && match es with [] => true | _ => false end
          else
            forallb
              (fun e =>
                 match e with
                 | Entry nm ls h _ =>
                     match ls with
                     | Some _ => true
                     | None => clean_node pf dirPath (Join pf path nm) h
                     end
                 end) es
      end
  end.

Definition removals_clean (pf : platform) (dirPath : string) (t : target)
  : bool :=
  match t with
  | Absent => true
  | Present (Some _) _ => true
  | Present None n => clean_node pf dirPath dirPath n
  end.

(** A dry run and a real run that agree so far: the same partial result,
    no removal in the dry run, and in the real run only eligible
    directories other than the root removed. *)
Definition agree (pf : platform) (dirPath : string) (sd sr : state) : Prop :=
  result sd = result sr
  /\ syscalls sd = []
  /\ Forall (fun s => match s with
                      | SysRemoveAll p _ =>
                          String.eqb p dirPath = false
                          /\ dir_eligible pf p = true
                      | SysRemove _ _ => True
                      end) (syscalls sr).

(** The walk of a node keeps a dry run (of the cleaner [cd]) and a real run
    (of [cr]) in agreement. *)
Definition walks_agree (pf : platform) (dirPath : string) (cd cr : Cleaner)
    (n : node) : Prop :=
  forall (path : string) (sd sr : state),
    clean_node pf dirPath path n = true -> agree pf dirPath sd sr ->
    exists r sd' sr',
      walk pf (walkFn pf cd dirPath) path n sd = Some (r, sd')
      /\ walk pf (walkFn pf cr dirPath) path n sr = Some (r, sr')
      /\ agree pf dirPath sd' sr'
      /\ (r = None \/ (r = Some SkipDir /\ IsDir (info_of n) = true)).

(** Induction on a node, with the hypothesis for every node below it. *)
Section NodeInduction.

Variable P : node -> Prop.

Definition entry_below (e : entry) : Prop :=
  match e with
  | Entry _ _ h l => P h /\ match l with Some n' => P n' | None => True end
  end.

Hypothesis P_File : forall size o c r, P (File size o c r).
Hypothesis P_Dir : forall size rd rm es,
    Forall entry_below es -> P (Dir size rd rm es).

Fixpoint node_induction (n : node) : P n :=
  match n with
  | File size o c r => P_File size o c r
  | Dir size rd rm es =>
      P_Dir size rd rm es
        ((fix below (l : list entry) : Forall entry_below l :=
            match l with
            | [] => Forall_nil entry_below
            | e :: l' =>
                Forall_cons e
                  (match e as e0 return entry_below e0 with
                   | Entry _ _ h lf =>
                       conj (node_induction h)
                            (match lf as o
                                   return match o with
                                          | Some n' => P n'
                                          | None => True
                                          end
                             with
                             | Some n' => node_induction n'
                             | None => I
                             end)
                   end)
                  (below l')
            end) es)
  end.

End NodeInduction.

(* ================================================================== *)
(** ** Further measures and predicates *)

(** The cost of walking a node, a visit of a file of size [s] costing
    [file_cost s] and a visit of a directory [dir_cost]. *)
Fixpoint walk_cost (file_cost : Z -> Z) (dir_cost : Z) (n : node) : Z :=
  match n with
  | File size _ _ _ => file_cost size
  | Dir _ _ _ es =>
      dir_cost + fold_right Z.add 0
                   (map (fun e =>
                           match e with
                           | Entry _ _ h l =>
                               walk_cost file_cost dir_cost h
                               + match l with
                                 | Some n' => walk_cost file_cost dir_cost n'
                                 | None => 0
                                 end
                           end) es)
  end.

Definition entry_cost (file_cost : Z -> Z) (dir_cost : Z) (e : entry) : Z :=
  match e with
  | Entry _ _ h l =>
      walk_cost file_cost dir_cost h
      + match l with
        | Some n' => walk_cost file_cost dir_cost n'
        | None => 0
        end
  end.

Definition entries_cost (file_cost : Z -> Z) (dir_cost : Z) (es : list entry)
  : Z :=
  fold_right Z.add 0 (map (entry_cost file_cost dir_cost) es).

(** Every file of a tree has a size that satisfies [p]. *)
Fixpoint files_all (p : Z -> bool) (n : node) : bool :=
  match n with
  | File size _ _ _ => p size
  | Dir _ _ _ es =>
      forallb (fun e =>
                 match e with
                 | Entry _ _ h l =>
                     files_all p h
                     && match l with
                        | Some n' => files_all p n'
                        | None => true
                        end
                 end) es
  end.

(** The bytes of the files of a tree. *)
Definition bytes_of (n : node) : Z := walk_cost (fun s => s) 0 n.

Definition sizes_nonneg (n : node) : bool := files_all (fun s => 0 <=? s) n.

Definition walks_cost (pf : platform) (fn : WalkFunc)
    (Q : string -> Prop) (I : Z -> state -> Prop) (bound : Z) (p : Z -> bool)
    (file_cost : Z -> Z) (dir_cost : Z) (n : node) : Prop :=
  files_all p n = true ->
  forall (path : string) (k : Z) (st : state),
    Q path -> I k st -> k + walk_cost file_cost dir_cost n <= bound ->
    exists r st',
      walk pf fn path n st = Some (r, st')
      /\ I (k + walk_cost file_cost dir_cost n) st'
      /\ (r = None \/ (r = Some SkipDir /\ IsDir (info_of n) = true)).

(** The number of elements of a list that satisfy [p]. *)
Definition count {A : Type} (p : A -> bool) (l : list A) : Z :=
  Z.of_nat (List.length (filter p l)).

(** The calls on the logger, by kind. *)
Definition is_error_of (o : sysop) (e : event) : bool :=
  match e with
  | LogError _ err =>
      match err_op err, o with
      | OpLstat, OpLstat | OpOpen, OpOpen | OpRemove, OpRemove
      | OpRemoveAll, OpRemoveAll => true
      | _, _ => false
      end
  | _ => false
  end.

Definition is_deletion (dir : bool) (e : event) : bool :=
  match e with
  | LogDeletion _ _ isDir => Bool.eqb isDir dir
  | _ => false
  end.

Definition is_notice (e : event) : bool :=
  match e with Infof _ => true | _ => false end.

Definition is_skip (e : event) : bool :=
  match e with LogSkipped _ _ => true | _ => false end.

Definition is_start (e : event) : bool :=
  match e with LogDirectoryProcessing _ => true | _ => false end.

(** The removals made, by system call and by how they ended. *)
Definition is_removal (all ok : bool) (s : syscall) : bool :=
  match s with
  | SysRemove _ r => negb all && Bool.eqb (is_ok r) ok
  | SysRemoveAll _ r => all && Bool.eqb (is_ok r) ok
  end.

(** The sizes of the files the log reports as deleted, summed as
    [DeletedSize] is. *)
Definition logged_bytes (evs : list event) : Z :=
  fold_left (fun acc e =>
               match e with
               | LogDeletion _ size false => Int64.add acc size
               | _ => acc
               end) evs 0.

(** [strings.HasPrefix(s, p)]. *)
Fixpoint has_prefix (p s : string) : bool :=
  match p with
  | EmptyString => true
  | String a p' =>
      match s with
      | EmptyString => false
      | String b s' => Ascii.eqb a b && has_prefix p' s'
      end
  end.

(** The two shapes of the messages [cleanDirectory] records during a
    walk. *)
Definition walk_message (m : string) : bool :=
  has_prefix "Walk error for " m || has_prefix "Delete error for " m.

(** The books of a run after at most [k] visits: what the counters, the
    messages, the log and the removals made say of each other. *)
Record ledger (c : Cleaner) (k : Z) (st : state) : Prop := mkLedger {
  led_counts : counts_within k (result st);
  led_files :
    DeletedFiles (result st) + FailedFiles (result st)
    + SkippedFiles (result st)
    = TotalFiles (result st) + count (is_error_of OpLstat) (events st);
  led_dirs :
    DeletedDirs (result st) + FailedDirs (result st)
    + SkippedDirs (result st)
    = TotalDirs (result st) + count (is_error_of OpOpen) (events st);
  led_failed_files :
    FailedFiles (result st)
    = count (is_error_of OpLstat) (events st)
      + count (is_error_of OpRemove) (events st);
  led_failed_dirs :
    FailedDirs (result st)
    = count (is_error_of OpOpen) (events st)
      + count (is_error_of OpRemoveAll) (events st);
  led_skipped :
    SkippedFiles (result st) + SkippedDirs (result st)
    = count is_skip (events st);
  led_messages :
    Z.of_nat (List.length (ErrorMessages (result st)))
    = FailedFiles (result st) + FailedDirs (result st);
  led_shapes :
    Forall (fun m => walk_message m = true) (ErrorMessages (result st));
  led_start : count is_start (events st) = 1;
  led_log :
    Z.of_nat (List.length (events st))
    = 1
      + (DeletedFiles (result st) + FailedFiles (result st)
         + SkippedFiles (result st))
      + (DeletedDirs (result st) + FailedDirs (result st)
         + SkippedDirs (result st));
  led_real :
    dryRun c = false ->
    DeletedFiles (result st) = count (is_deletion false) (events st)
    /\ DeletedDirs (result st) = count (is_deletion true) (events st)
    /\ count (is_removal false true) (syscalls st)
       = count (is_deletion false) (events st)
    /\ count (is_removal true true) (syscalls st)
       = count (is_deletion true) (events st)
    /\ count (is_removal false false) (syscalls st)
       = count (is_error_of OpRemove) (events st)
    /\ count (is_removal true false) (syscalls st)
       = count (is_error_of OpRemoveAll) (events st)
    /\ count is_notice (events st) = 0
    /\ DeletedSize (result st) = logged_bytes (events st);
  led_dry :
    dryRun c = true ->
    syscalls st = []
    /\ DeletedFiles (result st) + DeletedDirs (result st)
       = count is_notice (events st)
    /\ count (is_deletion false) (events st) = 0
    /\ count (is_deletion true) (events st) = 0
    /\ count (is_error_of OpRemove) (events st) = 0
    /\ count (is_error_of OpRemoveAll) (events st) = 0
}.

(** 1 for a target that does not exist, which [cleanDirectory] counts as a
    skipped directory. *)
Definition missing (t : target) : Z :=
  match t with Absent => 1 | Present _ _ => 0 end.

(** The calls of [LogError]. *)
Definition is_failure (e : event) : bool :=
  match e with LogError _ _ => true | _ => false end.


(** The paths the policy lets the cleaner remove below the target
    [dirPath]: not the target itself, no hidden name outside Windows, none
    of the protected names on Windows. *)
Definition removable (pf : platform) (dirPath p : string) : bool :=
  negb (String.eqb p dirPath)
  && negb (hidden pf (Base pf p)) && negb (protected pf (Base pf p)).

(** Every removal attempted, and every deletion logged, is of a removable
    path. *)
Definition removals_allowed (pf : platform) (dirPath : string) (st : state)
  : Prop :=
  Forall (fun s => removable pf dirPath (syscall_path s) = true) (syscalls st)
  /\ Forall (fun e => match e with
                      | LogDeletion p _ _ => removable pf dirPath p = true
                      | _ => True
                      end) (events st).

(** The sizes recorded after files of at most [k] bytes in all were
    visited. *)
Definition sizes_within (k : Z) (st : state) : Prop :=
  0 <= DeletedSize (result st) <= TotalSize (result st)
  /\ TotalSize (result st) <= k.

(** The paths strictly below the directory [path]. *)
Definition below (pf : platform) (path p : string) : Prop :=
  exists rest, p = path ++ String (Separator pf) rest.

(** What a protected directory leaves of the state it is met in: it is
    counted, skipped and logged, and nothing is removed. *)
Definition record_skip (path : string) (st : state) : state :=
  mkState (AddInt64 cSkippedDirs 1 (AddInt64 cTotalDirs 1 (result st)))
          (events st ++ [LogSkipped path "protected or system file"])
          (syscalls st).

(** The state [st'] extends [st]: the log and the removals only grew, the
    new removals being of paths that satisfy [Q]. *)
Definition extends (Q : string -> Prop) (st st' : state) : Prop :=
  exists evs scs,
    events st' = (events st ++ evs)%list
    /\ syscalls st' = (syscalls st ++ scs)%list
    /\ Forall (fun s => Q (syscall_path s)) scs.

(** The sum of [g] over the runs of [cleanDirectory] behind a call of
    [CleanDirectories]. *)
Definition sum_runs (g : job * state -> Z) (runs : list (job * state)) : Z :=
  fold_right Z.add 0 (map g runs).

(** The directories of a run that were met but not counted: those that
    could not be read, and the target itself when it is missing. *)
Definition uncounted_dirs (js : job * state) : Z :=
  count (is_error_of OpOpen) (events (snd js)) + missing (snd (fst js)).

(** The removals of a run that succeeded, by system call. *)
Definition removed (all : bool) (js : job * state) : Z :=
  count (is_removal all true) (syscalls (snd js)).

(** A partial result whose counts lie within [k], whose directories add up
    with [E] of them uncounted and, in a real run, whose deletions are the
    [A] files and [B] directories removed. *)
Definition audited (real : bool) (k E A B : Z) (r : CleanupResult) : Prop :=
  counts_within k r /\ 0 <= k
  /\ DeletedDirs r + FailedDirs r + SkippedDirs r = TotalDirs r + E
  /\ (real = true -> DeletedFiles r = A /\ DeletedDirs r = B).

(** The name under which a directory lists an entry. *)
Definition entry_name (e : entry) : string :=
  match e with Entry name _ _ _ => name end.

(** The state after the directory at [path] was counted, removed by
    [os.RemoveAll] without error, and logged as deleted. *)
Definition record_deletion (path : string) (size : Z) (st : state) : state :=
  mkState (AddInt64 cDeletedDirs 1 (AddInt64 cTotalDirs 1 (result st)))
          (events st ++ [LogDeletion path size true])
          (syscalls st ++ [SysRemoveAll path None]).

(** The state after the entry [e] of the removed directory [path] was
    looked for and not found. *)
Definition record_gone (pf : platform) (path : string) (st : state)
    (e : entry) : state :=
  record_failure cFailedFiles (Join pf path (entry_name e))
    (mkError OpLstat (Join pf path (entry_name e)) enoent) st.

(* ================================================================== *)
(** ** Sample trees *)

Definition regular (name : string) (size : Z) : entry :=
  Entry name None (File size None None None)
        (Some (File size None None None)).

Definition directory (name : string) (es : list entry) : entry :=
  Entry name None (Dir 4096 None None es) (Some (Dir 4096 None None es)).

(** [/tmp] holding [a.tmp], the hidden [.cache] and the empty directory
    [old]. *)
Definition tmp_tree : node :=
  Dir 4096 None None
      [regular "a.tmp" 120; regular ".cache" 64; directory "old" []].

(** [/var/tmp] holding the directory [build], which holds [out.o]. *)
Definition nested_tree : node :=
  Dir 4096 None None [directory "build" [regular "out.o" 10]].

(** A directory holding a subdirectory that cannot be read and a file that
    can be deleted. *)
Definition locked_tree : node :=
  Dir 4096 None None
      [Entry "locked" None
             (Dir 4096 (Some "permission denied") None [regular "secret" 5])
             None;
       regular "scratch.tmp" 2048].

(** A directory holding an entry that cannot be [lstat]ed; the entry is a
    directory. *)
Definition unstatable_tree : node :=
  Dir 4096 None None
      [Entry "gone" (Some "permission denied") (Dir 4096 None None []) None].

(** A directory holding a file that is eligible but cannot be removed. *)
Definition busy_tree : node :=
  Dir 4096 None None
      [Entry "busy.tmp" None
             (File 7 None None (Some "operation not permitted"))
             (Some (File 7 None None (Some "operation not permitted")))].

Definition sample_jobs : list job :=
  [("/tmp", Present None tmp_tree); ("/missing", Absent)].

(* ================================================================== *)
(** * Properties *)

(** ** int64 arithmetic *)

Module Int64Facts.
Import Int64.


Lemma wrap_small (z : Z) : in_range z -> wrap z = z.
Proof.
  unfold in_range, wrap, min_int, max_int, modulus. intros H.
  rewrite Z.mod_small by lia. lia.
Qed.

Lemma add_small (a b : Z) : in_range (a + b) -> add a b = a + b.
Proof. apply wrap_small. Qed.

Lemma mul_small (a b : Z) : in_range (a * b) -> mul a b = a * b.
Proof. apply wrap_small. Qed.

Lemma quot_small (a b : Z) : in_range (Z.quot a b) -> quot a b = Z.quot a b.
Proof. apply wrap_small. Qed.

Lemma add_comm (a b : Z) : add a b = add b a.
Proof. unfold add. now rewrite Z.add_comm. Qed.

Lemma wrap_add_l (a b : Z) : wrap (wrap a + b) = wrap (a + b).
Proof.
  unfold wrap, modulus.
  replace ((a + 2 ^ 63) mod 2 ^ 64 - 2 ^ 63 + b + 2 ^ 63)
    with ((a + 2 ^ 63) mod 2 ^ 64 + b) by lia.
  rewrite Zplus_mod_idemp_l. f_equal. f_equal. lia.
Qed.

Lemma add_assoc (a b c : Z) : add (add a b) c = add a (add b c).
Proof.
  unfold add. rewrite wrap_add_l.
  rewrite (Z.add_comm a (wrap (b + c))), wrap_add_l. f_equal. lia.
Qed.

Lemma add_0_l (a : Z) : in_range a -> add 0 a = a.
Proof. intros H. unfold add. now rewrite Z.add_0_l, wrap_small. Qed.

Lemma add_0_r (a : Z) : in_range a -> add a 0 = a.
Proof. intros H. unfold add. now rewrite Z.add_0_r, wrap_small. Qed.

Lemma in_range_bounds (z : Z) : 0 <= z <= max_int -> in_range z.
Proof. unfold in_range, min_int, max_int. lia. Qed.

End Int64Facts.

(** ** [FormatSize] *)

Section FormatSizeFacts.

Lemma scale_stop (fuel : nat) (n div exp : Z) :
  n < unit -> scale fuel n div exp = Some (div, exp).
Proof.
  intros H. destruct fuel; simpl;
    destruct (Z.geb_spec n unit); try lia; reflexivity.
Qed.

Lemma scale_next (fuel : nat) (n div exp : Z) :
  unit <= n <= Int64.max_int ->
  0 < div -> div * unit <= Int64.max_int ->
  scale (S fuel) n div exp = scale fuel (n / unit) (div * unit) (exp + 1).
Proof.
  intros Hn Hd Hm. simpl. unfold unit, Int64.max_int in *.
  destruct (Z.geb_spec n 1024); try lia.
  rewrite Int64Facts.quot_small, Int64Facts.mul_small.
  - rewrite Z.quot_div_nonneg by lia. reflexivity.
  - unfold Int64.in_range, Int64.min_int, Int64.max_int. lia.
  - rewrite Z.quot_div_nonneg by lia.
    unfold Int64.in_range, Int64.min_int, Int64.max_int.
    pose proof (Z.div_pos n 1024 ltac:(lia) ltac:(lia)).
    pose proof (Z.div_le_upper_bound n 1024 n ltac:(lia) ltac:(lia)). lia.
Qed.

(** After [k] more divisions the loop stops, with [div] scaled [k]
    times. *)
Lemma scale_iter (k : nat) :
  forall (fuel : nat) (n div exp : Z),
    (k <= fuel)%nat ->
    unit ^ Z.of_nat k <= n < unit ^ (Z.of_nat k + 1) ->
    n <= Int64.max_int ->
    0 < div -> div * unit ^ Z.of_nat k <= Int64.max_int ->
    scale fuel n div exp = Some (div * unit ^ Z.of_nat k, exp + Z.of_nat k).
Proof.
  induction k as [|k IH]; intros fuel n div exp Hf Hn Hmax Hd Hdk.
  - simpl in *. rewrite scale_stop by (unfold unit in *; lia).
    f_equal. f_equal; lia.
  - destruct fuel as [|fuel]; [lia|].
    assert (Hpow : unit ^ Z.of_nat (S k) = unit * unit ^ Z.of_nat k).
    { rewrite Nat2Z.inj_succ, Z.pow_succ_r by lia. reflexivity. }
    assert (Hpos : 0 < unit ^ Z.of_nat k) by (apply Z.pow_pos_nonneg; unfold unit; lia).
    assert (Hpow2 : unit ^ (Z.of_nat (S k) + 1) = unit * unit ^ (Z.of_nat k + 1)).
    { rewrite Nat2Z.inj_succ. rewrite <- Z.pow_succ_r by lia. f_equal; lia. }
    rewrite Hpow in Hn, Hdk. rewrite Hpow2 in Hn.
    rewrite scale_next; try lia.
    + rewrite IH; try lia.
      * rewrite Hpow. f_equal. f_equal; lia.
      * unfold unit in *. split.
        -- apply Z.div_le_lower_bound; lia.
        -- apply Z.div_lt_upper_bound; lia.
      * unfold unit in *.
        pose proof (Z.div_le_upper_bound n 1024 n ltac:(lia) ltac:(lia)). lia.
      * unfold unit in *. lia.
    + unfold unit in *. nia.
    + unfold unit in *. nia.
Qed.

End FormatSizeFacts.

Section FormatSizeUnits.

Lemma quot_unit (bytes : Z) :
  0 <= bytes <= Int64.max_int -> Int64.quot bytes unit = bytes / unit.
Proof.
  intros H. unfold unit, Int64.max_int in *.
  rewrite Int64Facts.quot_small; rewrite Z.quot_div_nonneg by lia; [reflexivity|].
  unfold Int64.in_range, Int64.min_int, Int64.max_int.
  pose proof (Z.div_pos bytes 1024 ltac:(lia) ltac:(lia)).
  pose proof (Z.div_le_upper_bound bytes 1024 bytes ltac:(lia) ltac:(lia)). lia.
Qed.

(** The loop of [FormatSize] on [bytes >= 1024] stops after [k <= 5]
    further divisions, where [1024^(k+1) <= bytes < 1024^(k+2)]. *)
Lemma scale_bytes (bytes : Z) :
  unit <= bytes <= Int64.max_int ->
  exists k : nat,
    (k <= 5)%nat
    /\ unit ^ (Z.of_nat k + 1) <= bytes < unit ^ (Z.of_nat k + 2)
    /\ scale 64 (Int64.quot bytes unit) unit 0
       = Some (unit ^ (Z.of_nat k + 1), Z.of_nat k).
Proof.
  intros H. rewrite quot_unit by (unfold unit in *; lia).
  assert (Hk : exists k : nat,
             (k <= 5)%nat
             /\ unit ^ (Z.of_nat k + 1) <= bytes < unit ^ (Z.of_nat k + 2)).
  { unfold unit, Int64.max_int in *.
    destruct (Z.lt_ge_cases bytes (1024 ^ 2)); [exists 0%nat; simpl; lia|].
    destruct (Z.lt_ge_cases bytes (1024 ^ 3)); [exists 1%nat; simpl; lia|].
    destruct (Z.lt_ge_cases bytes (1024 ^ 4)); [exists 2%nat; simpl; lia|].
    destruct (Z.lt_ge_cases bytes (1024 ^ 5)); [exists 3%nat; simpl; lia|].
    destruct (Z.lt_ge_cases bytes (1024 ^ 6)); [exists 4%nat; simpl; lia|].
    exists 5%nat; simpl; lia. }
  destruct Hk as (k & Hk5 & Hlo & Hhi). exists k. repeat split; try assumption.
  assert (Hu : forall z, 0 <= z -> unit ^ (z + 1) = unit * unit ^ z).
  { intros z Hz. rewrite Z.pow_add_r, Z.pow_1_r by lia. lia. }
  assert (Hp : 0 < unit ^ Z.of_nat k) by (apply Z.pow_pos_nonneg; unfold unit; lia).
  replace (Z.of_nat k + 2) with ((Z.of_nat k + 1) + 1) in Hhi by lia.
  rewrite (Hu (Z.of_nat k + 1)) in Hhi by lia.
  rewrite (Hu (Z.of_nat k)) in * by lia.
  assert (Hle : unit ^ Z.of_nat k <= unit ^ 5).
  { apply Z.pow_le_mono_r; unfold unit; lia. }
  change (unit ^ 5) with 1125899906842624 in Hle.
  rewrite (scale_iter k 64 (bytes / unit) unit 0).
  - now rewrite Z.add_0_l.
  - lia.
  - rewrite Hu by lia. unfold unit in *. split.
    + apply Z.div_le_lower_bound; lia.
    + apply Z.div_lt_upper_bound; lia.
  - unfold unit, Int64.max_int in *.
    pose proof (Z.div_le_upper_bound bytes 1024 bytes ltac:(lia) ltac:(lia)). lia.
  - unfold unit; lia.
  - unfold unit, Int64.max_int in *. lia.
Qed.

Lemma unit_letter_ok (k : nat) :
  (k <= 5)%nat -> exists c, unit_letter (Z.of_nat k) = Some c.
Proof.
  intros H.
  do 6 (destruct k as [|k]; [eexists; reflexivity|]). lia.
Qed.

End FormatSizeUnits.


(** C10. [FormatSize] returns a string on every int64 (it never panics); on
    every value below 1024, the negative ones included, it returns the
    decimal rendering followed by [" B"] without running the scaling loop
    (no fuel is needed), for instance ["-5 B"] for -5. *)
Theorem FormatSize_total :
  (forall bytes, Int64.in_range bytes -> exists s, FormatSize bytes = Some s)
  /\ (forall bytes fuel, bytes < 1024 ->
        FormatSize_fuel fuel bytes = Some (fmt_d bytes ++ " B"))
  /\ FormatSize (-5) = Some "-5 B"
  /\ FormatSize Int64.min_int = Some "-9223372036854775808 B".
Proof.
  split; [|split].
  - intros bytes [Hlo Hhi].
    destruct (Z.lt_ge_cases bytes 1024) as [Hs|Hb].
    + eexists. unfold FormatSize, FormatSize_fuel, unit.
      destruct (Z.ltb_spec bytes 1024); [reflexivity|lia].
    + destruct (scale_bytes bytes) as (k & Hk & _ & Hsc); [unfold unit; lia|].
      destruct (unit_letter_ok k Hk) as (c & Hc).
      eexists. unfold FormatSize, FormatSize_fuel.
      destruct (Z.ltb_spec bytes unit); [unfold unit in *; lia|].
      rewrite Hsc, Hc. reflexivity.
  - intros bytes fuel H. unfold FormatSize_fuel, unit.
    destruct (Z.ltb_spec bytes 1024); [reflexivity|lia].
  - split; vm_compute; reflexivity.
Qed.

(** ** The deletion policy *)

Section PolicyFacts.

Variable pf : platform.

(** [filepath.Base] never returns the empty string, so indexing its first
    byte cannot panic. *)
Lemma Base_nonempty (path : string) :
  exists c s, Base pf path = String c s.
Proof.
  unfold Base. destruct (String.eqb path ""); [now eexists; eexists|].
  match goal with |- context [match ?l with [] => _ | _ :: _ => _ end] =>
    destruct l as [|c0 l0] end.
  - now eexists; eexists.
  - simpl. now eexists; eexists.
Qed.

Lemma shouldDelete_policy (path : string) (info : FileInfo) (a : answers) :
  shouldDelete pf path info a = Some (policy pf path info a).
Proof.
  unfold shouldDelete, policy, hidden, protected, probe_ok, is_ok.
  destruct (Base_nonempty path) as (c0 & s0 & HB). rewrite HB.
  set (prot := String.eqb (String c0 s0) "desktop.ini"
               || String.eqb (String c0 s0) "thumbs.db"
               || String.eqb (String c0 s0) "Thumbs.db").
  destruct (String.eqb (GOOS pf) "windows"); cbn [negb andb].
  - destruct prot; cbn [negb andb]; [reflexivity|].
    destruct (IsDir info); cbn [negb orb]; [reflexivity|].
    destruct (ans_open a), (ans_close a); reflexivity.
  - destruct (Ascii.eqb c0 "."%char); cbn [negb andb]; [reflexivity|].
    destruct (IsDir info); cbn [negb orb]; [reflexivity|].
    destruct (ans_open a), (ans_close a); reflexivity.
Qed.

End PolicyFacts.

(** C4, as stated, fails: on Windows a file named [DESKTOP.INI], which
    matches [desktop.ini] when case is ignored, is eligible for deletion. *)
Lemma shouldDelete_case_counterexample :
  eq_fold "DESKTOP.INI" "desktop.ini" = true
  /\ Base windows "C:\Temp\DESKTOP.INI" = "DESKTOP.INI"
  /\ shouldDelete windows "C:\Temp\DESKTOP.INI" (mkFileInfo false 402) no_answers
     = Some true.
Proof. repeat split; vm_compute; reflexivity. Qed.

(** C4, amended. [shouldDelete] never panics and decides by the first rule
    that applies: outside Windows, [false] for a base name starting with
    ['.']; on Windows, [false] for a base name that is exactly
    [desktop.ini], [thumbs.db] or [Thumbs.db] (compared as written, case
    included); for a regular file, [false] when the open for writing fails
    and [false] when it succeeds but the close fails; otherwise [true]. *)
Theorem shouldDelete_rules :
  forall (pf : platform) (path : string) (info : FileInfo) (a : answers),
    let name := Base pf path in
    shouldDelete pf path info a
    = Some
        (if negb (String.eqb (GOOS pf) "windows")
            && match name with String c _ => Ascii.eqb c "."%char | _ => false end
         then false
         else if String.eqb (GOOS pf) "windows"
                 && (String.eqb name "desktop.ini" || String.eqb name "thumbs.db"
                     || String.eqb name "Thumbs.db")
         then false
         else if IsDir info then true
         else match ans_open a, ans_close a with
              | Some _, _ => false
              | None, Some _ => false
              | None, None => true
              end).
Proof.
  intros pf path info a name. rewrite shouldDelete_policy.
  unfold policy, hidden, protected, probe_ok, is_ok. fold name.
  set (prot := String.eqb name "desktop.ini" || String.eqb name "thumbs.db"
               || String.eqb name "Thumbs.db").
  set (dot := match name with String c _ => Ascii.eqb c "."%char | _ => false end).
  destruct (String.eqb (GOOS pf) "windows"), dot, prot, (IsDir info),
    (ans_open a), (ans_close a); reflexivity.
Qed.

(** ** A missing target *)

Lemma runDirectory_Absent (pf : platform) (c : Cleaner) (dirPath : string) :
  runDirectory pf c dirPath Absent
  = Some (mkState (AddInt64 cSkippedDirs 1 emptyResult)
                  [LogSkipped dirPath "directory does not exist"]
                  []).
Proof. reflexivity. Qed.

(** C6. On a target that does not exist, [cleanDirectory] returns at once:
    [SkippedDirs] is 1, every other counter is 0, no error message is
    recorded, nothing is walked and nothing is removed; the only call on the
    logger is the skip notice. *)
Theorem cleanDirectory_missing :
  forall (pf : platform) (c : Cleaner) (dirPath : string),
    runDirectory pf c dirPath Absent
    = Some (mkState (mkCleanupResult 0 0 0 0 0 0 0 0 0 1 0 [])
                    [LogSkipped dirPath "directory does not exist"]
                    []).
Proof. intros pf c dirPath. rewrite runDirectory_Absent. reflexivity. Qed.

(** ** [mergeResults] *)

Section MergeFacts.

Lemma store_same (p : loc) (r : CleanupResult) (h : heap) :
  store p r h p = Some r.
Proof. unfold store. now rewrite Nat.eqb_refl. Qed.

Lemma store_other (p q : loc) (r : CleanupResult) (h : heap) :
  q <> p -> store p r h q = h q.
Proof.
  intros H. unfold store. destruct (Nat.eqb_spec q p); [contradiction|reflexivity].
Qed.

(** [mergeResults] on two distinct objects: the target becomes
    [merged t s], nothing else changes. *)
Lemma mergeResults_distinct (target source : loc) (h : heap)
    (t s : CleanupResult) :
  target <> source -> h target = Some t -> h source = Some s ->
  exists h',
    mergeResults target source h = Some (tt, h')
    /\ forall q, h' q = store target (merged t s) h q.
Proof.
  intros Hne Ht Hs.
  assert (E : Nat.eqb source target = false).
  { apply Nat.eqb_neq. congruence. }
  unfold mergeResults, bind, load, update, store.
  repeat (cbv beta; rewrite ?E, ?Nat.eqb_refl, ?Hs, ?Ht).
  eexists. split; [reflexivity|].
  intros q. cbv beta. destruct (Nat.eqb q target); [|reflexivity].
  destruct t, s. reflexivity.
Qed.

End MergeFacts.

(** C9. For two [CleanupResult] objects (distinct pointers [target] and
    [source]), [mergeResults(target, source)] returns without panic and
    changes [target] only: [source] keeps every counter and its messages
    (as does every other object), and each counter of [target] becomes its
    former value plus that of [source] in int64 arithmetic, with the messages
    of [source] appended in order; [ProcessingTime] is not touched. *)
Theorem mergeResults_frame :
  forall (h : heap) (target source : loc) (t s : CleanupResult),
    target <> source -> h target = Some t -> h source = Some s ->
    exists h',
      mergeResults target source h = Some (tt, h')
      /\ h' source = Some s
      /\ (forall q, q <> target -> h' q = h q)
      /\ exists t',
           h' target = Some t'
           /\ (forall f, get f t' = Int64.add (get f t) (get f s))
           /\ ErrorMessages t' = (ErrorMessages t ++ ErrorMessages s)%list
           /\ ProcessingTime t' = ProcessingTime t.
Proof.
  intros h target source t s Hne Ht Hs.
  destruct (mergeResults_distinct target source h t s Hne Ht Hs) as (h' & Hm & Hh').
  exists h'. split; [exact Hm|]. split; [|split].
  - rewrite Hh', store_other by congruence. exact Hs.
  - intros q Hq. rewrite Hh'. now apply store_other.
  - exists (merged t s). split; [rewrite Hh'; apply store_same|].
    split; [|split; reflexivity].
    intros f. destruct f; reflexivity.
Qed.

(** The frame property at a concrete heap: two objects at addresses 0 and 1. *)
Lemma mergeResults_frame_witness :
  let t := mkCleanupResult 3 1 300 2 1 200 1 0 0 0 7 ["a"] in
  let s := mkCleanupResult 5 2 500 4 0 400 0 1 1 1 9 ["b"; "c"] in
  let h := store 0%nat t (store 1%nat s (fun _ => None)) in
  exists h',
    mergeResults 0%nat 1%nat h = Some (tt, h')
    /\ h' 1%nat = Some s
    /\ (forall q, q <> 0%nat -> h' q = h q)
    /\ exists t',
         h' 0%nat = Some t'
         /\ (forall f, get f t' = Int64.add (get f t) (get f s))
         /\ ErrorMessages t' = (ErrorMessages t ++ ErrorMessages s)%list
         /\ ProcessingTime t' = ProcessingTime t.
Proof.
  intros t s h.
  apply (mergeResults_frame h 0%nat 1%nat t s).
  - discriminate.
  - reflexivity.
  - reflexivity.
Defined.

(** When both pointers name one object, the call doubles it: the frame
    property is about two objects. *)
Lemma mergeResults_aliased :
  let r := mkCleanupResult 3 1 300 2 1 200 1 0 0 0 7 ["a"] in
  exists h',
    mergeResults 0%nat 0%nat (store 0%nat r (fun _ => None)) = Some (tt, h')
    /\ h' 0%nat = Some (mkCleanupResult 6 2 600 4 2 400 2 0 0 0 7 ["a"; "a"]).
Proof. eexists. split; vm_compute; reflexivity. Qed.

(** ** Walking a tree *)

Lemma weight_Dir (size : Z) (rd rm : outcome) (es : list entry) :
  weight (Dir size rd rm es) = 1 + entries_weight es.
Proof. reflexivity. Qed.

Lemma weight_pos (n : node) : 1 <= weight n.
Proof.
  induction n using node_induction; [simpl; lia|].
  rewrite weight_Dir. unfold entries_weight.
  induction H as [|e es He Hes IH]; cbn [map fold_right]; [lia|].
  destruct e as [nm ls h l]. cbn [entry_weight entry_below] in *.
  destruct He as [Hh Hl]. destruct l; lia.
Qed.

Lemma entry_weight_pos (e : entry) : 1 <= entry_weight e.
Proof.
  destruct e as [nm ls h l]. simpl. pose proof (weight_pos h).
  destruct l as [n'|]; [pose proof (weight_pos n')|]; lia.
Qed.

Lemma entries_weight_nonneg (es : list entry) : 0 <= entries_weight es.
Proof.
  unfold entries_weight. induction es as [|e es IH]; cbn [map fold_right]; [lia|].
  pose proof (entry_weight_pos e). lia.
Qed.

Lemma entries_weight_cons (e : entry) (es : list entry) :
  entries_weight (e :: es) = entry_weight e + entries_weight es.
Proof. reflexivity. Qed.

(** An invariant that every call of the walk function re-establishes is
    re-established by the whole walk, which always returns. *)
Section WalkInvariant.

Variable pf : platform.
Variable fn : WalkFunc.
Variable Inv : Z -> state -> Prop.
Variable bound : Z.

Hypothesis Inv_mono : forall k k' st, Inv k st -> k <= k' -> Inv k' st.

Hypothesis fn_step :
  forall path info err a k st,
    visit_ok info err -> Inv k st -> k + 1 <= bound ->
    exists st',
      fn path info err a st = Some (returned err, st') /\ Inv (k + 1) st'.

Lemma walkNames_within (es : list entry) :
  Forall (entry_below (walks_within pf fn Inv bound)) es ->
  forall (path : string) (k : Z) (st : state),
    Inv k st -> k + entries_weight es <= bound ->
    exists st',
      walkNames pf fn path (map (prepare pf (walk pf fn) path) es) st
      = Some (None, st')
      /\ Inv (k + entries_weight es) st'.
Proof.
  induction 1 as [|e es He Hes IH]; intros path k st Hacc Hk.
  - simpl. unfold ret. eexists. split; [reflexivity|].
    unfold entries_weight. simpl. now rewrite Z.add_0_r.
  - rewrite entries_weight_cons in *.
    pose proof (entry_weight_pos e) as He1.
    pose proof (entries_weight_nonneg es) as Hes0.
    destruct e as [nm ls h l]. destruct He as [Hh Hl].
    set (rest := map (prepare pf (walk pf fn) path) es) in *.
    assert (Herr : forall err st0,
               err_op err = OpLstat -> Inv k st0 ->
               exists st',
                 (err1 <- fn (Join pf path nm) None (Some err) no_answers ;;
                  match err1 with
                  | Some (Failure e0) => ret (Some (Failure e0))
                  | _ => walkNames pf fn path rest
                  end) st0 = Some (None, st')
                 /\ Inv (k + (entry_weight (Entry nm ls h l) + entries_weight es)) st').
    { intros err st0 Hop Hacc0.
      destruct (fn_step (Join pf path nm) None (Some err) no_answers k st0)
        as (st1 & Hrun & Hacc1); [exact Hop|exact Hacc0|lia|].
      unfold bind. rewrite Hrun. cbn [returned].
      destruct (IH path (k + 1) st1) as (st2 & Hrun2 & Hacc2); [exact Hacc1|lia|].
      exists st2. split; [exact Hrun2|].
      eapply Inv_mono; [exact Hacc2|lia]. }
    assert (Hnode : forall n0 st0,
               walks_within pf fn Inv bound n0 ->
               weight n0 <= entry_weight (Entry nm ls h l) ->
               Inv k st0 ->
               exists st',
                 (err1 <- walk pf fn (Join pf path nm) n0 ;;
                  match err1 with
                  | None => walkNames pf fn path rest
                  | Some SkipDir =>
                      if negb (IsDir (info_of n0)) then ret (Some SkipDir)
                      else walkNames pf fn path rest
                  | Some (Failure e0) => ret (Some (Failure e0))
                  end) st0 = Some (None, st')
                 /\ Inv (k + (entry_weight (Entry nm ls h l) + entries_weight es)) st').
    { intros n0 st0 Hn0 Hle Hacc0.
      destruct (Hn0 (Join pf path nm) k st0) as (r & st1 & Hrun & Hacc1 & Hr);
        [exact Hacc0|lia|].
      unfold bind. rewrite Hrun.
      destruct (IH path (k + weight n0) st1) as (st2 & Hrun2 & Hacc2);
        [exact Hacc1|lia|].
      exists st2. split.
      - destruct Hr as [->|[-> Hd]]; [exact Hrun2|]. rewrite Hd. exact Hrun2.
      - eapply Inv_mono; [exact Hacc2|lia]. }
    cbn [map prepare walkNames ch_name]. fold rest.
    unfold bind at 1. unfold lstat_entry. cbn [ch_lstat ch_here ch_left ch_name].
    destruct (removeAll_of path (syscalls st)) as [[txt|]|].
    + destruct ls as [t0|].
      * apply Herr; [reflexivity|exact Hacc].
      * destruct l as [n'|].
        -- apply Hnode; [exact Hl| |exact Hacc].
           simpl. pose proof (weight_pos h). lia.
        -- apply Herr; [reflexivity|exact Hacc].
    + apply Herr; [reflexivity|exact Hacc].
    + destruct ls as [t0|].
      * apply Herr; [reflexivity|exact Hacc].
      * apply Hnode; [exact Hh| |exact Hacc].
        simpl. destruct l as [n'|]; [pose proof (weight_pos n')|]; lia.
Qed.

Lemma walk_within (n : node) : walks_within pf fn Inv bound n.
Proof.
  induction n using node_induction; intros path k st Hacc Hk.
  - cbn [walk weight] in *.
    destruct (fn_step path (Some (mkFileInfo false size)) None
                (mkAnswers o c r) k st) as (st1 & Hrun & Hacc1);
      [exact I|exact Hacc|lia|].
    exists None, st1. split; [exact Hrun|]. split; [exact Hacc1|now left].
  - rewrite weight_Dir in *. pose proof (entries_weight_nonneg es) as Hes0.
    cbn [walk].
    destruct (fn_step path (Some (mkFileInfo true size))
                (option_map (mkError OpOpen path) rd)
                (mkAnswers None None rm) k st) as (st1 & Hrun & Hacc1);
      [destruct rd; simpl; [split; [reflexivity|discriminate]|exact I]
      |exact Hacc|lia|].
    unfold bind. rewrite Hrun.
    destruct rd as [txt|]; cbn [option_map returned].
    + exists (Some SkipDir), st1. split; [reflexivity|].
      split; [eapply Inv_mono; [exact Hacc1|lia]|right; split; reflexivity].
    + destruct (walkNames_within es H path (k + 1) st1) as (st2 & Hrun2 & Hacc2);
        [exact Hacc1|lia|].
      exists None, st2. split; [exact Hrun2|].
      split; [|now left]. eapply Inv_mono; [exact Hacc2|lia].
Qed.

(** [filepath.Walk] returns [nil]. *)
Lemma Walk_within (root : string) (ls : outcome) (n : node) (k : Z) (st : state) :
  Inv k st -> k + weight n <= bound ->
  exists st',
    Walk pf fn root ls n st = Some (None, st') /\ Inv (k + weight n) st'.
Proof.
  intros Hacc Hk. pose proof (weight_pos n) as Hw. unfold Walk.
  destruct ls as [txt|].
  - destruct (fn_step root None (Some (mkError OpLstat root txt)) no_answers k st)
      as (st1 & Hrun & Hacc1); [reflexivity|exact Hacc|lia|].
    unfold bind. rewrite Hrun. cbn [returned]. unfold ret.
    exists st1. split; [reflexivity|]. eapply Inv_mono; [exact Hacc1|lia].
  - destruct (walk_within n root k st) as (r & st1 & Hrun & Hacc1 & Hr);
      [exact Hacc|exact Hk|].
    unfold bind. rewrite Hrun. exists st1. split; [|exact Hacc1].
    destruct Hr as [->|[-> _]]; reflexivity.
Qed.

End WalkInvariant.

(** ** The walk function of [cleanDirectory] *)

Lemma lstat_failures_app (evs : list event) (e : event) :
  lstat_failures (evs ++ [e])
  = lstat_failures evs + (if is_lstat_error e then 1 else 0).
Proof.
  unfold lstat_failures. rewrite filter_app, length_app. simpl.
  destruct (is_lstat_error e); simpl; lia.
Qed.

Lemma lstat_failures_nonneg (evs : list event) : 0 <= lstat_failures evs.
Proof. unfold lstat_failures. lia. Qed.

Lemma add_one (x k : Z) :
  0 <= x <= k -> k + 1 <= Int64.max_int -> Int64.add x 1 = x + 1.
Proof.
  intros H1 H2. apply Int64Facts.add_small.
  unfold Int64.in_range, Int64.min_int, Int64.max_int in *. lia.
Qed.

Lemma accounted_mono (k k' : Z) (st : state) :
  accounted k st -> k <= k' -> accounted k' st.
Proof. unfold accounted, counts_within. intros H Hk. lia. Qed.

Lemma accounted_init : accounted 0 initState.
Proof. unfold accounted, counts_within, lstat_failures. simpl. lia. Qed.

Section WalkFnFacts.

Variable pf : platform.
Variable c : Cleaner.
Variable dirPath : string.

Ltac run_walkFn :=
  unfold walkFn, deleteItem, bind, ret, lift, log, modify, sys, kind.

(** Every call keeps the counts accounted for. *)
Lemma walkFn_accounted (path : string) (info : option FileInfo)
    (err : option oserror) (a : answers) (k : Z) (st : state) :
  visit_ok info err -> accounted k st -> k + 1 <= Int64.max_int ->
  exists st',
    walkFn pf c dirPath path info err a st = Some (returned err, st')
    /\ accounted (k + 1) st'.
Proof.
  intros Hv Hacc Hk. destruct st as [r evs scs].
  destruct Hacc as (Hc & HL & H1 & H2 & H3). simpl in *.
  pose proof (lstat_failures_nonneg evs) as HL0.
  destruct r as [tf td ts df dd ds ff fd sf sd pt em].
  unfold counts_within in Hc. simpl in *.
  run_walkFn.
  destruct err as [e|].
  - destruct info as [i|]; simpl in Hv.
    + destruct Hv as [Hd Hop]. rewrite Hd. simpl.
      eexists. split; [reflexivity|].
      unfold accounted, counts_within; simpl.
      rewrite lstat_failures_app. simpl.
      destruct (err_op e); try congruence;
        rewrite !(add_one _ k) by lia; lia.
    + simpl. eexists. split; [reflexivity|].
      unfold accounted, counts_within; simpl.
      rewrite lstat_failures_app. simpl. rewrite Hv.
      rewrite !(add_one _ k) by lia; lia.
  - destruct (String.eqb path dirPath).
    + eexists. split; [reflexivity|].
      unfold accounted, counts_within; simpl. lia.
    + destruct info as [i|]; [|contradiction]. simpl.
      rewrite shouldDelete_policy.
      destruct (IsDir i), (policy pf path i a), (dryRun c), (ans_remove a); simpl;
        (eexists; split; [reflexivity|]);
        unfold accounted, counts_within; simpl;
        rewrite ?lstat_failures_app; simpl;
        rewrite ?(add_one _ k) by lia; simpl; lia.
Qed.

(** No call removes the root or reports it as deleted, and a dry run makes
    no removal at all. *)
Lemma walkFn_untouched (path : string) (info : option FileInfo)
    (err : option oserror) (a : answers) (st : state) :
  visit_ok info err ->
  untouched dirPath st /\ (dryRun c = true -> syscalls st = []) ->
  exists st',
    walkFn pf c dirPath path info err a st = Some (returned err, st')
    /\ untouched dirPath st' /\ (dryRun c = true -> syscalls st' = []).
Proof.
  intros Hv [[Hs He] Hdry]. destruct st as [r evs scs]. simpl in *.
  run_walkFn.
  destruct err as [e|].
  - simpl. eexists. split; [reflexivity|]. unfold untouched. simpl.
    repeat split; try assumption.
    apply Forall_app. split; [assumption|]. constructor; [|constructor].
    simpl. tauto.
  - destruct (String.eqb_spec path dirPath) as [Heq|Hne].
    + eexists. split; [reflexivity|]. unfold untouched. simpl. tauto.
    + destruct info as [i|]; [|contradiction]. simpl.
      rewrite shouldDelete_policy.
      assert (Hmsg : ("DRY RUN: Would delete " ++ path)%string
                     <> ("DRY RUN: Would delete " ++ dirPath)%string).
      { simpl. intros Hm. injection Hm. exact Hne. }
      destruct (IsDir i), (policy pf path i a), (dryRun c) eqn:Hd,
        (ans_remove a); simpl;
        (eexists; split; [reflexivity|]); unfold untouched; simpl;
        (split; [split|]);
        try assumption; try (intros; discriminate);
        try (apply Forall_app; split; [assumption|];
             constructor; [simpl; tauto|constructor]).
Qed.

End WalkFnFacts.

(** ** [cleanDirectory] returns, with its counts accounted for *)

Section CleanDirectoryFacts.

Variable pf : platform.
Variable c : Cleaner.
Variable dirPath : string.

(** The run on an existing target is the start notice followed by the
    walk, which returns no error. *)
Lemma runDirectory_Present (ls : outcome) (n : node) (st1 : state) :
  Walk pf (walkFn pf c dirPath) dirPath ls n
       (mkState emptyResult [LogDirectoryProcessing dirPath] [])
  = Some (None, st1) ->
  runDirectory pf c dirPath (Present ls n) = Some st1.
Proof.
  intros H. unfold runDirectory, cleanDirectory, bind, log. simpl.
  rewrite H. reflexivity.
Qed.

Lemma runDirectory_accounted (t : target) :
  target_weight t <= Int64.max_int ->
  exists st,
    runDirectory pf c dirPath t = Some st /\ accounted (target_weight t) st.
Proof.
  intros Hw. destruct t as [|ls n].
  - eexists. split; [reflexivity|].
    unfold accounted, counts_within, lstat_failures. simpl.
    unfold Int64.add, Int64.wrap, Int64.modulus. simpl. lia.
  - simpl in Hw.
    destruct (Walk_within pf (walkFn pf c dirPath) accounted Int64.max_int
                accounted_mono (walkFn_accounted pf c dirPath)
                dirPath ls n 0
                (mkState emptyResult [LogDirectoryProcessing dirPath] []))
      as (st1 & Hrun & Hacc).
    + unfold accounted, counts_within, lstat_failures. simpl. lia.
    + lia.
    + exists st1. split; [now apply runDirectory_Present|exact Hacc].
Qed.

(** Without any bound on the tree: the run returns, the root is neither
    removed nor reported as deleted, and a dry run removes nothing. *)
Lemma runDirectory_untouched (t : target) :
  exists st,
    runDirectory pf c dirPath t = Some st
    /\ untouched dirPath st
    /\ (dryRun c = true -> syscalls st = []).
Proof.
  destruct t as [|ls n].
  - eexists. split; [reflexivity|]. unfold untouched. simpl.
    repeat split; auto; repeat constructor; simpl; tauto.
  - destruct (Walk_within pf (walkFn pf c dirPath)
                (fun _ st => untouched dirPath st
                             /\ (dryRun c = true -> syscalls st = []))
                (weight n)
                (fun k k' st H _ => H)
                (fun path info err a k st Hv H _ =>
                   walkFn_untouched pf c dirPath path info err a st Hv H)
                dirPath ls n 0
                (mkState emptyResult [LogDirectoryProcessing dirPath] []))
      as (st1 & Hrun & Hinv).
    + unfold untouched. simpl.
      repeat split; auto; repeat constructor; simpl; tauto.
    + lia.
    + exists st1. split; [now apply runDirectory_Present|exact Hinv].
Qed.

(** [cleanDirectory] never panics. *)
Lemma dirResult_total (t : target) :
  exists r, dirResult pf c dirPath t = Some r.
Proof.
  destruct (runDirectory_untouched t) as (st & Hrun & _).
  exists (result st). unfold dirResult. now rewrite Hrun.
Qed.

End CleanDirectoryFacts.

(** ** Merging partial results *)






Lemma get_setProcessingTime (f : counter) (d : Z) (r : CleanupResult) :
  get f (setProcessingTime d r) = get f r.
Proof. destruct r, f; reflexivity. Qed.

Lemma mergeAll_snoc (rs : list CleanupResult) (r : CleanupResult) :
  mergeAll (rs ++ [r]) = merged (mergeAll rs) r.
Proof. unfold mergeAll. now rewrite fold_left_app. Qed.

(** ** The worker pool *)

Lemma cleaning_app (ws1 ws2 : list worker) :
  cleaning (ws1 ++ ws2) = (cleaning ws1 ++ cleaning ws2)%list.
Proof. apply flat_map_app. Qed.

Lemma cleaning_Cleaning (ws1 ws2 : list worker) (j : job) :
  cleaning (ws1 ++ Cleaning j :: ws2) = (cleaning ws1 ++ j :: cleaning ws2)%list.
Proof. now rewrite cleaning_app. Qed.

Lemma cleaning_Waiting (ws1 ws2 : list worker) :
  cleaning (ws1 ++ Waiting :: ws2) = (cleaning ws1 ++ cleaning ws2)%list.
Proof. now rewrite cleaning_app. Qed.

Lemma cleaning_Exited_middle (ws1 ws2 : list worker) :
  cleaning (ws1 ++ Exited :: ws2) = (cleaning ws1 ++ cleaning ws2)%list.
Proof. now rewrite cleaning_app. Qed.

Lemma Permutation_receive (A : Type) (j : A) (d c1 c2 work : list A) :
  Permutation (d ++ (c1 ++ j :: c2) ++ work) (d ++ (c1 ++ c2) ++ j :: work).
Proof.
  apply Permutation_app_head. rewrite <- !app_assoc.
  apply Permutation_app_head. simpl. apply Permutation_middle.
Qed.

Lemma Permutation_complete (A : Type) (j : A) (d c1 c2 work : list A) :
  Permutation ((d ++ [j]) ++ (c1 ++ c2) ++ work) (d ++ (c1 ++ j :: c2) ++ work).
Proof.
  rewrite <- (app_assoc d). apply Permutation_app_head. simpl.
  rewrite <- !app_assoc. simpl. apply Permutation_middle.
Qed.

Lemma cleaning_repeat_Waiting (n : nat) : cleaning (repeat Waiting n) = [].
Proof. induction n; simpl; auto. Qed.

Lemma cleaning_Exited (ws : list worker) :
  Forall (fun w => w = Exited) ws -> cleaning ws = [].
Proof.
  induction 1 as [|w ws Hw _ IH]; [reflexivity|]. subst w. exact IH.
Qed.

Lemma length_middle (A : Type) (l1 l2 : list A) (a b : A) :
  List.length (l1 ++ a :: l2) = List.length (l1 ++ b :: l2).
Proof. now rewrite !length_app. Qed.

Lemma In_middle (l1 l2 : list worker) (w w' : worker) :
  In Exited (l1 ++ w :: l2) -> w <> Exited -> In Exited (l1 ++ w' :: l2).
Proof.
  intros Hin Hw. apply in_app_or in Hin. apply in_or_app.
  destruct Hin as [Hin|[Hin|Hin]]; [now left|congruence|right; now right].
Qed.

Section PoolFacts.

Variable pf : platform.
Variable c : Cleaner.
Variable directories : list job.

Lemma pool_inv_init : pool_inv pf c directories (initPool c directories).
Proof.
  exists [], []. simpl. rewrite cleaning_repeat_Waiting. simpl.
  repeat split; auto; try (unfold resultPtr; lia).
  - apply repeat_length.
  - intros Hin. apply repeat_spec in Hin. discriminate.
Qed.

Lemma pool_inv_step (s s' : pool) :
  pool_inv pf c directories s -> step pf c s s' ->
  pool_inv pf c directories s'.
Proof.
  intros (mergedL & pendingL & Hdone & Hres & Hpend & Hlt & Hnext & Hperm & Hall
          & Hlen & Hexit)
         Hstep.
  unfold pool_inv.
  destruct Hstep as [j work ws1 ws2 rc h n done
                    |j r ws1 ws2 work rc h n done Hclean
                    |ws1 ws2 rc h n done
                    |p rc work ws h h' n done Hmerge];
    cbn [workChan workers resultChan mem next completed] in *.
  - (* a worker receives a directory *)
    exists mergedL, pendingL.
    split; [exact Hdone|]. split; [exact Hres|]. split; [exact Hpend|].
    split; [exact Hlt|]. split; [exact Hnext|]. split; [|split; [exact Hall|split]].
    + rewrite cleaning_Cleaning. rewrite cleaning_Waiting in Hperm.
      eapply Permutation_trans; [apply Permutation_receive|exact Hperm].
    + now rewrite <- Hlen, (length_middle _ ws1 ws2 (Cleaning j) Waiting).
    + intros Hin. apply (In_middle ws1 ws2 (Cleaning j) Waiting) in Hin;
        [|discriminate].
      specialize (Hexit Hin). discriminate.
  - (* a worker completes [cleanDirectory] and sends the result *)
    exists mergedL, (pendingL ++ [(j, r)])%list.
    assert (Hn : n <> resultPtr) by (unfold resultPtr in *; lia).
    split; [|split; [|split; [|split; [|split; [|split; [|split; [|split]]]]]]].
    + rewrite Hdone. now rewrite app_assoc.
    + rewrite store_other by (unfold resultPtr in *; lia). exact Hres.
    + apply Forall2_app.
      * clear - Hpend Hlt. revert Hlt.
        induction Hpend as [|p jr ps jrs Hp _ IH]; intros Hlt; constructor.
        -- inversion Hlt; subst. rewrite store_other by lia. exact Hp.
        -- apply IH. now inversion Hlt.
      * constructor; [|constructor]. simpl. apply store_same.
    + apply Forall_app. split.
      * eapply Forall_impl; [|exact Hlt]. simpl. intros; lia.
      * constructor; [|constructor]. unfold resultPtr in *. lia.
    + lia.
    + rewrite map_app. cbn [map fst].
      rewrite cleaning_Waiting. rewrite cleaning_Cleaning in Hperm.
      eapply Permutation_trans; [apply Permutation_complete|exact Hperm].
    + apply Forall_app. split; [exact Hall|]. constructor; [exact Hclean|constructor].
    + now rewrite <- Hlen, (length_middle _ ws1 ws2 Waiting (Cleaning j)).
    + intros Hin. apply (In_middle ws1 ws2 Waiting (Cleaning j)) in Hin;
        [|discriminate].
      exact (Hexit Hin).
  - (* a worker returns *)
    exists mergedL, pendingL.
    split; [exact Hdone|]. split; [exact Hres|]. split; [exact Hpend|].
    split; [exact Hlt|]. split; [exact Hnext|]. split; [|split; [exact Hall|split]].
    + rewrite cleaning_Exited_middle. rewrite cleaning_Waiting in Hperm. exact Hperm.
    + now rewrite <- Hlen, (length_middle _ ws1 ws2 Exited Waiting).
    + reflexivity.
  - (* the dispatcher merges the next result *)
    inversion Hpend as [|p0 jr ps jrs Hp Hrest Heq1 Heq2]; subst.
    inversion Hlt as [|p0 ps Hp0 Hlt']; subst.
    destruct (mergeResults_distinct resultPtr p h
                (mergeAll (map snd mergedL)) (snd jr))
      as (h'' & Hm & Hh''); [lia|exact Hres|exact Hp|].
    rewrite Hm in Hmerge. injection Hmerge as <-.
    exists (mergedL ++ [jr])%list, jrs.
    split; [|split; [|split; [|split; [exact Hlt'|split; [exact Hnext|]]]]].
    + now rewrite <- app_assoc.
    + rewrite Hh'', store_same, map_app. cbn [map]. now rewrite mergeAll_snoc.
    + clear - Hrest Hlt' Hh''. revert Hlt'.
      induction Hrest as [|q jr' qs jrs' Hq _ IH]; intros Hlt'; constructor.
      * inversion Hlt'; subst. rewrite Hh'', store_other by lia. exact Hq.
      * apply IH. now inversion Hlt'.
    + split; [exact Hperm|]. split; [exact Hall|]. split; [exact Hlen|exact Hexit].
Qed.

Lemma pool_inv_steps (s : pool) :
  steps pf c (initPool c directories) s -> pool_inv pf c directories s.
Proof.
  remember (initPool c directories) as s0 eqn:Hs0.
  induction 1 as [s|s1 s2 s3 _ IH Hstep].
  - subst. apply pool_inv_init.
  - eapply pool_inv_step; [apply IH; exact Hs0|exact Hstep].
Qed.

(** What [CleanDirectories] returns: the merge, in the order of
    completion, of one [cleanDirectory] result per directory. *)
Lemma CleanDirectories_merges (elapsed : Z) (r : CleanupResult) :
  1 <= maxWorkers c ->
  CleanDirectories pf c directories elapsed r ->
  exists done : list (job * CleanupResult),
    Permutation (map fst done) directories
    /\ Forall (fun jr => dirResult pf c (fst (fst jr)) (snd (fst jr))
                         = Some (snd jr)) done
    /\ r = setProcessingTime elapsed (mergeAll (map snd done)).
Proof.
  intros Hw (s & r0 & Hsteps & (Hexited & Hchan) & Hmem & ->).
  destruct (pool_inv_steps s Hsteps)
    as (mergedL & pendingL & Hdone & Hres & Hpend & _ & _ & Hperm & Hall
        & Hlen & Hexit).
  assert (Hwork : workChan s = []).
  { apply Hexit. destruct (workers s) as [|w ws]; [simpl in Hlen; lia|].
    inversion Hexited; subst. now left. }
  rewrite Hchan in Hpend. inversion Hpend; subst pendingL.
  rewrite app_nil_r in Hdone.
  rewrite Hwork, (cleaning_Exited _ Hexited), !app_nil_r in Hperm.
  exists (completed s). repeat split; try assumption.
  rewrite Hdone. rewrite Hres in Hmem. now injection Hmem as <-.
Qed.

End PoolFacts.

(** A call of [CleanDirectories] can always run to its end: the schedule in
    which the first worker takes every directory in turn and the dispatcher
    merges each result as it arrives. *)
Section PoolCompletes.

Variable pf : platform.
Variable c : Cleaner.

Lemma steps_trans (s1 s2 s3 : pool) :
  steps pf c s1 s2 -> steps pf c s2 s3 -> steps pf c s1 s3.
Proof.
  intros H12 H23. induction H23 as [s|s2 s3 s4 _ IH Hstep]; [exact H12|].
  eapply steps_step; [apply IH; exact H12|exact Hstep].
Qed.

Lemma steps_one (s1 s2 : pool) : step pf c s1 s2 -> steps pf c s1 s2.
Proof. intros H. eapply steps_step; [apply steps_refl|exact H]. Qed.

Lemma steps_sequential (ws : list worker) (work : list job) :
  forall (h : heap) (n : loc) (done : list (job * CleanupResult))
         (agg : CleanupResult),
    h resultPtr = Some agg -> (resultPtr < n)%nat ->
    exists h' n' done' agg',
      steps pf c (mkPool work (Waiting :: ws) [] h n done)
                 (mkPool [] (Waiting :: ws) [] h' n' done')
      /\ h' resultPtr = Some agg'.
Proof.
  induction work as [|j work IH]; intros h n done agg Hagg Hn.
  - exists h, n, done, agg. split; [apply steps_refl|exact Hagg].
  - destruct (dirResult_total pf c (fst j) (snd j)) as [r Hr].
    destruct (mergeResults_distinct resultPtr n (store n r h) agg r)
      as (h1 & Hm & Hh1).
    + unfold resultPtr in *. lia.
    + rewrite store_other by (unfold resultPtr in *; lia). exact Hagg.
    + apply store_same.
    + destruct (IH h1 (S n) (done ++ [(j, r)])%list (merged agg r))
        as (h' & n' & done' & agg' & Hsteps & Hagg').
      * rewrite Hh1. apply store_same.
      * lia.
      * exists h', n', done', agg'. split; [|exact Hagg'].
        eapply steps_trans; [|exact Hsteps].
        eapply steps_step; [eapply steps_step; [apply steps_one|]|].
        -- exact (step_receive pf c j work [] ws [] h n done).
        -- exact (step_clean pf c j r [] ws work [] h n done Hr).
        -- exact (step_merge pf c n [] work (Waiting :: ws) (store n r h) h1
                    (S n) (done ++ [(j, r)])%list Hm).
Qed.

Lemma steps_exit (k : nat) :
  forall (ws1 : list worker) (h : heap) (n : loc)
         (done : list (job * CleanupResult)),
    steps pf c (mkPool [] (ws1 ++ repeat Waiting k) [] h n done)
               (mkPool [] (ws1 ++ repeat Exited k) [] h n done).
Proof.
  induction k as [|k IH]; intros ws1 h n done; [apply steps_refl|].
  eapply steps_trans.
  - apply steps_one. exact (step_exit pf c ws1 (repeat Waiting k) [] h n done).
  - specialize (IH (ws1 ++ [Exited])%list h n done).
    rewrite <- !app_assoc in IH. exact IH.
Qed.

Lemma CleanDirectories_completes (directories : list job) (elapsed : Z) :
  1 <= maxWorkers c ->
  exists r, CleanDirectories pf c directories elapsed r.
Proof.
  intros Hw. unfold CleanDirectories, initPool.
  destruct (Z.to_nat (maxWorkers c)) as [|k] eqn:Hk; [lia|].
  destruct (steps_sequential (repeat Waiting k) directories
              (store resultPtr emptyResult (fun _ => None)) 1%nat [] emptyResult)
    as (h' & n' & done' & agg' & Hsteps & Hagg').
  - apply store_same.
  - unfold resultPtr. lia.
  - exists (setProcessingTime elapsed agg').
    exists (mkPool [] (repeat Exited (S k)) [] h' n' done'), agg'.
    repeat split.
    + eapply steps_trans; [exact Hsteps|].
      exact (steps_exit (S k) [] h' n' done').
    + apply Forall_forall. intros w Hin. now apply repeat_spec in Hin.
    + exact Hagg'.
Qed.

End PoolCompletes.

(** No schedule runs forever or gets stuck: every step lowers the measure,
    and a state reached that is not finished can take a step. *)
Section PoolProgress.

Variable pf : platform.
Variable c : Cleaner.
Variable directories : list job.





End PoolProgress.

(** ** [CleanDirectories]: every target once, totals independent of order *)

(** [New] gives between 2 and 8 workers. *)
Lemma New_workers (numCPU : Z) (dry : bool) :
  2 <= maxWorkers (New numCPU dry) <= 8 /\ dryRun (New numCPU dry) = dry.
Proof.
  unfold New. cbn [maxWorkers dryRun].
  destruct (Z.ltb_spec numCPU 2) as [H2|H2].
  - change (8 <? 2) with false. cbv iota. split; [lia|reflexivity].
  - destruct (Z.ltb_spec 8 numCPU); split; (lia || reflexivity).
Qed.


(** A run of [CleanDirectories] over [/tmp] and a missing directory with
    two workers, the second of which completes first. *)
Lemma sample_run :
  CleanDirectories linux (New 2 false) sample_jobs 1500
    (mkCleanupResult 2 1 184 1 1 120 0 0 1 1 1500 []).
Proof.
  unfold CleanDirectories.
  eexists. eexists. split; [|split; [|split]].
  - unfold sample_jobs, initPool. simpl.
    eapply steps_step. eapply steps_step. eapply steps_step.
    eapply steps_step. eapply steps_step. eapply steps_step.
    eapply steps_step. eapply steps_step. apply steps_refl.
    + (* the first worker receives /tmp *)
      exact (step_receive _ _ _ _ [] [Waiting] _ _ _ _).
    + (* the second worker receives /missing *)
      exact (step_receive _ _ _ _
               [Cleaning ("/tmp", Present None tmp_tree)] [] _ _ _ _).
    + (* the second worker completes first *)
      refine (step_clean _ _ ("/missing", Absent) _
                [Cleaning ("/tmp", Present None tmp_tree)] [] _ _ _ _ _ _).
      vm_compute. reflexivity.
    + refine (step_clean _ _ ("/tmp", Present None tmp_tree) _
                [] [Waiting] _ _ _ _ _ _).
      vm_compute. reflexivity.
    + refine (step_merge _ _ _ _ _ _ _ _ _ _ _). reflexivity.
    + refine (step_merge _ _ _ _ _ _ _ _ _ _ _). reflexivity.
    + exact (step_exit _ _ [] [Waiting] _ _ _ _).
    + exact (step_exit _ _ [Exited] [] _ _ _ _).
  - repeat split; repeat constructor.
  - vm_compute. reflexivity.
  - reflexivity.
Qed.


(** ** The counts of a run add up *)

Lemma result_accounted_of_state (k : Z) (st : state) :
  accounted k st ->
  result_accounted k (lstat_failures (events st)) (result st).
Proof.
  unfold accounted, result_accounted. intros H.
  pose proof (lstat_failures_nonneg (events st)). tauto.
Qed.

Lemma merged_accounted (k1 L1 k2 L2 : Z) (t s : CleanupResult) :
  result_accounted k1 L1 t -> result_accounted k2 L2 s ->
  k1 + k2 <= Int64.max_int ->
  result_accounted (k1 + k2) (L1 + L2) (merged t s).
Proof.
  unfold result_accounted, counts_within. intros Ht Hs Hk.
  destruct t, s. simpl in *.
  rewrite !Int64Facts.add_small
    by (unfold Int64.in_range, Int64.min_int, Int64.max_int in *; lia).
  lia.
Qed.

Section SumOfRuns.

Variable X : Type.
Variable wt lf : X -> Z.
Variable res : X -> CleanupResult.

Lemma fold_merged_accounted (xs : list X) :
  Forall (fun x => result_accounted (wt x) (lf x) (res x)) xs ->
  forall (acc : CleanupResult) (k L : Z),
    result_accounted k L acc ->
    k + fold_right Z.add 0 (map wt xs) <= Int64.max_int ->
    result_accounted (k + fold_right Z.add 0 (map wt xs))
                     (L + fold_right Z.add 0 (map lf xs))
                     (fold_left merged (map res xs) acc).
Proof.
  induction 1 as [|x xs Hx Hxs IH]; intros acc k L Hacc Hk; simpl in *.
  - now rewrite !Z.add_0_r.
  - assert (Hnn : 0 <= fold_right Z.add 0 (map wt xs)).
    { clear - Hxs. induction Hxs as [|y ys Hy _ IHy]; simpl; [lia|].
      destruct Hy as (_ & Hy & _). lia. }
    assert (Hwx : 0 <= wt x) by (destruct Hx as (_ & Hx & _); lia).
    specialize (IH (merged acc (res x)) (k + wt x) (L + lf x)).
    rewrite !Z.add_assoc. apply IH; [|lia].
    apply merged_accounted; [exact Hacc|exact Hx|lia].
Qed.

End SumOfRuns.

Lemma fold_add_Permutation (l l' : list Z) :
  Permutation l l' -> fold_right Z.add 0 l = fold_right Z.add 0 l'.
Proof.
  induction 1; simpl; lia.
Qed.

Lemma Forall_exists_Forall2 (A B : Type) (R : A -> B -> Prop) (l : list A) :
  Forall (fun a => exists b, R a b) l -> exists l', Forall2 R l l'.
Proof.
  induction 1 as [|a l [b Hb] _ [l' IH]].
  - exists []. constructor.
  - exists (b :: l'). now constructor.
Qed.

Lemma result_accounted_setProcessingTime (k L d : Z) (r : CleanupResult) :
  result_accounted k L r -> result_accounted k L (setProcessingTime d r).
Proof. destruct r. exact (fun H => H). Qed.

Lemma target_weight_pos (t : target) : 1 <= target_weight t.
Proof. destruct t; simpl; [lia|apply weight_pos]. Qed.

Lemma jobs_weight_In (j : job) (js : list job) :
  In j js -> target_weight (snd j) <= jobs_weight js.
Proof.
  unfold jobs_weight. induction js as [|j' js IH]; simpl; [tauto|].
  assert (Hnn : 0 <= fold_right Z.add 0 (map (fun j0 => target_weight (snd j0)) js)).
  { clear. induction js as [|j0 js IH]; simpl; [lia|].
    pose proof (target_weight_pos (snd j0)). lia. }
  pose proof (target_weight_pos (snd j')).
  intros [->|Hin]; [lia|]. specialize (IH Hin). lia.
Qed.

(** C1, as stated, fails: when the [lstat] of an entry fails, the entry is
    counted under [FailedFiles] but not under [TotalFiles]. *)
Lemma counts_counterexample :
  exists r,
    dirResult linux (New 2 true) "/srv" (Present None unstatable_tree) = Some r
    /\ DeletedFiles r + FailedFiles r + SkippedFiles r <> TotalFiles r.
Proof. eexists. split; [vm_compute; reflexivity|]. simpl. discriminate. Qed.

(** C1, amended. Barring int64 overflow (the trees hold fewer than 2^63
    entries), every partial result of [cleanDirectory] and every result of
    [CleanDirectories] has [DeletedFiles <= TotalFiles],
    [DeletedDirs <= TotalDirs] and
    [DeletedFiles + FailedFiles + SkippedFiles = TotalFiles + L], where [L]
    is the number of entries whose [lstat] failed during the walk: each is
    recorded as a failed file and is not counted in [TotalFiles].  The sum
    equals [TotalFiles] exactly when no [lstat] failed. *)
Theorem counts_accounted_for :
  forall (pf : platform) (c : Cleaner),
    (forall (dirPath : string) (t : target),
        target_weight t <= Int64.max_int ->
        exists st,
          runDirectory pf c dirPath t = Some st
          /\ DeletedFiles (result st) <= TotalFiles (result st)
          /\ DeletedDirs (result st) <= TotalDirs (result st)
          /\ DeletedFiles (result st) + FailedFiles (result st)
             + SkippedFiles (result st)
             = TotalFiles (result st) + lstat_failures (events st))
    /\ (forall (directories : list job) (elapsed : Z) (r : CleanupResult),
           1 <= maxWorkers c ->
           jobs_weight directories <= Int64.max_int ->
           CleanDirectories pf c directories elapsed r ->
           exists runs : list (job * state),
             Permutation (map fst runs) directories
             /\ Forall (fun js => runDirectory pf c (fst (fst js)) (snd (fst js))
                                  = Some (snd js)) runs
             /\ DeletedFiles r <= TotalFiles r
             /\ DeletedDirs r <= TotalDirs r
             /\ DeletedFiles r + FailedFiles r + SkippedFiles r
                = TotalFiles r + runs_lstat_failures runs).
Proof.
  intros pf c. split.
  - intros dirPath t Hw.
    destruct (runDirectory_accounted pf c dirPath t Hw) as (st & Hrun & Hacc).
    exists st. split; [exact Hrun|].
    destruct Hacc as (_ & _ & H1 & H2 & H3). auto.
  - intros directories elapsed r Hworkers Hw Hrun.
    destruct (CleanDirectories_merges pf c directories elapsed r Hworkers Hrun)
      as (done & Hperm & Hall & ->).
    (* the run behind each partial result *)
    assert (Hruns : exists runs : list (job * state),
               Forall2 (fun jr js =>
                          fst js = fst jr
                          /\ runDirectory pf c (fst (fst js)) (snd (fst js))
                             = Some (snd js)
                          /\ result (snd js) = snd jr
                          /\ accounted (target_weight (snd (fst js))) (snd js))
                       done runs).
    { apply Forall_exists_Forall2. rewrite Forall_forall in *.
      intros [j r0] Hin. specialize (Hall _ Hin). simpl in Hall.
      assert (Hj : In j directories).
      { apply (Permutation_in _ Hperm). apply in_map_iff. now exists (j, r0). }
      destruct (runDirectory_accounted pf c (fst j) (snd j)) as (st & Hst & Hacc).
      - pose proof (jobs_weight_In j directories Hj). lia.
      - exists (j, st). simpl.
        split; [reflexivity|]. split; [exact Hst|]. split; [|exact Hacc].
        unfold dirResult in Hall. rewrite Hst in Hall. simpl in Hall.
        now injection Hall. }
    destruct Hruns as (runs & Hruns).
    assert (Hfst : map fst runs = map fst done).
    { clear - Hruns.
      induction Hruns as [|jr js l l' (H & _) _ IH]; cbn [map]; [reflexivity|].
      f_equal; [exact H|exact IH]. }
    assert (Hres : map (fun js => result (snd js)) runs = map snd done).
    { clear - Hruns.
      induction Hruns as [|jr js l l' (_ & _ & H & _) _ IH]; cbn [map];
        [reflexivity|].
      f_equal; [exact H|exact IH]. }
    exists runs. split; [now rewrite Hfst|]. split.
    { clear - Hruns. induction Hruns as [|jr js l l' (_ & H & _) _ IH];
        constructor; assumption. }
    assert (Hsum : fold_right Z.add 0
                     (map (fun js : job * state => target_weight (snd (fst js))) runs)
                   = jobs_weight directories).
    { unfold jobs_weight.
      replace (map (fun js : job * state => target_weight (snd (fst js))) runs)
        with (map (fun j : job => target_weight (snd j)) (map fst runs))
        by (now rewrite map_map).
      rewrite Hfst. apply fold_add_Permutation, Permutation_map, Hperm. }
    pose proof (fold_merged_accounted (job * state)
                  (fun js => target_weight (snd (fst js)))
                  (fun js => lstat_failures (events (snd js)))
                  (fun js => result (snd js)) runs) as Hfold.
    specialize (Hfold ltac:(clear - Hruns;
                            induction Hruns as [|jr js l l' (_ & _ & _ & H) _ IH];
                            constructor;
                              [now apply result_accounted_of_state|assumption])).
    specialize (Hfold emptyResult 0 0).
    rewrite Hres, Hsum in Hfold.
    assert (Hempty : result_accounted 0 0 emptyResult).
    { unfold result_accounted, counts_within. simpl. lia. }
    specialize (Hfold Hempty ltac:(lia)).
    apply (result_accounted_setProcessingTime _ _ elapsed) in Hfold.
    destruct Hfold as (_ & _ & H1 & H2 & H3).
    unfold runs_lstat_failures. fold (mergeAll (map snd done)) in *.
    repeat split; try assumption; rewrite H3; lia.
Qed.

(** The theorem at the tree of [/var/tmp] (a removed directory whose file
    then fails [lstat]) and at the sample run of the pool. *)
Lemma counts_accounted_for_witness :
  (exists st,
      runDirectory linux (New 2 false) "/var/tmp" (Present None nested_tree)
      = Some st
      /\ DeletedFiles (result st) <= TotalFiles (result st)
      /\ DeletedDirs (result st) <= TotalDirs (result st)
      /\ DeletedFiles (result st) + FailedFiles (result st)
         + SkippedFiles (result st)
         = TotalFiles (result st) + lstat_failures (events st))
  /\ (exists runs : list (job * state),
         Permutation (map fst runs) sample_jobs
         /\ Forall (fun js => runDirectory linux (New 2 false) (fst (fst js))
                                (snd (fst js)) = Some (snd js)) runs
         /\ 1 <= 2 /\ 1 <= 1
         /\ 1 + 0 + 1 = 2 + runs_lstat_failures runs).
Proof.
  split.
  - apply (proj1 (counts_accounted_for linux (New 2 false))).
    vm_compute. discriminate.
  - apply (proj2 (counts_accounted_for linux (New 2 false))
             sample_jobs 1500
             (mkCleanupResult 2 1 184 1 1 120 0 0 1 1 1500 [])).
    + vm_compute. discriminate.
    + vm_compute. discriminate.
    + exact sample_run.
Defined.

(** ** The root of a target *)

Lemma Forall_entry_below (P : node -> Prop) :
  (forall n, P n) -> forall es, Forall (entry_below P) es.
Proof.
  intros HP es. apply Forall_forall. intros [nm ls h l] _. simpl.
  split; [apply HP|]. destruct l; [apply HP|exact I].
Qed.

Lemma walkFn_root (pf : platform) (c : Cleaner) (dirPath : string)
    (info : option FileInfo) (a : answers) (st : state) :
  walkFn pf c dirPath dirPath info None a st = Some (None, st).
Proof. unfold walkFn. rewrite String.eqb_refl. reflexivity. Qed.

Lemma walk_root_dir (pf : platform) (c : Cleaner) (dirPath : string)
    (size : Z) (rm : outcome) (es : list entry) (st : state) :
  walk pf (walkFn pf c dirPath) dirPath (Dir size None rm es) st
  = walkNames pf (walkFn pf c dirPath) dirPath
      (map (prepare pf (walk pf (walkFn pf c dirPath)) dirPath) es) st.
Proof. cbn [walk option_map]. unfold bind. now rewrite walkFn_root. Qed.

(** C5, as stated, fails: a root that exists but cannot be read is counted
    under [FailedDirs]. *)
Lemma root_counterexample :
  exists r,
    dirResult linux (New 2 false) "/srv"
      (Present None (Dir 4096 (Some "permission denied") None [])) = Some r
    /\ FailedDirs r = 1.
Proof. eexists. split; [vm_compute; reflexivity|reflexivity]. Qed.

(** C5, amended. A run of [cleanDirectory] on an existing target always
    returns, and the root is never removed nor reported as deleted.  A root
    visited without error contributes to no counter: a root that is not a
    directory leaves the result empty, and below a readable root directory
    the walk of its entries starts from the empty result.  A walk error at
    the root (the root cannot be read, or its [lstat] fails) is recorded by
    the walk function as one failure ([FailedDirs] for a root directory that
    cannot be read, [FailedFiles] when [lstat] fails) with one
    ["Walk error"] message, and nothing else is counted. *)
Theorem root_excluded :
  forall (pf : platform) (c : Cleaner) (dirPath : string),
    (forall t, exists st,
        runDirectory pf c dirPath t = Some st /\ untouched dirPath st)
    /\ (forall size o cl rm,
           runDirectory pf c dirPath (Present None (File size o cl rm))
           = Some (mkState emptyResult [LogDirectoryProcessing dirPath] []))
    /\ (forall size rm es, exists st,
           walkNames pf (walkFn pf c dirPath) dirPath
             (map (prepare pf (walk pf (walkFn pf c dirPath)) dirPath) es)
             (mkState emptyResult [LogDirectoryProcessing dirPath] [])
           = Some (None, st)
           /\ runDirectory pf c dirPath (Present None (Dir size None rm es))
              = Some st)
    /\ (forall size text rm es,
           runDirectory pf c dirPath (Present None (Dir size (Some text) rm es))
           = Some (record_failure cFailedDirs dirPath
                     (mkError OpOpen dirPath text)
                     (mkState emptyResult [LogDirectoryProcessing dirPath] [])))
    /\ (forall text n,
           runDirectory pf c dirPath (Present (Some text) n)
           = Some (record_failure cFailedFiles dirPath
                     (mkError OpLstat dirPath text)
                     (mkState emptyResult [LogDirectoryProcessing dirPath] []))).
Proof.
  intros pf c dirPath. split; [|split; [|split; [|split]]].
  - intros t. destruct (runDirectory_untouched pf c dirPath t) as (st & H1 & H2 & _).
    now exists st.
  - intros size o cl rm. apply runDirectory_Present.
    unfold Walk, bind. cbn [walk]. now rewrite walkFn_root.
  - intros size rm es.
    set (st0 := mkState emptyResult [LogDirectoryProcessing dirPath] []).
    destruct (walkNames_within pf (walkFn pf c dirPath)
                (fun _ st => untouched dirPath st
                             /\ (dryRun c = true -> syscalls st = []))
                (entries_weight es)
                (fun k k' st H _ => H)
                (fun path info err a k st Hv H _ =>
                   walkFn_untouched pf c dirPath path info err a st Hv H)
                es) with (path := dirPath) (k := 0) (st := st0)
      as (st1 & Hrun & _).
    + apply Forall_entry_below. intros n.
      apply (walk_within pf (walkFn pf c dirPath)
               (fun _ st => untouched dirPath st
                            /\ (dryRun c = true -> syscalls st = []))
               (entries_weight es)
               (fun k k' st H _ => H)
               (fun path info err a k st Hv H _ =>
                  walkFn_untouched pf c dirPath path info err a st Hv H)).
    + unfold untouched, st0. simpl.
      repeat split; auto; repeat constructor; simpl; tauto.
    + lia.
    + exists st1. split; [exact Hrun|]. apply runDirectory_Present.
      unfold Walk, bind. fold st0. now rewrite walk_root_dir, Hrun.
  - intros size text rm es. reflexivity.
  - intros text n. reflexivity.
Qed.

(** ** Traversal errors *)

Section TraversalErrors.

Variable pf : platform.
Variable c : Cleaner.
Variable dirPath : string.

(** The walk function on an error: one failure under the counter of the
    file info passed (a file when there is none), one message, [SkipDir]. *)
Lemma walkFn_error (path : string) (info : option FileInfo) (e : oserror)
    (a : answers) (st : state) :
  walkFn pf c dirPath path info (Some e) a st
  = Some (Some SkipDir,
          record_failure
            (match info with
             | Some i => if IsDir i then cFailedDirs else cFailedFiles
             | None => cFailedFiles
             end) path e st).
Proof. reflexivity. Qed.

(** An entry whose [lstat] fails: recorded as a failed file, and the loop
    goes on with the names that follow. *)
Lemma walkNames_lstat_error (path nm text : string) (h : node)
    (l : option node) (rest : list child) (st : state) :
  exists e,
    err_op e = OpLstat
    /\ walkNames pf (walkFn pf c dirPath) path
         (prepare pf (walk pf (walkFn pf c dirPath)) path
                  (Entry nm (Some text) h l) :: rest) st
       = walkNames pf (walkFn pf c dirPath) path rest
           (record_failure cFailedFiles (Join pf path nm) e st).
Proof.
  cbn [prepare walkNames ch_name]. unfold bind at 1, lstat_entry.
  cbn [ch_lstat ch_name].
  destruct (removeAll_of path (syscalls st)) as [[t0|]|];
    eexists; (split; [|unfold bind; rewrite walkFn_error; reflexivity]);
    reflexivity.
Qed.

(** An entry that is a directory which cannot be read: recorded as a failed
    directory, nothing below it is visited, and the loop goes on with the
    names that follow. *)
Lemma walkNames_unreadable (path nm text : string) (size : Z) (rm : outcome)
    (es : list entry) (l : option node) (rest : list child) (st : state) :
  removeAll_of path (syscalls st) = None ->
  walkNames pf (walkFn pf c dirPath) path
    (prepare pf (walk pf (walkFn pf c dirPath)) path
             (Entry nm None (Dir size (Some text) rm es) l) :: rest) st
  = walkNames pf (walkFn pf c dirPath) path rest
      (record_failure cFailedDirs (Join pf path nm)
         (mkError OpOpen (Join pf path nm) text) st).
Proof.
  intros Hst.
  cbn [prepare walkNames ch_name]. unfold bind at 1, lstat_entry.
  cbn [ch_lstat ch_here ch_name]. rewrite Hst.
  cbn [walk option_map]. unfold bind. rewrite walkFn_error. reflexivity.
Qed.

End TraversalErrors.

(** C3, as stated, fails: an entry that is a directory and whose [lstat]
    fails is recorded under [FailedFiles], not under the counter of its
    kind. *)
Lemma traversal_error_counterexample :
  exists d r,
    unstatable_tree
    = Dir 4096 None None [Entry "gone" (Some "permission denied") d None]
    /\ IsDir (info_of d) = true
    /\ dirResult linux (New 2 false) "/srv" (Present None unstatable_tree)
       = Some r
    /\ FailedDirs r = 0 /\ FailedFiles r = 1.
Proof.
  eexists. eexists. split; [reflexivity|]. split; [reflexivity|].
  split; [vm_compute; reflexivity|]. split; reflexivity.
Qed.

(** C3, amended. On a traversal error at an entry the walk function records
    one failure and appends one error message: under [FailedDirs] when the
    file info of the entry is there and is that of a directory (a
    directory that cannot be read), under [FailedFiles] otherwise (an entry
    whose [lstat] failed, whatever the entry is).  Nothing below the entry
    is visited, and the loop continues with the names that follow it; the
    run always returns.  In a directory holding a subdirectory that cannot
    be read and a deletable file, the file is deleted, the subdirectory
    gives one failure and one message. *)
Theorem traversal_errors_isolated :
  forall (pf : platform) (c : Cleaner) (dirPath : string),
    (forall path info e a st,
        walkFn pf c dirPath path info (Some e) a st
        = Some (Some SkipDir,
                record_failure
                  (match info with
                   | Some i => if IsDir i then cFailedDirs else cFailedFiles
                   | None => cFailedFiles
                   end) path e st))
    /\ (forall path nm text h l rest st,
           exists e,
             err_op e = OpLstat
             /\ walkNames pf (walkFn pf c dirPath) path
                  (prepare pf (walk pf (walkFn pf c dirPath)) path
                           (Entry nm (Some text) h l) :: rest) st
                = walkNames pf (walkFn pf c dirPath) path rest
                    (record_failure cFailedFiles (Join pf path nm) e st))
    /\ (forall path nm text size rm es l rest st,
           removeAll_of path (syscalls st) = None ->
           walkNames pf (walkFn pf c dirPath) path
             (prepare pf (walk pf (walkFn pf c dirPath)) path
                      (Entry nm None (Dir size (Some text) rm es) l) :: rest) st
           = walkNames pf (walkFn pf c dirPath) path rest
               (record_failure cFailedDirs (Join pf path nm)
                  (mkError OpOpen (Join pf path nm) text) st))
    /\ (forall t, exists st, runDirectory pf c dirPath t = Some st)
    /\ runDirectory linux (New 2 false) "/srv" (Present None locked_tree)
       = Some
           (mkState
              (mkCleanupResult 1 0 2048 1 0 2048 0 1 0 0 0
                 ["Walk error for /srv/locked: open /srv/locked: permission denied"])
              [LogDirectoryProcessing "/srv";
               LogError "/srv/locked"
                        (mkError OpOpen "/srv/locked" "permission denied");
               LogDeletion "/srv/scratch.tmp" 2048 false]
              [SysRemove "/srv/scratch.tmp" None]).
Proof.
  intros pf c dirPath. split; [|split; [|split; [|split]]].
  - intros. apply walkFn_error.
  - intros. apply walkNames_lstat_error.
  - intros. now apply walkNames_unreadable.
  - intros t. destruct (runDirectory_untouched pf c dirPath t) as (st & H & _).
    now exists st.
  - vm_compute. reflexivity.
Qed.

(** ** Dry run and real run *)

Section DryRun.

Variable pf : platform.
Variable dirPath : string.
Variable cd cr : Cleaner.
Hypothesis cd_dry : dryRun cd = true.
Hypothesis cr_real : dryRun cr = false.

Lemma policy_dir (path : string) (i : FileInfo) (a : answers) :
  IsDir i = true -> policy pf path i a = dir_eligible pf path.
Proof.
  intros Hd. unfold dir_eligible, policy, probe_ok. rewrite Hd. reflexivity.
Qed.

(** No removal was made on a directory that is the root or is not
    eligible. *)
Lemma removeAll_of_none (path : string) (scs : list syscall) :
  Forall (fun s => match s with
                   | SysRemoveAll p _ =>
                       String.eqb p dirPath = false /\ dir_eligible pf p = true
                   | SysRemove _ _ => True
                   end) scs ->
  String.eqb path dirPath = true \/ dir_eligible pf path = false ->
  removeAll_of path scs = None.
Proof.
  intros Hall Hpath. induction Hall as [|s l Hs _ IH]; [reflexivity|].
  simpl. rewrite IH. destruct s as [p o|p o]; [reflexivity|].
  destruct (String.eqb_spec p path) as [->|]; [|reflexivity].
  destruct Hs as [H1 H2]. destruct Hpath; congruence.
Qed.

Ltac run_walkFn :=
  unfold walkFn, deleteItem, bind, ret, lift, log, modify, sys, kind.

(** One visit keeps the two runs in agreement, provided the entry, if
    eligible, is removed without error. *)
Lemma walkFn_agree (path : string) (info : option FileInfo)
    (err : option oserror) (a : answers) (sd sr : state) :
  visit_ok info err -> agree pf dirPath sd sr ->
  match err, info with
  | None, Some i =>
      String.eqb path dirPath = false -> policy pf path i a = true ->
      ans_remove a = None
  | _, _ => True
  end ->
  exists sd' sr',
    walkFn pf cd dirPath path info err a sd = Some (returned err, sd')
    /\ walkFn pf cr dirPath path info err a sr = Some (returned err, sr')
    /\ agree pf dirPath sd' sr'.
Proof.
  intros Hv (Hres & Hsd & Hsr) Hrm.
  destruct sd as [rd evd scd], sr as [rr evr scr]. simpl in *. subst rr scd.
  run_walkFn. rewrite cd_dry, cr_real.
  destruct err as [e|].
  - simpl. eexists. eexists. split; [reflexivity|]. split; [reflexivity|].
    unfold agree. simpl. auto.
  - destruct (String.eqb path dirPath) eqn:Hroot.
    + eexists. eexists. split; [reflexivity|]. split; [reflexivity|].
      unfold agree. simpl. auto.
    + destruct info as [i|]; [|contradiction]. simpl.
      rewrite shouldDelete_policy.
      destruct (policy pf path i a) eqn:Hpol.
      * rewrite (Hrm eq_refl eq_refl).
        destruct (IsDir i) eqn:Hd; simpl;
          (eexists; eexists; split; [reflexivity|]; split; [reflexivity|]);
          unfold agree; simpl; (split; [reflexivity|]; split; [reflexivity|]);
          apply Forall_app; (split; [assumption|]);
          (constructor; [|constructor]); try exact I.
        split; [exact Hroot|]. now rewrite <- (policy_dir path i a Hd).
      * destruct (IsDir i); simpl;
          (eexists; eexists; split; [reflexivity|]; split; [reflexivity|]);
          unfold agree; simpl; auto.
Qed.

Lemma walkNames_agree (es : list entry) :
  Forall (entry_below (walks_agree pf dirPath cd cr)) es ->
  forall (path : string) (sd sr : state),
    String.eqb path dirPath = true \/ dir_eligible pf path = false ->
    forallb (fun e => match e with
                      | Entry nm ls h _ =>
                          match ls with
                          | Some _ => true
                          | None => clean_node pf dirPath (Join pf path nm) h
                          end
                      end) es = true ->
    agree pf dirPath sd sr ->
    exists sd' sr',
      walkNames pf (walkFn pf cd dirPath) path
        (map (prepare pf (walk pf (walkFn pf cd dirPath)) path) es) sd
      = Some (None, sd')
      /\ walkNames pf (walkFn pf cr dirPath) path
           (map (prepare pf (walk pf (walkFn pf cr dirPath)) path) es) sr
         = Some (None, sr')
      /\ agree pf dirPath sd' sr'.
Proof.
  induction 1 as [|e es He Hes IH]; intros path sd sr Hpath Hclean Hag.
  - simpl. unfold ret. now exists sd, sr.
  - destruct e as [nm ls h l]. destruct He as [Hh _].
    cbn [forallb] in Hclean. apply andb_prop in Hclean as [Hce Hces].
    cbn [map prepare walkNames ch_name].
    unfold bind at 1 4. unfold lstat_entry. cbn [ch_lstat ch_here ch_left ch_name].
    destruct Hag as (Hres & Hsd & Hsr).
    rewrite Hsd. cbn [removeAll_of].
    rewrite (removeAll_of_none path (syscalls sr) Hsr Hpath).
    assert (Hag : agree pf dirPath sd sr) by (unfold agree; auto).
    destruct ls as [text|].
    + destruct (walkFn_agree (Join pf path nm) None
                  (Some (mkError OpLstat (Join pf path nm) text)) no_answers
                  sd sr) as (sd1 & sr1 & Hd1 & Hr1 & Hag1);
        [reflexivity|exact Hag|exact I|].
      unfold bind. rewrite Hd1, Hr1. cbn [returned].
      apply IH; assumption.
    + destruct (Hh (Join pf path nm) sd sr Hce Hag)
        as (r & sd1 & sr1 & Hd1 & Hr1 & Hag1 & Hr).
      unfold bind. rewrite Hd1, Hr1.
      destruct Hr as [->|[-> Hdir]]; [|rewrite Hdir; cbn [negb]];
        apply IH; assumption.
Qed.

Lemma walk_agree (n : node) : walks_agree pf dirPath cd cr n.
Proof.
  induction n using node_induction; intros path sd sr Hclean Hag.
  - cbn [walk clean_node] in *.
    destruct (walkFn_agree path (Some (mkFileInfo false size)) None
                (mkAnswers o c r) sd sr) as (sd1 & sr1 & Hd1 & Hr1 & Hag1);
      [exact I|exact Hag| |].
    + intros Hroot Hpol. rewrite Hroot, Hpol in Hclean. simpl.
      destruct r; [discriminate|reflexivity].
    + exists None, sd1, sr1.
      split; [exact Hd1|]. split; [exact Hr1|]. split; [exact Hag1|]. now left.
  - cbn [walk clean_node] in *.
    destruct (walkFn_agree path (Some (mkFileInfo true size))
                (option_map (mkError OpOpen path) rd)
                (mkAnswers None None rm) sd sr)
      as (sd1 & sr1 & Hd1 & Hr1 & Hag1);
      [destruct rd; simpl; [split; [reflexivity|discriminate]|exact I]
      |exact Hag| |].
    + destruct rd as [text|]; [exact I|]. cbn [option_map ans_remove].
      intros Hroot Hpol.
      rewrite (policy_dir path (mkFileInfo true size) _ eq_refl) in Hpol.
      rewrite Hroot, Hpol in Hclean. simpl in Hclean.
      destruct rm; [discriminate|reflexivity].
    + unfold bind. rewrite Hd1, Hr1.
      destruct rd as [text|]; cbn [option_map returned].
      * exists (Some SkipDir), sd1, sr1. unfold ret.
        split; [reflexivity|]. split; [reflexivity|]. split; [exact Hag1|].
        right. split; reflexivity.
      * destruct (negb (String.eqb path dirPath) && dir_eligible pf path) eqn:Hel.
        -- apply andb_prop in Hclean as [_ Hes].
           destruct es as [|e es]; [|discriminate].
           exists None, sd1, sr1. simpl. unfold ret.
           split; [reflexivity|]. split; [reflexivity|]. split; [exact Hag1|].
           now left.
        -- destruct (walkNames_agree es H path sd1 sr1)
             as (sd2 & sr2 & Hd2 & Hr2 & Hag2); [|exact Hclean|exact Hag1|].
           ++ apply andb_false_iff in Hel as [Hel|Hel]; [left|right; exact Hel].
              now apply negb_false_iff in Hel.
           ++ exists None, sd2, sr2.
              split; [exact Hd2|]. split; [exact Hr2|]. split; [exact Hag2|].
              now left.
Qed.

(** On a tree where every eligible entry is removed without error and every
    eligible directory is empty, a dry run and a real run return the same
    result. *)
Lemma runDirectory_agree (t : target) :
  removals_clean pf dirPath t = true ->
  exists sd sr,
    runDirectory pf cd dirPath t = Some sd
    /\ runDirectory pf cr dirPath t = Some sr
    /\ result sd = result sr.
Proof.
  intros Hclean.
  set (st0 := mkState emptyResult [LogDirectoryProcessing dirPath] []).
  assert (Hag0 : agree pf dirPath st0 st0) by (unfold agree; simpl; auto).
  destruct t as [|[text|] n].
  - eexists. eexists. split; [reflexivity|]. split; reflexivity.
  - eexists. eexists. split; [reflexivity|]. split; reflexivity.
  - simpl in Hclean.
    destruct (walk_agree n dirPath st0 st0 Hclean Hag0)
      as (r & sd1 & sr1 & Hd1 & Hr1 & (Hres & _) & Hr).
    exists sd1, sr1. split; [|split; [|exact Hres]];
      apply runDirectory_Present; unfold Walk, bind; fold st0;
      [rewrite Hd1|rewrite Hr1]; destruct Hr as [->|[-> _]]; reflexivity.
Qed.

End DryRun.

(** C2, as stated, fails.  On [/var/tmp/build/out.o] the dry run counts the
    file, while the real run removes [build] and then fails to [lstat] the
    file whose name it had read; and a file whose removal fails is counted
    as deleted by the dry run and as failed by the real run. *)
Lemma dry_run_counterexample :
  (exists rd rr,
      dirResult linux (New 2 true) "/var/tmp" (Present None nested_tree) = Some rd
      /\ dirResult linux (New 2 false) "/var/tmp" (Present None nested_tree) = Some rr
      /\ TotalFiles rd = 1 /\ TotalFiles rr = 0
      /\ FailedFiles rd = 0 /\ FailedFiles rr = 1)
  /\ (exists rd rr,
         dirResult linux (New 2 true) "/tmp" (Present None busy_tree) = Some rd
         /\ dirResult linux (New 2 false) "/tmp" (Present None busy_tree) = Some rr
         /\ DeletedFiles rd = 1 /\ DeletedFiles rr = 0
         /\ FailedFiles rd = 0 /\ FailedFiles rr = 1).
Proof.
  split; eexists; eexists;
    (split; [vm_compute; reflexivity|]); (split; [vm_compute; reflexivity|]);
    repeat split; reflexivity.
Qed.

(** C2, amended. A dry run never removes anything, whatever the tree.  On a
    tree where every entry the walk finds eligible is removed without error
    and every eligible directory is empty, the dry run and the real run
    return the same partial result: every counter, both sizes and the error
    messages. *)
Theorem dry_run_faithful :
  forall (pf : platform) (w w' : Z) (dirPath : string) (t : target),
    (exists sd,
        runDirectory pf (mkCleaner w true) dirPath t = Some sd
        /\ syscalls sd = [])
    /\ (removals_clean pf dirPath t = true ->
        exists sd sr,
          runDirectory pf (mkCleaner w true) dirPath t = Some sd
          /\ runDirectory pf (mkCleaner w' false) dirPath t = Some sr
          /\ result sd = result sr).
Proof.
  intros pf w w' dirPath t. split.
  - destruct (runDirectory_untouched pf (mkCleaner w true) dirPath t)
      as (sd & Hrun & _ & Hdry).
    exists sd. split; [exact Hrun|]. now apply Hdry.
  - intros Hclean.
    exact (runDirectory_agree pf dirPath (mkCleaner w true) (mkCleaner w' false)
             eq_refl eq_refl t Hclean).
Qed.

(** The theorem at [/tmp], which holds an eligible file, a hidden file and
    an eligible empty directory. *)
Lemma dry_run_faithful_witness :
  removals_clean linux "/tmp" (Present None tmp_tree) = true
  /\ exists sd sr,
       runDirectory linux (mkCleaner 2 true) "/tmp" (Present None tmp_tree)
       = Some sd
       /\ runDirectory linux (mkCleaner 4 false) "/tmp" (Present None tmp_tree)
          = Some sr
       /\ result sd = result sr.
Proof.
  split; [vm_compute; reflexivity|].
  apply (proj2 (dry_run_faithful linux 2 4 "/tmp" (Present None tmp_tree))).
  vm_compute. reflexivity.
Defined.

(** ** A walk indexed by a cost *)

(** The invariant of [WalkInvariant], with a cost for each kind of visit, a
    condition on the sizes of the files, and a condition on the paths
    visited that holds of every path below one that satisfies it. *)
Section WalkCost.

Variable pf : platform.
Variable fn : WalkFunc.
Variable Q : string -> Prop.
Variable Inv : Z -> state -> Prop.
Variable bound : Z.
Variable p : Z -> bool.
Variable file_cost : Z -> Z.
Variable dir_cost err_cost : Z.

Hypothesis Q_Join : forall path name, Q path -> Q (Join pf path name).
Hypothesis Inv_mono : forall k k' st, Inv k st -> k <= k' -> Inv k' st.
Hypothesis err_cost_bounds : 0 <= err_cost <= dir_cost.
Hypothesis file_cost_bound : forall size, p size = true -> err_cost <= file_cost size.

Hypothesis step_file :
  forall path size a k st,
    Q path -> p size = true -> Inv k st -> k + file_cost size <= bound ->
    exists st',
      fn path (Some (mkFileInfo false size)) None a st = Some (None, st')
      /\ Inv (k + file_cost size) st'.

Hypothesis step_dir :
  forall path size rd a k st,
    Q path -> Inv k st -> k + dir_cost <= bound ->
    exists st',
      fn path (Some (mkFileInfo true size))
         (option_map (mkError OpOpen path) rd) a st
      = Some (returned (option_map (mkError OpOpen path) rd), st')
      /\ Inv (k + dir_cost) st'.

Hypothesis step_lstat :
  forall path text k st,
    Q path -> Inv k st -> k + err_cost <= bound ->
    exists st',
      fn path None (Some (mkError OpLstat path text)) no_answers st
      = Some (Some SkipDir, st')
      /\ Inv (k + err_cost) st'.

Lemma walk_cost_Dir (size : Z) (rd rm : outcome) (es : list entry) :
  walk_cost file_cost dir_cost (Dir size rd rm es)
  = dir_cost + entries_cost file_cost dir_cost es.
Proof. reflexivity. Qed.

Lemma files_all_Dir (size : Z) (rd rm : outcome) (es : list entry) :
  files_all p (Dir size rd rm es) = true ->
  Forall (fun e => match e with
                   | Entry _ _ h l =>
                       files_all p h = true
                       /\ match l with
                          | Some n' => files_all p n' = true
                          | None => True
                          end
                   end) es.
Proof.
  cbn [files_all]. rewrite forallb_forall, Forall_forall.
  intros H e He. specialize (H e He). destruct e as [nm ls h l].
  apply andb_true_iff in H. destruct H as [H1 H2]. split; [exact H1|].
  destruct l; [exact H2|exact I].
Qed.

Lemma walk_cost_lower (n : node) :
  files_all p n = true -> err_cost <= walk_cost file_cost dir_cost n.
Proof.
  induction n using node_induction; intros Hp.
  - cbn [walk_cost files_all] in *. now apply file_cost_bound.
  - apply files_all_Dir in Hp. rewrite walk_cost_Dir.
    enough (0 <= entries_cost file_cost dir_cost es) by lia.
    unfold entries_cost.
    induction H as [|e es He Hes IH]; cbn [map fold_right]; [lia|].
    inversion Hp as [|e' es' Hpe Hpes]; subst.
    specialize (IH Hpes).
    destruct e as [nm ls h l]. cbn [entry_cost entry_below] in *.
    destruct He as [Hh Hl]. destruct Hpe as [Hph Hpl].
    specialize (Hh Hph). destruct l as [n'|]; [specialize (Hl Hpl)|]; lia.
Qed.

Lemma entries_cost_nonneg (es : list entry) :
  Forall (fun e => match e with
                   | Entry _ _ h l =>
                       files_all p h = true
                       /\ match l with
                          | Some n' => files_all p n' = true
                          | None => True
                          end
                   end) es ->
  0 <= entries_cost file_cost dir_cost es.
Proof.
  unfold entries_cost.
  induction 1 as [|e es He Hes IH]; cbn [map fold_right]; [lia|].
  destruct e as [nm ls h l]. cbn [entry_cost]. destruct He as [Hh Hl].
  pose proof (walk_cost_lower h Hh).
  destruct l as [n'|]; [pose proof (walk_cost_lower n' Hl)|]; lia.
Qed.

Lemma walkNames_cost (es : list entry) :
  Forall (entry_below
            (walks_cost pf fn Q Inv bound p file_cost dir_cost)) es ->
  Forall (fun e => match e with
                   | Entry _ _ h l =>
                       files_all p h = true
                       /\ match l with
                          | Some n' => files_all p n' = true
                          | None => True
                          end
                   end) es ->
  forall (path : string) (k : Z) (st : state),
    (forall name, Q (Join pf path name)) ->
    Inv k st -> k + entries_cost file_cost dir_cost es <= bound ->
    exists st',
      walkNames pf fn path (map (prepare pf (walk pf fn) path) es) st
      = Some (None, st')
      /\ Inv (k + entries_cost file_cost dir_cost es) st'.
Proof.
  induction 1 as [|e es He Hes IH]; intros Hp path k st HQ Hacc Hk.
  - simpl. unfold ret. eexists. split; [reflexivity|].
    unfold entries_cost. simpl. now rewrite Z.add_0_r.
  - inversion Hp as [|e' es' Hpe Hpes]; subst.
    specialize (IH Hpes).
    pose proof (entries_cost_nonneg es Hpes) as Hes0.
    change (entries_cost file_cost dir_cost (e :: es))
      with (entry_cost file_cost dir_cost e + entries_cost file_cost dir_cost es)
      in *.
    destruct e as [nm ls h l]. destruct He as [Hh Hl]. destruct Hpe as [Hph Hpl].
    pose proof (walk_cost_lower h Hph) as Hh0.
    assert (Hl0 : 0 <= match l with
                       | Some n' => walk_cost file_cost dir_cost n'
                       | None => 0
                       end).
    { destruct l as [n'|]; [pose proof (walk_cost_lower n' Hpl)|]; lia. }
    set (rest := map (prepare pf (walk pf fn) path) es) in *.
    set (W := entry_cost file_cost dir_cost (Entry nm ls h l)) in *.
    assert (HW : W = walk_cost file_cost dir_cost h
                     + match l with
                       | Some n' => walk_cost file_cost dir_cost n'
                       | None => 0
                       end) by reflexivity.
    assert (Herr : forall text st0,
               Inv k st0 ->
               exists st',
                 (err1 <- fn (Join pf path nm) None
                             (Some (mkError OpLstat (Join pf path nm) text))
                             no_answers ;;
                  match err1 with
                  | Some (Failure e0) => ret (Some (Failure e0))
                  | _ => walkNames pf fn path rest
                  end) st0 = Some (None, st')
                 /\ Inv (k + (W + entries_cost file_cost dir_cost es)) st').
    { intros text st0 Hacc0.
      destruct (step_lstat (Join pf path nm) text k st0)
        as (st1 & Hrun & Hacc1); [apply HQ|exact Hacc0|lia|].
      unfold bind. rewrite Hrun.
      destruct (IH path (k + err_cost) st1) as (st2 & Hrun2 & Hacc2);
        [exact HQ|exact Hacc1|lia|].
      exists st2. split; [exact Hrun2|].
      eapply Inv_mono; [exact Hacc2|lia]. }
    assert (Hnode : forall n0 st0,
               walks_cost pf fn Q Inv bound p file_cost dir_cost n0 ->
               files_all p n0 = true ->
               walk_cost file_cost dir_cost n0 <= W ->
               Inv k st0 ->
               exists st',
                 (err1 <- walk pf fn (Join pf path nm) n0 ;;
                  match err1 with
                  | None => walkNames pf fn path rest
                  | Some SkipDir =>
                      if negb (IsDir (info_of n0)) then ret (Some SkipDir)
                      else walkNames pf fn path rest
                  | Some (Failure e0) => ret (Some (Failure e0))
                  end) st0 = Some (None, st')
                 /\ Inv (k + (W + entries_cost file_cost dir_cost es)) st').
    { intros n0 st0 Hn0 Hpn0 Hle Hacc0.
      destruct (Hn0 Hpn0 (Join pf path nm) k st0)
        as (r & st1 & Hrun & Hacc1 & Hr); [apply HQ|exact Hacc0|lia|].
      unfold bind. rewrite Hrun.
      destruct (IH path (k + walk_cost file_cost dir_cost n0) st1)
        as (st2 & Hrun2 & Hacc2); [exact HQ|exact Hacc1|lia|].
      exists st2. split.
      - destruct Hr as [->|[-> Hd]]; [exact Hrun2|]. rewrite Hd. exact Hrun2.
      - eapply Inv_mono; [exact Hacc2|lia]. }
    cbn [map prepare walkNames ch_name]. fold rest.
    unfold bind at 1. unfold lstat_entry. cbn [ch_lstat ch_here ch_left ch_name].
    destruct (removeAll_of path (syscalls st)) as [[txt|]|].
    + destruct ls as [t0|].
      * apply Herr; exact Hacc.
      * destruct l as [n'|].
        -- apply Hnode; [exact Hl|exact Hpl|lia|exact Hacc].
        -- apply Herr; exact Hacc.
    + apply Herr; exact Hacc.
    + destruct ls as [t0|].
      * apply Herr; exact Hacc.
      * apply Hnode; [exact Hh|exact Hph|lia|exact Hacc].
Qed.

Lemma walk_cost_within (n : node) :
  walks_cost pf fn Q Inv bound p file_cost dir_cost n.
Proof.
  induction n using node_induction; intros Hp path k st HQ Hacc Hk.
  - cbn [walk walk_cost files_all] in *.
    destruct (step_file path size (mkAnswers o c r) k st)
      as (st1 & Hrun & Hacc1); [exact HQ|exact Hp|exact Hacc|lia|].
    exists None, st1. split; [exact Hrun|]. split; [exact Hacc1|now left].
  - pose proof (files_all_Dir _ _ _ _ Hp) as Hpes.
    rewrite walk_cost_Dir in *.
    pose proof (entries_cost_nonneg es Hpes) as Hes0.
    cbn [walk].
    destruct (step_dir path size rd (mkAnswers None None rm) k st)
      as (st1 & Hrun & Hacc1); [exact HQ|exact Hacc|lia|].
    unfold bind. rewrite Hrun.
    destruct rd as [txt|]; cbn [option_map returned].
    + exists (Some SkipDir), st1. split; [reflexivity|].
      split; [eapply Inv_mono; [exact Hacc1|lia]|right; split; reflexivity].
    + destruct (walkNames_cost es H Hpes path (k + dir_cost) st1)
        as (st2 & Hrun2 & Hacc2);
        [intros name; now apply Q_Join|exact Hacc1|lia|].
      exists None, st2. split; [exact Hrun2|].
      split; [|now left]. eapply Inv_mono; [exact Hacc2|lia].
Qed.

(** [filepath.Walk] returns [nil]. *)
Lemma Walk_cost_within (root : string) (ls : outcome) (n : node) (k : Z)
    (st : state) :
  Q root -> files_all p n = true ->
  Inv k st -> k + walk_cost file_cost dir_cost n <= bound ->
  exists st',
    Walk pf fn root ls n st = Some (None, st')
    /\ Inv (k + walk_cost file_cost dir_cost n) st'.
Proof.
  intros HQ Hp Hacc Hk. pose proof (walk_cost_lower n Hp) as Hw. unfold Walk.
  destruct ls as [txt|].
  - destruct (step_lstat root txt k st)
      as (st1 & Hrun & Hacc1); [exact HQ|exact Hacc|lia|].
    unfold bind. rewrite Hrun. unfold ret.
    exists st1. split; [reflexivity|]. eapply Inv_mono; [exact Hacc1|lia].
  - destruct (walk_cost_within n Hp root k st) as (r & st1 & Hrun & Hacc1 & Hr);
      [exact HQ|exact Hacc|exact Hk|].
    unfold bind. rewrite Hrun. exists st1. split; [|exact Hacc1].
    destruct Hr as [->|[-> _]]; reflexivity.
Qed.

End WalkCost.

(** ** The books of a run *)

Lemma count_app {A : Type} (p : A -> bool) (l : list A) (a : A) :
  count p (l ++ [a]) = count p l + (if p a then 1 else 0).
Proof.
  unfold count. rewrite filter_app, length_app. simpl.
  destruct (p a); simpl; lia.
Qed.

Lemma count_nonneg {A : Type} (p : A -> bool) (l : list A) : 0 <= count p l.
Proof. unfold count. lia. Qed.

Lemma logged_bytes_app (evs : list event) (e : event) :
  logged_bytes (evs ++ [e])
  = match e with
    | LogDeletion _ size false => Int64.add (logged_bytes evs) size
    | _ => logged_bytes evs
    end.
Proof. unfold logged_bytes. rewrite fold_left_app. reflexivity. Qed.

Lemma length_snoc {A : Type} (l : list A) (a : A) :
  Z.of_nat (List.length (l ++ [a])) = Z.of_nat (List.length l) + 1.
Proof. rewrite length_app. simpl. lia. Qed.

Lemma ledger_mono (c : Cleaner) (k k' : Z) (st : state) :
  ledger c k st -> k <= k' -> ledger c k' st.
Proof.
  intros [] Hk. constructor; try assumption.
  unfold counts_within in *. lia.
Qed.

Section LedgerFacts.

Variable pf : platform.
Variable c : Cleaner.
Variable dirPath : string.

Ltac run_walkFn :=
  unfold walkFn, deleteItem, bind, ret, lift, log, modify, sys, kind.

Ltac books k :=
  cbn [result events syscalls AddInt64 appendErrors set get
       TotalFiles TotalDirs TotalSize DeletedFiles DeletedDirs DeletedSize
       FailedFiles FailedDirs SkippedFiles SkippedDirs ErrorMessages
       IsDir Size] in *;
  rewrite ?count_app, ?length_snoc, ?logged_bytes_app;
  cbn [is_error_of is_deletion is_notice is_skip is_start is_removal
       err_op Bool.eqb is_ok negb andb];
  rewrite ?(add_one _ k) by lia.

(** A visit under an error: one failure, one message, one call of
    [LogError]. *)
Lemma walkFn_ledger_error (path : string) (info : option FileInfo)
    (e : oserror) (a : answers) (k : Z) (st : state) :
  match info with
  | Some i => IsDir i = true /\ err_op e = OpOpen
  | None => err_op e = OpLstat
  end ->
  ledger c k st -> k + 1 <= Int64.max_int ->
  exists st',
    walkFn pf c dirPath path info (Some e) a st = Some (Some SkipDir, st')
    /\ ledger c (k + 1) st'.
Proof.
  intros Hv [Hc Hf Hd Hff Hfd Hsk Hm Hsh Hst Hlog Hreal Hdry] Hk.
  destruct st as [r evs scs].
  destruct r as [tf td ts df dd ds ff fd sf sd pt em].
  unfold counts_within in Hc. cbn [result events syscalls] in *.
  cbn [TotalFiles TotalDirs TotalSize DeletedFiles DeletedDirs DeletedSize
       FailedFiles FailedDirs SkippedFiles SkippedDirs ErrorMessages] in *.
  run_walkFn.
  assert (Hop : (exists i, info = Some i /\ IsDir i = true /\ err_op e = OpOpen)
                \/ (info = None /\ err_op e = OpLstat)).
  { destruct info as [i|]; [left; exists i; tauto|right; tauto]. }
  destruct Hop as [(i & -> & Hi & Hop)|[-> Hop]]; [rewrite Hi|];
    (eexists; split; [reflexivity|]);
    (constructor; unfold counts_within; books k; rewrite ?Hop;
     [lia|lia|lia|lia|lia|lia|lia
     |apply Forall_app; split; [exact Hsh|constructor; [reflexivity|constructor]]
     |lia|lia
     |intros Hr; specialize (Hreal Hr); lia
     |intros Hr; specialize (Hdry Hr); split; [tauto|lia]]).
Qed.

(** A visit without error. *)
Lemma walkFn_ledger_visit (path : string) (i : FileInfo) (a : answers)
    (k : Z) (st : state) :
  ledger c k st -> k + 1 <= Int64.max_int ->
  exists st',
    walkFn pf c dirPath path (Some i) None a st = Some (None, st')
    /\ ledger c (k + 1) st'.
Proof.
  intros [Hc Hf Hd Hff Hfd Hsk Hm Hsh Hst Hlog Hreal Hdry] Hk.
  destruct st as [r evs scs].
  destruct r as [tf td ts df dd ds ff fd sf sd pt em].
  unfold counts_within in Hc. cbn [result events syscalls] in *.
  cbn [TotalFiles TotalDirs TotalSize DeletedFiles DeletedDirs DeletedSize
       FailedFiles FailedDirs SkippedFiles SkippedDirs ErrorMessages] in *.
  run_walkFn.
  destruct (String.eqb path dirPath).
  - eexists. split; [reflexivity|].
    constructor; unfold counts_within; books k; try assumption; lia.
  - cbv beta iota. rewrite shouldDelete_policy.
    destruct i as [d sz]. cbn [IsDir Size].
    destruct d, (policy pf path _ a), (dryRun c) eqn:Hdr, (ans_remove a);
      cbn [option_map];
      (eexists; split; [reflexivity|]);
      (constructor; unfold counts_within; books k);
      try lia; try exact Hsh;
      try (apply Forall_app; split;
           [exact Hsh|constructor; [reflexivity|constructor]]);
      try (intros Hr; rewrite Hdr in Hr; try discriminate Hr;
           specialize (Hreal Hr);
           repeat split; try lia; try (f_equal; tauto); tauto);
      try (intros Hr; rewrite Hdr in Hr; try discriminate Hr;
           specialize (Hdry Hr); split; [tauto|lia]).
Qed.

(** The visit of a directory, read or not. *)
Lemma walkFn_ledger_dir (path : string) (size : Z) (rd : outcome)
    (a : answers) (k : Z) (st : state) :
  ledger c k st -> k + 1 <= Int64.max_int ->
  exists st',
    walkFn pf c dirPath path (Some (mkFileInfo true size))
           (option_map (mkError OpOpen path) rd) a st
    = Some (returned (option_map (mkError OpOpen path) rd), st')
    /\ ledger c (k + 1) st'.
Proof.
  intros H Hk. destruct rd as [text|]; cbn [option_map returned].
  - apply walkFn_ledger_error; [split; reflexivity|exact H|exact Hk].
  - now apply walkFn_ledger_visit.
Qed.

End LedgerFacts.

Lemma walk_cost_visits (n : node) : walk_cost (fun _ => 1) 1 n = weight n.
Proof.
  induction n using node_induction; [reflexivity|].
  cbn [walk_cost weight]. f_equal.
  induction H as [|e es He Hes IH]; cbn [map fold_right]; [reflexivity|].
  destruct e as [nm ls h l]. cbn [entry_below] in He. destruct He as [Hh Hl].
  rewrite Hh, IH. destruct l as [n'|]; [now rewrite Hl|reflexivity].
Qed.

Lemma files_all_true (n : node) : files_all (fun _ => true) n = true.
Proof.
  induction n using node_induction; [reflexivity|].
  cbn [files_all]. apply forallb_forall. intros e He.
  rewrite Forall_forall in H. specialize (H e He).
  destruct e as [nm ls h l]. destruct H as [Hh Hl].
  rewrite Hh. destruct l; [exact Hl|reflexivity].
Qed.

Lemma count_failure (evs : list event) :
  count is_failure evs
  = count (is_error_of OpLstat) evs + count (is_error_of OpOpen) evs
    + count (is_error_of OpRemove) evs + count (is_error_of OpRemoveAll) evs.
Proof.
  unfold count. induction evs as [|e evs IH]; [reflexivity|].
  cbn [filter].
  destruct e as [p s d|p err|p r|d|m]; cbn [is_failure is_error_of]; try exact IH.
  destruct (err_op err); cbn [List.length]; lia.
Qed.

Section LedgerRuns.

Variable pf : platform.
Variable c : Cleaner.
Variable dirPath : string.

(** The books of a run on an existing target are in order. *)
Lemma runDirectory_ledger (ls : outcome) (n : node) :
  weight n <= Int64.max_int ->
  exists st,
    runDirectory pf c dirPath (Present ls n) = Some st
    /\ ledger c (weight n) st.
Proof.
  intros Hw.
  destruct (Walk_cost_within pf (walkFn pf c dirPath) (fun _ => True)
              (ledger c) Int64.max_int
              (fun _ => true) (fun _ => 1) 1 1
              (fun _ _ _ => I)
              (ledger_mono c)
              ltac:(lia)
              (fun _ _ => Z.le_refl 1)
              (fun path size a k st _ _ H Hk =>
                 walkFn_ledger_visit pf c dirPath path (mkFileInfo false size)
                   a k st H Hk)
              (fun path size rd a k st _ H Hk =>
                 walkFn_ledger_dir pf c dirPath path size rd a k st H Hk)
              (fun path text k st _ H Hk =>
                 walkFn_ledger_error pf c dirPath path None
                   (mkError OpLstat path text) no_answers k st eq_refl H Hk)
              dirPath ls n 0
              (mkState emptyResult [LogDirectoryProcessing dirPath] []))
    as (st1 & Hrun & Hinv).
  - exact I.
  - apply files_all_true.
  - constructor; unfold counts_within; cbn; try lia;
      try (intros _; repeat split; reflexivity); constructor.
  - rewrite walk_cost_visits. lia.
  - rewrite walk_cost_visits in Hinv.
    exists st1. split; [now apply runDirectory_Present|exact Hinv].
Qed.

End LedgerRuns.

(** The books of a run on any target are in order, the start notice
    apart. *)
Lemma runDirectory_books (pf : platform) (c : Cleaner) (dirPath : string)
    (t : target) :
  target_weight t <= Int64.max_int ->
  exists st,
    runDirectory pf c dirPath t = Some st
    /\ match t with
       | Absent =>
           st = mkState (mkCleanupResult 0 0 0 0 0 0 0 0 0 1 0 [])
                        [LogSkipped dirPath "directory does not exist"] []
       | Present _ n => ledger c (weight n) st
       end.
Proof.
  intros Hw. destruct t as [|ls n].
  - eexists. split; reflexivity.
  - now apply runDirectory_ledger.
Qed.

(** X1. Barring int64 overflow, the directory counters of a partial result
    add up: [DeletedDirs + FailedDirs + SkippedDirs] is [TotalDirs] plus
    the number of directories that could not be read (each is recorded
    under [FailedDirs] before it could be counted in [TotalDirs]), plus one
    when the target itself does not exist (it is recorded under
    [SkippedDirs], and nothing is counted). *)
Theorem directories_accounted_for :
  forall (pf : platform) (c : Cleaner) (dirPath : string) (t : target),
    target_weight t <= Int64.max_int ->
    exists st,
      runDirectory pf c dirPath t = Some st
      /\ DeletedDirs (result st) + FailedDirs (result st)
         + SkippedDirs (result st)
         = TotalDirs (result st) + count (is_error_of OpOpen) (events st)
           + missing t.
Proof.
  intros pf c dirPath t Hw.
  destruct (runDirectory_books pf c dirPath t Hw) as (st & Hrun & Hst).
  exists st. split; [exact Hrun|].
  destruct t as [|ls n]; [subst st; reflexivity|].
  destruct Hst. cbn [missing]. lia.
Qed.

(** The theorem at a tree with a directory that cannot be read. *)
Lemma directories_accounted_for_witness :
  exists st,
    runDirectory linux (New 4 false) "/srv" (Present None locked_tree) = Some st
    /\ DeletedDirs (result st) + FailedDirs (result st)
       + SkippedDirs (result st)
       = TotalDirs (result st) + count (is_error_of OpOpen) (events st)
         + missing (Present None locked_tree).
Proof.
  apply (directories_accounted_for linux (New 4 false) "/srv"
           (Present None locked_tree)).
  vm_compute. discriminate.
Defined.

(** X2. Barring int64 overflow, a partial result holds exactly one error
    message per failure, and the logger got exactly one [LogError] per
    failure: the length of [ErrorMessages] and the number of [LogError]
    calls both equal [FailedFiles + FailedDirs].  Every message starts with
    [Walk error for ] or [Delete error for ]: [filepath.Walk] never returns
    an error to [cleanDirectory], whose [Directory walk error] branch is
    never taken. *)
Theorem messages_match_failures :
  forall (pf : platform) (c : Cleaner) (dirPath : string) (t : target),
    target_weight t <= Int64.max_int ->
    exists st,
      runDirectory pf c dirPath t = Some st
      /\ Z.of_nat (List.length (ErrorMessages (result st)))
         = FailedFiles (result st) + FailedDirs (result st)
      /\ count is_failure (events st)
         = FailedFiles (result st) + FailedDirs (result st)
      /\ Forall (fun m => walk_message m = true) (ErrorMessages (result st)).
Proof.
  intros pf c dirPath t Hw.
  destruct (runDirectory_books pf c dirPath t Hw) as (st & Hrun & Hst).
  exists st. split; [exact Hrun|].
  destruct t as [|ls n].
  - subst st. split; [reflexivity|]. split; [reflexivity|constructor].
  - destruct Hst. rewrite count_failure.
    split; [assumption|]. split; [lia|assumption].
Qed.

(** The theorem at a tree with a file that cannot be removed. *)
Lemma messages_match_failures_witness :
  exists st,
    runDirectory linux (New 4 false) "/srv" (Present None busy_tree) = Some st
    /\ Z.of_nat (List.length (ErrorMessages (result st)))
       = FailedFiles (result st) + FailedDirs (result st)
    /\ count is_failure (events st)
       = FailedFiles (result st) + FailedDirs (result st)
    /\ Forall (fun m => walk_message m = true) (ErrorMessages (result st)).
Proof.
  apply (messages_match_failures linux (New 4 false) "/srv"
           (Present None busy_tree)).
  vm_compute. discriminate.
Defined.

(** X3. Barring int64 overflow, the log of a run is complete and has
    nothing else: one [LogDirectoryProcessing] for a target that exists
    (none for a missing one), then exactly one call per outcome counted, so
    that the number of calls is that of the deletions, failures and skips
    of files and directories, plus the start notice; the [LogSkipped] calls
    are as many as [SkippedFiles + SkippedDirs]. *)
Theorem log_complete :
  forall (pf : platform) (c : Cleaner) (dirPath : string) (t : target),
    target_weight t <= Int64.max_int ->
    exists st,
      runDirectory pf c dirPath t = Some st
      /\ count is_start (events st) = 1 - missing t
      /\ count is_skip (events st)
         = SkippedFiles (result st) + SkippedDirs (result st)
      /\ Z.of_nat (List.length (events st))
         = (1 - missing t)
           + (DeletedFiles (result st) + FailedFiles (result st)
              + SkippedFiles (result st))
           + (DeletedDirs (result st) + FailedDirs (result st)
              + SkippedDirs (result st)).
Proof.
  intros pf c dirPath t Hw.
  destruct (runDirectory_books pf c dirPath t Hw) as (st & Hrun & Hst).
  exists st. split; [exact Hrun|].
  destruct t as [|ls n].
  - subst st. repeat split; reflexivity.
  - destruct Hst. cbn [missing]. repeat split; lia.
Qed.

(** The theorem at a dry run over the tree of [/tmp]. *)
Lemma log_complete_witness :
  exists st,
    runDirectory linux (New 4 true) "/tmp" (Present None tmp_tree) = Some st
    /\ count is_start (events st) = 1 - missing (Present None tmp_tree)
    /\ count is_skip (events st)
       = SkippedFiles (result st) + SkippedDirs (result st)
    /\ Z.of_nat (List.length (events st))
       = (1 - missing (Present None tmp_tree))
         + (DeletedFiles (result st) + FailedFiles (result st)
            + SkippedFiles (result st))
         + (DeletedDirs (result st) + FailedDirs (result st)
            + SkippedDirs (result st)).
Proof.
  apply (log_complete linux (New 4 true) "/tmp" (Present None tmp_tree)).
  vm_compute. discriminate.
Defined.

(** X4. Barring int64 overflow, the report of a real run matches what was
    done to the filesystem: [DeletedFiles] is the number of [os.Remove]
    calls that succeeded and [DeletedDirs] that of the [os.RemoveAll] calls
    that succeeded; the failures are the failed [lstat]s and unreadable
    directories plus the removals that failed; each deletion counted was
    logged by one [LogDeletion] of its kind, [DeletedSize] is the int64 sum
    of the sizes logged for files, and no dry-run notice is written. *)
Theorem real_run_books :
  forall (pf : platform) (c : Cleaner) (dirPath : string) (t : target),
    dryRun c = false ->
    target_weight t <= Int64.max_int ->
    exists st,
      runDirectory pf c dirPath t = Some st
      /\ DeletedFiles (result st) = count (is_removal false true) (syscalls st)
      /\ DeletedDirs (result st) = count (is_removal true true) (syscalls st)
      /\ FailedFiles (result st)
         = count (is_error_of OpLstat) (events st)
           + count (is_removal false false) (syscalls st)
      /\ FailedDirs (result st)
         = count (is_error_of OpOpen) (events st)
           + count (is_removal true false) (syscalls st)
      /\ count (is_deletion false) (events st) = DeletedFiles (result st)
      /\ count (is_deletion true) (events st) = DeletedDirs (result st)
      /\ logged_bytes (events st) = DeletedSize (result st)
      /\ count is_notice (events st) = 0.
Proof.
  intros pf c dirPath t Hreal Hw.
  destruct (runDirectory_books pf c dirPath t Hw) as (st & Hrun & Hst).
  exists st. split; [exact Hrun|].
  destruct t as [|ls n].
  - subst st. repeat split; reflexivity.
  - destruct Hst as [_ _ _ Hff Hfd _ _ _ _ _ Hr _]. specialize (Hr Hreal).
    destruct Hr as (H1 & H2 & H3 & H4 & H5 & H6 & H7 & H8).
    repeat split; lia.
Qed.

(** The theorem at a real run over a tree with a file that cannot be
    removed. *)
Lemma real_run_books_witness :
  exists st,
    runDirectory linux (New 4 false) "/srv" (Present None busy_tree) = Some st
    /\ DeletedFiles (result st) = count (is_removal false true) (syscalls st)
    /\ DeletedDirs (result st) = count (is_removal true true) (syscalls st)
    /\ FailedFiles (result st)
       = count (is_error_of OpLstat) (events st)
         + count (is_removal false false) (syscalls st)
    /\ FailedDirs (result st)
       = count (is_error_of OpOpen) (events st)
         + count (is_removal true false) (syscalls st)
    /\ count (is_deletion false) (events st) = DeletedFiles (result st)
    /\ count (is_deletion true) (events st) = DeletedDirs (result st)
    /\ logged_bytes (events st) = DeletedSize (result st)
    /\ count is_notice (events st) = 0.
Proof.
  apply (real_run_books linux (New 4 false) "/srv" (Present None busy_tree)).
  - reflexivity.
  - vm_compute. discriminate.
Defined.

(** X5. Barring int64 overflow, in a dry run the only failures are those
    of the traversal ([FailedFiles] is the number of failed [lstat]s,
    [FailedDirs] the number of unreadable directories), every file counted
    is reported as deleted or skipped ([DeletedFiles + SkippedFiles =
    TotalFiles]), and so is every directory (a missing target being one
    more skipped directory); each simulated deletion writes one notice, and
    [LogDeletion] is never called. *)
Theorem dry_run_books :
  forall (pf : platform) (c : Cleaner) (dirPath : string) (t : target),
    dryRun c = true ->
    target_weight t <= Int64.max_int ->
    exists st,
      runDirectory pf c dirPath t = Some st
      /\ FailedFiles (result st) = count (is_error_of OpLstat) (events st)
      /\ FailedDirs (result st) = count (is_error_of OpOpen) (events st)
      /\ DeletedFiles (result st) + SkippedFiles (result st)
         = TotalFiles (result st)
      /\ DeletedDirs (result st) + SkippedDirs (result st)
         = TotalDirs (result st) + missing t
      /\ count is_notice (events st)
         = DeletedFiles (result st) + DeletedDirs (result st)
      /\ count (is_deletion false) (events st)
         + count (is_deletion true) (events st) = 0.
Proof.
  intros pf c dirPath t Hdry Hw.
  destruct (runDirectory_books pf c dirPath t Hw) as (st & Hrun & Hst).
  exists st. split; [exact Hrun|].
  destruct t as [|ls n].
  - subst st. repeat split; reflexivity.
  - destruct Hst as [_ Hf Hd Hff Hfd _ _ _ _ _ _ Hr]. specialize (Hr Hdry).
    destruct Hr as (H1 & H2 & H3 & H4 & H5 & H6).
    cbn [missing]. repeat split; lia.
Qed.

(** The theorem at a dry run over a tree with a directory that cannot be
    read. *)
Lemma dry_run_books_witness :
  exists st,
    runDirectory linux (New 4 true) "/srv" (Present None locked_tree) = Some st
    /\ FailedFiles (result st) = count (is_error_of OpLstat) (events st)
    /\ FailedDirs (result st) = count (is_error_of OpOpen) (events st)
    /\ DeletedFiles (result st) + SkippedFiles (result st)
       = TotalFiles (result st)
    /\ DeletedDirs (result st) + SkippedDirs (result st)
       = TotalDirs (result st) + missing (Present None locked_tree)
    /\ count is_notice (events st)
       = DeletedFiles (result st) + DeletedDirs (result st)
    /\ count (is_deletion false) (events st)
       + count (is_deletion true) (events st) = 0.
Proof.
  apply (dry_run_books linux (New 4 true) "/srv" (Present None locked_tree)).
  - reflexivity.
  - vm_compute. discriminate.
Defined.

(** ** The books of [CleanDirectories] *)









(** ** What is removed *)

Section PolicySafety.

Variable pf : platform.
Variable c : Cleaner.
Variable dirPath : string.

Ltac run_walkFn :=
  unfold walkFn, deleteItem, bind, ret, lift, log, modify, sys, kind.

Lemma walkFn_allowed (path : string) (info : option FileInfo)
    (err : option oserror) (a : answers) (st : state) :
  visit_ok info err ->
  removals_allowed pf dirPath st ->
  exists st',
    walkFn pf c dirPath path info err a st = Some (returned err, st')
    /\ removals_allowed pf dirPath st'.
Proof.
  intros Hv [Hs He]. destruct st as [r evs scs]. cbn [syscalls events] in *.
  run_walkFn.
  destruct err as [e|].
  - cbn. eexists. split; [reflexivity|]. split; [exact Hs|].
    apply Forall_app. split; [exact He|]. repeat constructor.
  - destruct (String.eqb path dirPath) eqn:Hroot.
    + eexists. split; [reflexivity|]. split; assumption.
    + destruct info as [i|]; [|contradiction]. cbv beta iota.
      rewrite shouldDelete_policy.
      destruct (policy pf path i a) eqn:Hpol.
      * assert (Hrem : removable pf dirPath path = true).
        { unfold removable. rewrite Hroot. unfold policy in Hpol.
          apply andb_true_iff in Hpol. destruct Hpol as [Hpol _].
          exact Hpol. }
        destruct (IsDir i), (dryRun c), (ans_remove a); cbn;
          (eexists; split; [reflexivity|]); (split; cbn [syscalls events]);
          try assumption;
          try (apply Forall_app; split; [assumption|]; repeat constructor;
               exact Hrem).
      * destruct (IsDir i); cbn;
          (eexists; split; [reflexivity|]); (split; cbn [syscalls events]);
          try assumption;
          apply Forall_app; split; [assumption| |assumption|];
          repeat constructor.
Qed.

Lemma runDirectory_allowed (t : target) :
  exists st,
    runDirectory pf c dirPath t = Some st /\ removals_allowed pf dirPath st.
Proof.
  destruct t as [|ls n].
  - eexists. split; [reflexivity|]. split; repeat constructor.
  - destruct (Walk_within pf (walkFn pf c dirPath)
                (fun _ st => removals_allowed pf dirPath st)
                (weight n)
                (fun k k' st H _ => H)
                (fun path info err a k st Hv H _ =>
                   walkFn_allowed path info err a st Hv H)
                dirPath ls n 0
                (mkState emptyResult [LogDirectoryProcessing dirPath] []))
      as (st1 & Hrun & Hinv).
    + split; repeat constructor.
    + lia.
    + exists st1. split; [now apply runDirectory_Present|exact Hinv].
Qed.

End PolicySafety.

(** X6. Whatever the tree, every [os.Remove] and [os.RemoveAll] that
    [cleanDirectory] calls, failed ones included, and every deletion it
    logs, is of a path other than the target itself whose base name is
    neither hidden (a leading dot, outside Windows) nor one of the
    protected names (on Windows). *)
Theorem removals_respect_policy :
  forall (pf : platform) (c : Cleaner) (dirPath : string) (t : target),
    exists st,
      runDirectory pf c dirPath t = Some st
      /\ (forall s, In s (syscalls st) ->
            syscall_path s <> dirPath
            /\ hidden pf (Base pf (syscall_path s)) = false
            /\ protected pf (Base pf (syscall_path s)) = false)
      /\ (forall p size isDir, In (LogDeletion p size isDir) (events st) ->
            p <> dirPath
            /\ hidden pf (Base pf p) = false
            /\ protected pf (Base pf p) = false).
Proof.
  intros pf c dirPath t.
  destruct (runDirectory_allowed pf c dirPath t) as (st & Hrun & Hs & He).
  assert (Hrem : forall p, removable pf dirPath p = true ->
                           p <> dirPath
                           /\ hidden pf (Base pf p) = false
                           /\ protected pf (Base pf p) = false).
  { intros p H. unfold removable in H.
    apply andb_true_iff in H. destruct H as [H H3].
    apply andb_true_iff in H. destruct H as [H1 H2].
    apply negb_true_iff in H1, H2, H3.
    split; [now apply String.eqb_neq|]. split; assumption. }
  exists st. split; [exact Hrun|]. rewrite Forall_forall in Hs, He. split.
  - intros s Hin. apply Hrem, Hs, Hin.
  - intros p size isDir Hin. apply Hrem. exact (He _ Hin).
Qed.

(** ** The sizes recorded *)

Section Sizes.

Variable pf : platform.
Variable c : Cleaner.
Variable dirPath : string.

Ltac run_walkFn :=
  unfold walkFn, deleteItem, bind, ret, lift, log, modify, sys, kind.

Lemma sizes_within_mono (k k' : Z) (st : state) :
  sizes_within k st -> k <= k' -> sizes_within k' st.
Proof. unfold sizes_within. lia. Qed.

Lemma add_size (x s k : Z) :
  0 <= x <= k -> 0 <= s -> k + s <= Int64.max_int -> Int64.add x s = x + s.
Proof.
  intros H1 H2 H3. apply Int64Facts.add_small.
  unfold Int64.in_range, Int64.min_int, Int64.max_int in *. lia.
Qed.

Lemma walkFn_sizes_file (path : string) (size : Z) (a : answers) (k : Z)
    (st : state) :
  (0 <=? size) = true ->
  sizes_within k st -> k + size <= Int64.max_int ->
  exists st',
    walkFn pf c dirPath path (Some (mkFileInfo false size)) None a st
    = Some (None, st')
    /\ sizes_within (k + size) st'.
Proof.
  intros Hsz [Hd Ht] Hk. apply Z.leb_le in Hsz.
  destruct st as [r evs scs].
  destruct r as [tf td ts df dd ds ff fd sf sd pt em].
  cbn [result TotalSize DeletedSize] in *.
  run_walkFn.
  destruct (String.eqb path dirPath).
  - eexists. split; [reflexivity|]. unfold sizes_within. cbn. lia.
  - cbv beta iota. rewrite shouldDelete_policy. cbn [IsDir Size].
    destruct (policy pf path _ a), (dryRun c), (ans_remove a); cbn;
      (eexists; split; [reflexivity|]); unfold sizes_within; cbn;
      rewrite ?(add_size _ size k) by lia; lia.
Qed.

Lemma walkFn_sizes_other (path : string) (info : option FileInfo)
    (err : option oserror) (a : answers) (k : Z) (st : state) :
  match err, info with
  | None, Some i => IsDir i = true
  | None, None => False
  | Some _, _ => True
  end ->
  sizes_within k st ->
  exists st',
    walkFn pf c dirPath path info err a st = Some (returned err, st')
    /\ sizes_within k st'.
Proof.
  intros Hv [Hd Ht].
  destruct st as [r evs scs].
  destruct r as [tf td ts df dd ds ff fd sf sd pt em].
  cbn [result TotalSize DeletedSize] in *.
  run_walkFn.
  destruct err as [e|].
  - destruct info as [i|]; [destruct (IsDir i)|]; cbn;
      (eexists; split; [reflexivity|]); unfold sizes_within; cbn; lia.
  - destruct info as [i|]; [|contradiction].
    destruct (String.eqb path dirPath).
    + eexists. split; [reflexivity|]. unfold sizes_within. cbn. lia.
    + cbv beta iota. rewrite shouldDelete_policy. rewrite Hv.
      destruct (policy pf path i a), (dryRun c), (ans_remove a); cbn;
        (eexists; split; [reflexivity|]); unfold sizes_within; cbn; lia.
Qed.

Lemma walkFn_sizes_dir (path : string) (size : Z) (rd : outcome)
    (a : answers) (k : Z) (st : state) :
  sizes_within k st ->
  exists st',
    walkFn pf c dirPath path (Some (mkFileInfo true size))
           (option_map (mkError OpOpen path) rd) a st
    = Some (returned (option_map (mkError OpOpen path) rd), st')
    /\ sizes_within (k + 0) st'.
Proof.
  intros H. rewrite Z.add_0_r. apply walkFn_sizes_other; [|exact H].
  destruct rd; cbn; [exact I|reflexivity].
Qed.

Lemma walkFn_sizes_lstat (path text : string) (k : Z) (st : state) :
  sizes_within k st ->
  exists st',
    walkFn pf c dirPath path None (Some (mkError OpLstat path text))
           no_answers st
    = Some (Some SkipDir, st')
    /\ sizes_within (k + 0) st'.
Proof.
  intros H. rewrite Z.add_0_r.
  exact (walkFn_sizes_other path None (Some (mkError OpLstat path text))
           no_answers k st I H).
Qed.

Lemma runDirectory_sizes (ls : outcome) (n : node) :
  sizes_nonneg n = true ->
  bytes_of n <= Int64.max_int ->
  exists st,
    runDirectory pf c dirPath (Present ls n) = Some st
    /\ sizes_within (bytes_of n) st.
Proof.
  intros Hnn Hw.
  destruct (Walk_cost_within pf (walkFn pf c dirPath) (fun _ => True)
              sizes_within
              Int64.max_int (fun s => 0 <=? s) (fun s => s) 0 0
              (fun _ _ _ => I)
              sizes_within_mono
              ltac:(lia)
              (fun size H => proj1 (Z.leb_le 0 size) H)
              (fun path size a k st _ Hs H Hk =>
                 walkFn_sizes_file path size a k st Hs H Hk)
              (fun path size rd a k st _ H _ =>
                 walkFn_sizes_dir path size rd a k st H)
              (fun path text k st _ H _ =>
                 walkFn_sizes_lstat path text k st H)
              dirPath ls n 0
              (mkState emptyResult [LogDirectoryProcessing dirPath] []))
    as (st1 & Hrun & Hinv).
  - exact I.
  - exact Hnn.
  - unfold sizes_within. cbn. lia.
  - exact Hw.
  - exists st1. split; [now apply runDirectory_Present|exact Hinv].
Qed.

End Sizes.

(** X7. When no file has a negative size and the sizes of the files of the
    tree add up to less than 2^63, the sizes of a partial result are in
    order: [0 <= DeletedSize <= TotalSize], and [TotalSize] is at most the
    bytes of the files of the tree. *)
Theorem sizes_bounded :
  forall (pf : platform) (c : Cleaner) (dirPath : string)
         (ls : outcome) (n : node),
    sizes_nonneg n = true ->
    bytes_of n <= Int64.max_int ->
    exists st,
      runDirectory pf c dirPath (Present ls n) = Some st
      /\ 0 <= DeletedSize (result st) <= TotalSize (result st)
      /\ TotalSize (result st) <= bytes_of n.
Proof.
  intros pf c dirPath ls n Hnn Hw.
  destruct (runDirectory_sizes pf c dirPath ls n Hnn Hw) as (st & Hrun & H).
  exists st. split; [exact Hrun|exact H].
Qed.

(** The theorem at the tree of [/tmp]. *)
Lemma sizes_bounded_witness :
  exists st,
    runDirectory linux (New 4 false) "/tmp" (Present None tmp_tree) = Some st
    /\ 0 <= DeletedSize (result st) <= TotalSize (result st)
    /\ TotalSize (result st) <= bytes_of tmp_tree.
Proof.
  apply (sizes_bounded linux (New 4 false) "/tmp" None tmp_tree).
  - reflexivity.
  - vm_compute. discriminate.
Defined.

(** ** More on [mergeResults] *)

Lemma merged_assoc (a b c : CleanupResult) :
  merged (merged a b) c = merged a (merged b c).
Proof.
  unfold merged. cbn.
  rewrite !Int64Facts.add_assoc, app_assoc. reflexivity.
Qed.

(** [mergeResults] of an object into itself. *)
Lemma mergeResults_same (p : loc) (h : heap) (r : CleanupResult) :
  h p = Some r ->
  exists h',
    mergeResults p p h = Some (tt, h')
    /\ forall q, h' q = store p (merged r r) h q.
Proof.
  intros Hp.
  unfold mergeResults, bind, load, update, store.
  repeat (cbv beta; rewrite ?Nat.eqb_refl, ?Hp).
  eexists. split; [reflexivity|].
  intros q. cbv beta. destruct (Nat.eqb q p); [|reflexivity].
  destruct r. reflexivity.
Qed.

(** X13. [mergeResults] of an object into itself ([target] and [source]
    the same pointer) returns without panic and doubles the object: each
    statement reads its field of the very object it updates, so that every
    counter becomes twice its value (in int64 arithmetic) and the messages
    are appended to themselves; [ProcessingTime] and every other object are
    left alone. *)
Theorem mergeResults_self :
  forall (h : heap) (p : loc) (r : CleanupResult),
    h p = Some r ->
    exists h' r',
      mergeResults p p h = Some (tt, h')
      /\ h' p = Some r'
      /\ (forall f, get f r' = Int64.add (get f r) (get f r))
      /\ ErrorMessages r' = (ErrorMessages r ++ ErrorMessages r)%list
      /\ ProcessingTime r' = ProcessingTime r
      /\ (forall q, q <> p -> h' q = h q).
Proof.
  intros h p r Hp.
  destruct (mergeResults_same p h r Hp) as (h' & Hm & Hh').
  exists h', (merged r r). split; [exact Hm|].
  split; [rewrite Hh'; apply store_same|].
  split; [intros f; destruct f; reflexivity|].
  split; [reflexivity|]. split; [reflexivity|].
  intros q Hq. rewrite Hh'. now apply store_other.
Qed.

(** The theorem at a heap of one object. *)
Lemma mergeResults_self_witness :
  let r := mkCleanupResult 3 1 300 2 1 200 1 0 0 0 7 ["a"] in
  let h := store 0%nat r (fun _ => None) in
  exists h' r',
    mergeResults 0%nat 0%nat h = Some (tt, h')
    /\ h' 0%nat = Some r'
    /\ (forall f, get f r' = Int64.add (get f r) (get f r))
    /\ ErrorMessages r' = (ErrorMessages r ++ ErrorMessages r)%list
    /\ ProcessingTime r' = ProcessingTime r
    /\ (forall q, q <> 0%nat -> h' q = h q).
Proof.
  intros r h. apply (mergeResults_self h 0%nat r). reflexivity.
Defined.

(** X14. [mergeResults] panics exactly when [target] or [source] is a nil
    (or dangling) pointer; it returns in every other case, aliased or
    not. *)
Theorem mergeResults_panics :
  forall (h : heap) (target source : loc),
    mergeResults target source h = None
    <-> (h target = None \/ h source = None).
Proof.
  intros h target source. split.
  - intros Hnone.
    destruct (h target) as [t|] eqn:Ht; [|now left].
    destruct (h source) as [s|] eqn:Hs; [|now right].
    exfalso.
    destruct (Nat.eq_dec target source) as [Heq|Hne].
    + subst source.
      destruct (mergeResults_same target h t Ht) as (h' & Hm & _). congruence.
    + destruct (mergeResults_distinct target source h t s Hne Ht Hs)
        as (h' & Hm & _). congruence.
  - intros [Ht|Hs].
    + unfold mergeResults, bind, load, update.
      destruct (h source); [|reflexivity]. now rewrite Ht.
    + unfold mergeResults, bind, load. now rewrite Hs.
Qed.

(** X15. Merging is associative on the heap: for three distinct objects,
    merging [s1] and then [s2] into [target] leaves [target] as merging
    [s2] into [s1] first and the sum into [target] does, every counter and
    the order of the messages included. *)
Theorem mergeResults_batches :
  forall (h : heap) (target s1 s2 : loc) (t r1 r2 : CleanupResult),
    target <> s1 -> target <> s2 -> s1 <> s2 ->
    h target = Some t -> h s1 = Some r1 -> h s2 = Some r2 ->
    exists h1 h2,
      (mergeResults target s1 ;;; mergeResults target s2) h = Some (tt, h1)
      /\ (mergeResults s1 s2 ;;; mergeResults target s1) h = Some (tt, h2)
      /\ h1 target = h2 target
      /\ h1 target = Some (merged (merged t r1) r2).
Proof.
  intros h target s1 s2 t r1 r2 H1 H2 H12 Ht Hs1 Hs2.
  destruct (mergeResults_distinct target s1 h t r1 H1 Ht Hs1) as (ha & Ha & Hha).
  destruct (mergeResults_distinct target s2 ha (merged t r1) r2 H2)
    as (hb & Hb & Hhb).
  { rewrite Hha. apply store_same. }
  { rewrite Hha, store_other by congruence. exact Hs2. }
  destruct (mergeResults_distinct s1 s2 h r1 r2 H12 Hs1 Hs2) as (hc & Hc & Hhc).
  destruct (mergeResults_distinct target s1 hc t (merged r1 r2) H1)
    as (hd & Hd & Hhd).
  { rewrite Hhc, store_other by congruence. exact Ht. }
  { rewrite Hhc. apply store_same. }
  exists hb, hd. unfold bind. rewrite Ha, Hb, Hc, Hd.
  split; [reflexivity|]. split; [reflexivity|].
  rewrite Hhb, Hhd, !store_same. rewrite merged_assoc. split; reflexivity.
Qed.

(** The theorem at a heap of three objects. *)
Lemma mergeResults_batches_witness :
  let t := mkCleanupResult 3 1 300 2 1 200 1 0 0 0 7 ["a"] in
  let r1 := mkCleanupResult 5 2 500 4 0 400 0 1 1 1 9 ["b"; "c"] in
  let r2 := mkCleanupResult 1 1 10 0 0 0 1 1 0 0 2 ["d"] in
  let h := store 0%nat t (store 1%nat r1 (store 2%nat r2 (fun _ => None))) in
  exists h1 h2,
    (mergeResults 0%nat 1%nat ;;; mergeResults 0%nat 2%nat) h = Some (tt, h1)
    /\ (mergeResults 1%nat 2%nat ;;; mergeResults 0%nat 1%nat) h = Some (tt, h2)
    /\ h1 0%nat = h2 0%nat
    /\ h1 0%nat = Some (merged (merged t r1) r2).
Proof.
  intros t r1 r2 h.
  apply (mergeResults_batches h 0%nat 1%nat 2%nat t r1 r2);
    (discriminate || reflexivity).
Defined.

(** ** More on [CleanDirectories] *)

Lemma ProcessingTime_fold_merged (rs : list CleanupResult) :
  forall acc, ProcessingTime (fold_left merged rs acc) = ProcessingTime acc.
Proof.
  induction rs as [|r rs IH]; intros acc; cbn [fold_left]; [reflexivity|].
  now rewrite IH.
Qed.




(** X11. With no directory to clean, [CleanDirectories] returns, whatever
    the number of workers and whatever the schedule, the result whose
    counters are all zero and whose message list is empty, with
    [ProcessingTime] set; and it does return. *)
Theorem CleanDirectories_empty :
  forall (pf : platform) (c : Cleaner) (elapsed : Z) (r : CleanupResult),
    CleanDirectories pf c [] elapsed r
    <-> r = mkCleanupResult 0 0 0 0 0 0 0 0 0 0 elapsed [].
Proof.
  intros pf c elapsed r. split.
  - intros (s & r0 & Hsteps & _ & Hmem & ->).
    destruct (pool_inv_steps pf c [] s Hsteps)
      as (mergedL & pendingL & Hdone & Hres & _ & _ & _ & Hperm & _).
    apply Permutation_sym, Permutation_nil in Hperm.
    apply app_eq_nil in Hperm. destruct Hperm as [Hc _].
    apply map_eq_nil in Hc. rewrite Hc in Hdone.
    symmetry in Hdone. apply app_eq_nil in Hdone. destruct Hdone as [-> _].
    rewrite Hres in Hmem. injection Hmem as <-. reflexivity.
  - intros ->.
    exists (mkPool [] (repeat Exited (Z.to_nat (maxWorkers c))) []
                   (store resultPtr emptyResult (fun _ => None)) 1%nat []),
      emptyResult.
    split; [|split; [|split]].
    + exact (steps_exit pf c (Z.to_nat (maxWorkers c)) []
               (store resultPtr emptyResult (fun _ => None)) 1%nat []).
    + split; [|reflexivity]. apply Forall_forall. intros w Hin.
      now apply repeat_spec in Hin.
    + reflexivity.
    + reflexivity.
Qed.

(** X12. [New] clamps the worker count to [2..8] whatever
    [runtime.NumCPU()] reports (the count itself when it lies in that
    range) and keeps the dry-run flag; hence a call of [CleanDirectories]
    on a [Cleaner] made by [New] can always run to its end and, when it
    returns, has processed every directory exactly once.  The clamp
    matters: a [Cleaner] with no worker returns the all-zero result at once
    and leaves every directory unprocessed. *)
Theorem New_never_drops :
  forall (pf : platform) (numCPU : Z) (dry : bool) (directories : list job)
         (elapsed : Z),
    2 <= maxWorkers (New numCPU dry) <= 8
    /\ (2 <= numCPU <= 8 -> maxWorkers (New numCPU dry) = numCPU)
    /\ dryRun (New numCPU dry) = dry
    /\ (exists r, CleanDirectories pf (New numCPU dry) directories elapsed r)
    /\ (forall r,
          CleanDirectories pf (New numCPU dry) directories elapsed r ->
          exists done : list (job * CleanupResult),
            Permutation (map fst done) directories
            /\ Forall (fun jr => dirResult pf (New numCPU dry) (fst (fst jr))
                                   (snd (fst jr)) = Some (snd jr)) done
            /\ r = setProcessingTime elapsed (mergeAll (map snd done)))
    /\ CleanDirectories pf (mkCleaner 0 dry) directories elapsed
         (mkCleanupResult 0 0 0 0 0 0 0 0 0 0 elapsed []).
Proof.
  intros pf numCPU dry directories elapsed.
  destruct (New_workers numCPU dry) as [Hw Hd].
  split; [exact Hw|]. split; [|split; [exact Hd|split; [|split]]].
  - intros H. unfold New. cbn [maxWorkers].
    destruct (Z.ltb_spec numCPU 2); [lia|].
    destruct (Z.ltb_spec 8 numCPU); [lia|reflexivity].
  - apply CleanDirectories_completes. lia.
  - intros r Hr.
    apply (CleanDirectories_merges pf _ directories elapsed r); [lia|exact Hr].
  - exists (initPool (mkCleaner 0 dry) directories), emptyResult.
    split; [apply steps_refl|]. split; [|split; reflexivity].
    split; [constructor|reflexivity].
Qed.

(** ** Inside a protected directory *)

Lemma string_app_assoc (a b c : string) : (a ++ b) ++ c = a ++ (b ++ c).
Proof. induction a as [|x a IH]; cbn; [reflexivity|now rewrite IH]. Qed.

Lemma string_length_app (a b : string) :
  String.length (a ++ b) = (String.length a + String.length b)%nat.
Proof. induction a as [|x a IH]; cbn; [reflexivity|now rewrite IH]. Qed.

Lemma below_Join (pf : platform) (path p name : string) :
  below pf path p -> below pf path (Join pf p name).
Proof.
  intros [rest ->]. exists (rest ++ String (Separator pf) name).
  unfold Join. now rewrite string_app_assoc.
Qed.

Lemma below_child (pf : platform) (path name : string) :
  below pf path (Join pf path name).
Proof. now exists name. Qed.

Lemma below_neq (pf : platform) (path p : string) : below pf path p -> p <> path.
Proof.
  intros [rest ->] H. apply (f_equal String.length) in H.
  rewrite string_length_app in H. cbn in H. lia.
Qed.

Lemma extends_refl (Q : string -> Prop) (st : state) : extends Q st st.
Proof. exists [], []. rewrite !app_nil_r. repeat split. constructor. Qed.

Lemma extends_trans (Q : string -> Prop) (st1 st2 st3 : state) :
  extends Q st1 st2 -> extends Q st2 st3 -> extends Q st1 st3.
Proof.
  intros (e1 & s1 & He1 & Hs1 & H1) (e2 & s2 & He2 & Hs2 & H2).
  exists (e1 ++ e2)%list, (s1 ++ s2)%list.
  rewrite He2, Hs2, He1, Hs1, !app_assoc. repeat split.
  apply Forall_app. now split.
Qed.

Lemma removeAll_of_app (path : string) (l l' : list syscall) :
  Forall (fun s => syscall_path s <> path) l' ->
  removeAll_of path (l ++ l') = removeAll_of path l.
Proof.
  intros Hl'. induction l as [|s l IH]; cbn [app removeAll_of].
  - induction Hl' as [|s l' Hs _ IH]; [reflexivity|].
    cbn [removeAll_of]. rewrite IH.
    destruct s as [p o|p o]; [reflexivity|].
    cbn in Hs. destruct (String.eqb_spec p path); [contradiction|reflexivity].
  - now rewrite IH.
Qed.

Section Extends.

Variable pf : platform.
Variable c : Cleaner.
Variable dirPath : string.

Ltac run_walkFn :=
  unfold walkFn, deleteItem, bind, ret, lift, log, modify, sys, kind.

(** A visit only adds to the log and to the removals, and removes nothing
    but the entry visited. *)
Lemma walkFn_extends (path : string) (info : option FileInfo)
    (err : option oserror) (a : answers) (st : state) :
  visit_ok info err ->
  exists st',
    walkFn pf c dirPath path info err a st = Some (returned err, st')
    /\ extends (fun p => p = path) st st'.
Proof.
  intros Hv. destruct st as [r evs scs]. run_walkFn.
  destruct err as [e|].
  - cbn. eexists. split; [reflexivity|].
    eexists _, []. cbn.
    split; [reflexivity|split; [symmetry; apply app_nil_r|constructor]].
  - destruct (String.eqb path dirPath).
    + eexists. split; [reflexivity|]. apply extends_refl.
    + destruct info as [i|]; [|contradiction]. cbv beta iota.
      rewrite shouldDelete_policy.
      destruct (IsDir i), (policy pf path i a), (dryRun c), (ans_remove a);
        cbn; (eexists; split; [reflexivity|]); unfold extends; cbn;
        first [ eexists _, [];
                split; [reflexivity
                       |split; [symmetry; apply app_nil_r|constructor]]
              | eexists _, [_];
                split; [reflexivity
                       |split; [reflexivity|repeat constructor]] ].
Qed.

(** A protected directory other than the target is counted and skipped. *)
Lemma walkFn_protected (path : string) (size : Z) (a : answers) (st : state) :
  String.eqb path dirPath = false ->
  dir_eligible pf path = false ->
  walkFn pf c dirPath path (Some (mkFileInfo true size)) None a st
  = Some (None, record_skip path st).
Proof.
  intros Hroot Hel. run_walkFn. rewrite Hroot. cbv beta iota.
  rewrite shouldDelete_policy,
    (policy_dir pf path (mkFileInfo true size) a eq_refl), Hel.
  reflexivity.
Qed.

(** An eligible file other than the target is removed in a real run. *)
Lemma walkFn_removes (path : string) (size : Z) (rm : outcome) (st : state) :
  dryRun c = false ->
  String.eqb path dirPath = false ->
  hidden pf (Base pf path) = false ->
  protected pf (Base pf path) = false ->
  exists st',
    walkFn pf c dirPath path (Some (mkFileInfo false size)) None
           (mkAnswers None None rm) st = Some (None, st')
    /\ extends (fun p => p = path) st st'
    /\ In (SysRemove path rm) (syscalls st').
Proof.
  intros Hreal Hroot Hh Hp. destruct st as [r evs scs]. run_walkFn.
  rewrite Hroot. cbv beta iota. rewrite shouldDelete_policy.
  unfold policy, probe_ok. rewrite Hh, Hp, Hreal. cbn.
  destruct rm; cbn; (eexists; split; [reflexivity|]);
    (split; [eexists _, [_]; cbn;
             split; [reflexivity|split; [reflexivity|repeat constructor]]
            |cbn; apply in_or_app; right; now left]).
Qed.

(** The loop over the names of a directory, cut in two. *)
Lemma walkNames_app (fn : WalkFunc) (path : string) (l1 l2 : list child) :
  forall st st1,
    walkNames pf fn path l1 st = Some (None, st1) ->
    walkNames pf fn path (l1 ++ l2) st = walkNames pf fn path l2 st1.
Proof.
  induction l1 as [|ch l1 IH]; intros st st1 H.
  - cbn in H. unfold ret in H. now injection H as <-.
  - cbn [app walkNames] in *. unfold bind at 1 in H. unfold bind at 1.
    destruct (lstat_entry pf path ch st) as [[res st0]|]; [|discriminate].
    destruct res as [e|[fi wc]]; unfold bind in *.
    + destruct (fn _ None (Some e) no_answers st0) as [[err1 st2]|];
        [|discriminate].
      destruct err1 as [[|e1]|]; try (now apply IH).
      discriminate.
    + destruct (wc st0) as [[err1 st2]|]; [|discriminate].
      destruct err1 as [[|e1]|]; try (now apply IH); [|discriminate].
      destruct (negb (IsDir fi)); [discriminate|now apply IH].
Qed.

End Extends.

Lemma walk_cost_zero (n : node) : walk_cost (fun _ => 0) 0 n = 0.
Proof.
  induction n using node_induction; [reflexivity|].
  cbn [walk_cost]. rewrite Z.add_0_l.
  induction H as [|e es He Hes IH]; cbn [map fold_right]; [reflexivity|].
  destruct e as [nm ls h l]. cbn [entry_below] in He. destruct He as [Hh Hl].
  rewrite Hh, IH. destruct l as [n'|]; [now rewrite Hl|reflexivity].
Qed.

Lemma entries_cost_zero (es : list entry) : entries_cost (fun _ => 0) 0 es = 0.
Proof.
  unfold entries_cost. induction es as [|e es IH]; cbn [map fold_right];
    [reflexivity|].
  destruct e as [nm ls h l]. cbn [entry_cost]. rewrite IH, walk_cost_zero.
  destruct l; [now rewrite walk_cost_zero|reflexivity].
Qed.

Lemma files_all_true_entries (es : list entry) :
  Forall (fun e => match e with
                   | Entry _ _ h l =>
                       files_all (fun _ => true) h = true
                       /\ match l with
                          | Some n' => files_all (fun _ => true) n' = true
                          | None => True
                          end
                   end) es.
Proof.
  apply Forall_forall. intros [nm ls h l] _.
  split; [apply files_all_true|]. destruct l; [apply files_all_true|exact I].
Qed.

Section Below.

Variable pf : platform.
Variable c : Cleaner.
Variable dirPath : string.
Variable path : string.
Variable st : state.

(** A visit below [path] keeps a state an extension of [st] by removals
    below [path]. *)
Lemma walkFn_below (p : string) (info : option FileInfo)
    (err : option oserror) (a : answers) (st0 : state) :
  visit_ok info err -> below pf path p ->
  extends (below pf path) st st0 ->
  exists st',
    walkFn pf c dirPath p info err a st0 = Some (returned err, st')
    /\ extends (below pf path) st st'.
Proof.
  intros Hv Hb Hext.
  destruct (walkFn_extends pf c dirPath p info err a st0 Hv)
    as (st' & Hrun & Hext').
  exists st'. split; [exact Hrun|].
  eapply extends_trans; [exact Hext|].
  destruct Hext' as (evs & scs & He & Hs & Hall).
  exists evs, scs. repeat split; try assumption.
  eapply Forall_impl; [|exact Hall]. cbv beta. now intros s ->.
Qed.

Lemma walks_below (n : node) :
  walks_cost pf (walkFn pf c dirPath) (below pf path)
    (fun _ st' => extends (below pf path) st st') 0
    (fun _ => true) (fun _ => 0) 0 n.
Proof.
  apply (walk_cost_within pf (walkFn pf c dirPath) (below pf path)
           (fun _ st' => extends (below pf path) st st') 0
           (fun _ => true) (fun _ => 0) 0 0
           (fun p name => below_Join pf path p name)
           (fun _ _ _ H _ => H)
           ltac:(lia)
           (fun _ _ => Z.le_refl 0)).
  - intros p size a k st0 Hb _ Hext _.
    now apply (walkFn_below p (Some (mkFileInfo false size)) None).
  - intros p size rd a k st0 Hb Hext _.
    apply walkFn_below; [|exact Hb|exact Hext].
    destruct rd; cbn; [split; [reflexivity|discriminate]|exact I].
  - intros p text k st0 Hb Hext _.
    now apply (walkFn_below p None (Some (mkError OpLstat p text))).
Qed.

(** The loop over the entries of [path] returns, and removes nothing but
    paths below [path]. *)
Lemma walkNames_below (es : list entry) (st0 : state) :
  extends (below pf path) st st0 ->
  exists st',
    walkNames pf (walkFn pf c dirPath) path
      (map (prepare pf (walk pf (walkFn pf c dirPath)) path) es) st0
    = Some (None, st')
    /\ extends (below pf path) st st'.
Proof.
  intros Hext.
  destruct (walkNames_cost pf (walkFn pf c dirPath) (below pf path)
              (fun _ st' => extends (below pf path) st st') 0
              (fun _ => true) (fun _ => 0) 0 0
              (fun _ _ _ H _ => H)
              ltac:(lia)
              (fun _ _ => Z.le_refl 0)
              (fun p text k st1 Hb H _ =>
                 walkFn_below p None (Some (mkError OpLstat p text))
                   no_answers st1 eq_refl Hb H)
              es
              (Forall_entry_below _ walks_below es)
              (files_all_true_entries es)
              path 0 st0 (below_child pf path) Hext
              ltac:(rewrite entries_cost_zero; lia))
    as (st' & Hrun & Hext').
  exists st'. split; [exact Hrun|exact Hext'].
Qed.

End Below.

Lemma extends_events (Q : string -> Prop) (st st' : state) (e : event) :
  extends Q st st' -> In e (events st) -> In e (events st').
Proof.
  intros (evs & scs & He & _ & _) Hin. rewrite He. apply in_or_app. now left.
Qed.

Lemma extends_syscalls (Q : string -> Prop) (st st' : state) (s : syscall) :
  extends Q st st' -> In s (syscalls st) -> In s (syscalls st').
Proof.
  intros (evs & scs & _ & Hs & _) Hin. rewrite Hs. apply in_or_app. now left.
Qed.

(** X8. The protection of a directory does not extend to what it holds.
    In a real run, a readable directory other than the target that the
    policy protects (a hidden or protected name) is counted and skipped,
    but the walk goes on into it: whatever else it holds, an entry of it
    that is a regular file with an eligible name, and that can be opened
    and closed, is passed to [os.Remove]; the directory itself is not
    removed. *)
Theorem protection_not_inherited :
  forall (pf : platform) (c : Cleaner) (dirPath path : string) (size : Z)
         (rm : outcome) (es1 es2 : list entry) (name : string) (sz : Z)
         (r : outcome) (l : option node) (st : state),
    dryRun c = false ->
    String.eqb path dirPath = false ->
    dir_eligible pf path = false ->
    removeAll_of path (syscalls st) = None ->
    String.eqb (Join pf path name) dirPath = false ->
    hidden pf (Base pf (Join pf path name)) = false ->
    protected pf (Base pf (Join pf path name)) = false ->
    exists st',
      walk pf (walkFn pf c dirPath) path
           (Dir size None rm
                (es1 ++ Entry name None (File sz None None r) l :: es2)) st
      = Some (None, st')
      /\ In (LogSkipped path "protected or system file") (events st')
      /\ In (SysRemove (Join pf path name) r) (syscalls st')
      /\ removeAll_of path (syscalls st') = None.
Proof.
  intros pf c dirPath path size rm es1 es2 name sz r l st
         Hreal Hroot Hel Hnone Hchild Hh Hp.
  cbn [walk option_map]. unfold bind at 1.
  rewrite (walkFn_protected pf c dirPath path size _ st Hroot Hel).
  set (st0 := record_skip path st).
  rewrite map_app. cbn [map].
  destruct (walkNames_below pf c dirPath path st0 es1 st0 (extends_refl _ _))
    as (st1 & Hrun1 & Hext1).
  rewrite (walkNames_app pf _ path _ _ st0 st1 Hrun1).
  assert (Hnone1 : removeAll_of path (syscalls st1) = None).
  { destruct Hext1 as (evs & scs & _ & Hs & Hall). rewrite Hs.
    rewrite removeAll_of_app; [exact Hnone|].
    eapply Forall_impl; [|exact Hall]. intros s. apply below_neq. }
  cbn [prepare walkNames ch_name]. unfold bind at 1, lstat_entry.
  cbn [ch_lstat ch_here ch_name]. rewrite Hnone1. cbn [walk].
  destruct (walkFn_removes pf c dirPath (Join pf path name) sz r st1
              Hreal Hchild Hh Hp) as (st2 & Hrun2 & Hext2 & Hin2).
  unfold bind at 1. rewrite Hrun2.
  destruct (walkNames_below pf c dirPath path st2 es2 st2 (extends_refl _ _))
    as (st3 & Hrun3 & Hext3).
  exists st3. split; [exact Hrun3|]. split; [|split].
  - apply (extends_events _ _ _ _ Hext3), (extends_events _ _ _ _ Hext2),
      (extends_events _ _ _ _ Hext1).
    cbn. apply in_or_app. right. now left.
  - apply (extends_syscalls _ _ _ _ Hext3). exact Hin2.
  - destruct Hext3 as (evs3 & scs3 & _ & Hs3 & Hall3).
    destruct Hext2 as (evs2 & scs2 & _ & Hs2 & Hall2).
    rewrite Hs3, removeAll_of_app, Hs2, removeAll_of_app; [exact Hnone1| |].
    + eapply Forall_impl; [|exact Hall2]. cbv beta. intros s ->.
      apply (below_neq pf), below_child.
    + eapply Forall_impl; [|exact Hall3]. intros s. apply below_neq.
Qed.

(** The theorem at the hidden directory [/tmp/.cache], which holds [x.tmp]
    between two other files. *)
Lemma protection_not_inherited_witness :
  exists st',
    walk linux (walkFn linux (New 4 false) "/tmp") "/tmp/.cache"
         (Dir 4096 None None
              ([regular "a" 1]
               ++ Entry "x.tmp" None (File 9 None None None) None
               :: [regular "b" 2])) initState
    = Some (None, st')
    /\ In (LogSkipped "/tmp/.cache" "protected or system file") (events st')
    /\ In (SysRemove (Join linux "/tmp/.cache" "x.tmp") None) (syscalls st')
    /\ removeAll_of "/tmp/.cache" (syscalls st') = None.
Proof.
  apply (protection_not_inherited linux (New 4 false) "/tmp" "/tmp/.cache"
           4096 None [regular "a" 1] [regular "b" 2] "x.tmp" 9 None None
           initState); reflexivity.
Defined.

(** ** Packages [storage] and [config] *)

(** X16. Whatever the SAS URL, [storage.New] logs one notice and returns a
    [Storage] that is not enabled; on it [UploadLogFile] uploads nothing,
    logs that the file is kept locally and returns [nil], and
    [TestConnection] returns [nil]: the error of the two methods is never
    returned. *)
Theorem storage_never_enabled :
  forall (sasURL : string) (calls : list logcall),
    exists s msg,
      storage_New sasURL calls = Some (s, (calls ++ [CallInfof msg])%list)
      /\ IsEnabled s = false
      /\ (forall path l,
             UploadLogFile s path l
             = Some (None,
                     (l ++ [CallWarnf
                              ("Cloud storage not enabled, log file saved locally: "
                               ++ path)])%list))
      /\ (forall l,
             exists msg', TestConnection s l
                          = Some (None, (l ++ [CallInfof msg'])%list)).
Proof.
  intros sasURL calls. unfold storage_New.
  destruct (String.eqb sasURL ""); cbn;
    (eexists; eexists; split; [reflexivity|]);
    (split; [reflexivity|split; [reflexivity|]]);
    intros l; eexists; reflexivity.
Qed.

(** X17. [GenerateBlobName] returns [<host>_<base>_<timestamp>.log], where
    [<host>] is [unknown] for an empty host name and [<base>] is
    [filepath.Base] of the name given: the fallback [temp-deleter] is never
    used, since [filepath.Base] never returns the empty string; for the
    empty name the base is a dot. *)
Theorem GenerateBlobName_base :
  forall (pf : platform) (now host : string) (s : Storage) (baseName : string),
    GenerateBlobName pf now host s baseName
    = (if String.eqb host "" then "unknown" else host)
      ++ "_" ++ Base pf baseName ++ "_" ++ now ++ ".log"
    /\ GenerateBlobName pf now host s ""
       = (if String.eqb host "" then "unknown" else host)
         ++ "_._" ++ now ++ ".log".
Proof.
  intros pf now host s baseName. unfold GenerateBlobName. split.
  - destruct (Base_nonempty pf baseName) as (c0 & s0 & ->). reflexivity.
  - reflexivity.
Qed.

(** X18. Whatever the environment, [GetTempDirectories] returns the system
    directories of the operating system (none for one that is not
    [windows], [linux] or [darwin]) followed by at most three user
    directories, each of them [filepath.Join] of a non-empty home directory
    ([HOME]; on Windows [USERPROFILE], or [HOMEPATH] when that is empty)
    and a fixed relative path: no directory is ever built from an empty
    home, and with the three variables unset only the system directories
    are returned. *)
Theorem GetTempDirectories_guarded :
  forall (Getenv : string -> string) (FilepathJoin : string -> string -> string)
         (c : Config),
    exists user : list string,
      GetTempDirectories Getenv FilepathJoin c
      = (system_dirs (OS c) ++ user)%list
      /\ (List.length user <= 3)%nat
      /\ (forall d, In d user ->
            exists home rel,
              home <> "" /\ d = FilepathJoin home rel
              /\ (home = Getenv "HOME" \/ home = Getenv "USERPROFILE"
                  \/ (Getenv "USERPROFILE" = "" /\ home = Getenv "HOMEPATH")))
      /\ (Getenv "HOME" = "" -> Getenv "USERPROFILE" = "" ->
          Getenv "HOMEPATH" = "" -> user = []).
Proof.
  intros Getenv FilepathJoin c.
  unfold GetTempDirectories, system_dirs, getWindowsTempDirs, getLinuxTempDirs,
    getMacOSTempDirs.
  destruct (String.eqb (OS c) "windows").
  - destruct (String.eqb_spec (Getenv "USERPROFILE") "") as [Hu|Hu].
    + destruct (String.eqb_spec (Getenv "HOMEPATH") "") as [Hh|Hh]; cbn [negb].
      * exists []. split; [now rewrite app_nil_r|]. split; [cbn; lia|].
        split; [intros d []|reflexivity].
      * eexists. split; [reflexivity|]. split; [cbn; lia|]. split.
        -- intros d [<-|[<-|[]]]; eexists; eexists;
             (split; [exact Hh|split; [reflexivity|auto]]).
        -- intros _ _ H. contradiction.
    + apply String.eqb_neq in Hu as Hu'. rewrite Hu'. cbn [negb].
      eexists. split; [reflexivity|]. split; [cbn; lia|]. split.
      * intros d [<-|[<-|[]]]; eexists; eexists;
          (split; [exact Hu|split; [reflexivity|auto]]).
      * intros _ H. contradiction.
  - destruct (String.eqb (OS c) "linux").
    + destruct (String.eqb_spec (Getenv "HOME") "") as [Hh|Hh]; cbn [negb].
      * exists []. split; [now rewrite app_nil_r|]. split; [cbn; lia|].
        split; [intros d []|reflexivity].
      * eexists. split; [reflexivity|]. split; [cbn; lia|]. split.
        -- intros d [<-|[<-|[]]]; eexists; eexists;
             (split; [exact Hh|split; [reflexivity|auto]]).
        -- intros H. contradiction.
    + destruct (String.eqb (OS c) "darwin").
      * destruct (String.eqb_spec (Getenv "HOME") "") as [Hh|Hh]; cbn [negb].
        -- exists []. split; [now rewrite app_nil_r|]. split; [cbn; lia|].
           split; [intros d []|reflexivity].
        -- eexists. split; [reflexivity|]. split; [cbn; lia|]. split.
           ++ intros d [<-|[<-|[<-|[]]]]; eexists; eexists;
                (split; [exact Hh|split; [reflexivity|auto]]).
           ++ intros H. contradiction.
      * exists []. split; [reflexivity|]. split; [cbn; lia|].
        split; [intros d []|reflexivity].
Qed.

(** ** The command *)




(** ** The result of [CleanDirectories] and the runs behind it *)

Lemma merged_audited (real : bool) (k1 E1 A1 B1 k2 E2 A2 B2 : Z)
    (t s : CleanupResult) :
  audited real k1 E1 A1 B1 t -> audited real k2 E2 A2 B2 s ->
  k1 + k2 <= Int64.max_int ->
  audited real (k1 + k2) (E1 + E2) (A1 + A2) (B1 + B2) (merged t s).
Proof.
  unfold audited, counts_within. intros Ht Hs Hk.
  destruct t, s. simpl in *.
  rewrite !Int64Facts.add_small
    by (unfold Int64.in_range, Int64.min_int, Int64.max_int in *; lia).
  split; [lia|]. split; [lia|]. split; [lia|].
  intros Hr. destruct Ht as (_ & _ & _ & Ht). destruct Hs as (_ & _ & _ & Hs).
  specialize (Ht Hr). specialize (Hs Hr). lia.
Qed.

Section SumOfAudits.

Variable real : bool.
Variable wt ge ga gb : job * state -> Z.

Lemma fold_merged_audited (runs : list (job * state)) :
  Forall (fun js => audited real (wt js) (ge js) (ga js) (gb js)
                            (result (snd js))) runs ->
  forall (acc : CleanupResult) (k E A B : Z),
    audited real k E A B acc ->
    k + sum_runs wt runs <= Int64.max_int ->
    audited real (k + sum_runs wt runs) (E + sum_runs ge runs)
            (A + sum_runs ga runs) (B + sum_runs gb runs)
            (fold_left merged (map (fun js => result (snd js)) runs) acc).
Proof.
  unfold sum_runs.
  induction 1 as [|x xs Hx Hxs IH]; intros acc k E A B Hacc Hk;
    cbn [map fold_right fold_left] in *.
  - now rewrite !Z.add_0_r.
  - assert (Hnn : 0 <= fold_right Z.add 0 (map wt xs)).
    { clear - Hxs. induction Hxs as [|y ys Hy _ IHy]; cbn [map fold_right]; [lia|].
      destruct Hy as (_ & Hy & _). lia. }
    assert (Hwx : 0 <= wt x) by (destruct Hx as (_ & Hx & _); lia).
    specialize (IH (merged acc (result (snd x))) (k + wt x) (E + ge x)
                   (A + ga x) (B + gb x)).
    rewrite !Z.add_assoc. apply IH; [|lia].
    apply merged_audited; [exact Hacc|exact Hx|lia].
Qed.

End SumOfAudits.

(** The runs behind the partial results of a call. *)
Lemma done_runs (pf : platform) (c : Cleaner)
    (done : list (job * CleanupResult)) :
  Forall (fun jr => dirResult pf c (fst (fst jr)) (snd (fst jr))
                    = Some (snd jr)) done ->
  exists runs : list (job * state),
    map fst runs = map fst done
    /\ map (fun js => result (snd js)) runs = map snd done
    /\ Forall (fun js => runDirectory pf c (fst (fst js)) (snd (fst js))
                         = Some (snd js)) runs.
Proof.
  induction 1 as [|[j r0] done Hjr _ (runs & H1 & H2 & H3)].
  - exists []. repeat split; constructor.
  - cbn [fst snd] in Hjr. unfold dirResult in Hjr.
    destruct (runDirectory pf c (fst j) (snd j)) as [st|] eqn:Hst;
      [|discriminate].
    cbn in Hjr. injection Hjr as <-.
    exists ((j, st) :: runs). cbn [map fst snd].
    split; [now f_equal|]. split; [f_equal; exact H2|].
    constructor; [exact Hst|exact H3].
Qed.

(** A run is audited. *)
Lemma run_audited (pf : platform) (c : Cleaner) (j : job) (st : state) :
  target_weight (snd j) <= Int64.max_int ->
  runDirectory pf c (fst j) (snd j) = Some st ->
  audited (negb (dryRun c)) (target_weight (snd j))
          (uncounted_dirs (j, st)) (removed false (j, st))
          (removed true (j, st)) (result st)
  /\ (dryRun c = true -> syscalls st = []).
Proof.
  intros Hw Hrun.
  destruct (runDirectory_books pf c (fst j) (snd j) Hw) as (st' & Hrun' & Hst).
  rewrite Hrun in Hrun'. injection Hrun' as <-.
  unfold audited, uncounted_dirs, removed. cbn [fst snd].
  destruct (snd j) as [|ls n].
  - subst st. unfold counts_within. cbn. split; [|reflexivity].
    split; [lia|]. split; [lia|]. split; [reflexivity|]. intros _. split; reflexivity.
  - destruct Hst as [Hc _ Hd _ _ _ _ _ _ _ Hreal Hdry].
    pose proof (weight_pos n). cbn [target_weight missing]. split.
    + split; [exact Hc|]. split; [lia|]. split; [lia|].
      intros Hr. apply negb_true_iff in Hr. specialize (Hreal Hr). lia.
    + intros Hr. now destruct (Hdry Hr).
Qed.

(** X20. With at least one worker and barring int64 overflow, the result of
    [CleanDirectories] is faithful to the runs of [cleanDirectory] behind
    it, one per directory: its directory counters add up,
    [DeletedDirs + FailedDirs + SkippedDirs] being [TotalDirs] plus the
    directories that could not be read and the targets that were missing,
    over all runs; in a real run [DeletedFiles] is the number of [os.Remove]
    calls that succeeded in all the runs, and [DeletedDirs] that of the
    [os.RemoveAll] calls; in a dry run no run removes anything. *)
Theorem CleanDirectories_books :
  forall (pf : platform) (c : Cleaner) (directories : list job)
         (elapsed : Z) (r : CleanupResult),
    1 <= maxWorkers c ->
    jobs_weight directories <= Int64.max_int ->
    CleanDirectories pf c directories elapsed r ->
    exists runs : list (job * state),
      Permutation (map fst runs) directories
      /\ Forall (fun js => runDirectory pf c (fst (fst js)) (snd (fst js))
                           = Some (snd js)) runs
      /\ DeletedDirs r + FailedDirs r + SkippedDirs r
         = TotalDirs r + sum_runs uncounted_dirs runs
      /\ (dryRun c = false ->
          DeletedFiles r = sum_runs (removed false) runs
          /\ DeletedDirs r = sum_runs (removed true) runs)
      /\ (dryRun c = true -> Forall (fun js => syscalls (snd js) = []) runs).
Proof.
  intros pf c directories elapsed r Hworkers Hw Hrun.
  destruct (CleanDirectories_merges pf c directories elapsed r Hworkers Hrun)
    as (done & Hperm & Hall & ->).
  destruct (done_runs pf c done Hall) as (runs & Hfst & Hres & Hruns).
  exists runs. split; [now rewrite Hfst|]. split; [exact Hruns|].
  assert (Hper : Forall (fun js =>
                           audited (negb (dryRun c))
                                   (target_weight (snd (fst js)))
                                   (uncounted_dirs js) (removed false js)
                                   (removed true js) (result (snd js))
                           /\ (dryRun c = true -> syscalls (snd js) = []))
                        runs).
  { rewrite Forall_forall in *. intros [j st] Hin.
    apply (run_audited pf c j st); [|exact (Hruns _ Hin)].
    assert (Hj : In j directories).
    { apply (Permutation_in _ Hperm). rewrite <- Hfst.
      apply in_map_iff. now exists (j, st). }
    pose proof (jobs_weight_In j directories Hj). lia. }
  assert (Hsum : sum_runs (fun js => target_weight (snd (fst js))) runs
                 = jobs_weight directories).
  { unfold sum_runs, jobs_weight.
    replace (map (fun js : job * state => target_weight (snd (fst js))) runs)
      with (map (fun j : job => target_weight (snd j)) (map fst runs))
      by (now rewrite map_map).
    rewrite Hfst. apply fold_add_Permutation, Permutation_map, Hperm. }
  pose proof (fold_merged_audited (negb (dryRun c))
                (fun js => target_weight (snd (fst js)))
                uncounted_dirs (removed false) (removed true) runs) as Hfold.
  specialize (Hfold ltac:(eapply Forall_impl; [|exact Hper];
                          intros js [H _]; exact H)).
  specialize (Hfold emptyResult 0 0 0 0).
  rewrite Hsum, Hres in Hfold.
  assert (Hempty : audited (negb (dryRun c)) 0 0 0 0 emptyResult).
  { unfold audited, counts_within. cbn. repeat split; lia. }
  specialize (Hfold Hempty ltac:(lia)).
  fold (mergeAll (map snd done)) in Hfold.
  destruct Hfold as (_ & _ & Hdirs & Hreal).
  pose proof (fun f => get_setProcessingTime f elapsed (mergeAll (map snd done)))
    as Hget.
  pose proof (Hget cDeletedDirs) as H1. pose proof (Hget cFailedDirs) as H2.
  pose proof (Hget cSkippedDirs) as H3. pose proof (Hget cTotalDirs) as H4.
  pose proof (Hget cDeletedFiles) as H5. cbn [get] in H1, H2, H3, H4, H5.
  rewrite H1, H2, H3, H4, H5. split; [lia|]. split.
  - intros Hr. apply Hreal. now rewrite Hr.
  - intros Hr. eapply Forall_impl; [|exact Hper]. intros js [_ H]. now apply H.
Qed.

(** The theorem at the sample run of the pool. *)
Lemma CleanDirectories_books_witness :
  exists runs : list (job * state),
    Permutation (map fst runs) sample_jobs
    /\ Forall (fun js => runDirectory linux (New 2 false) (fst (fst js))
                           (snd (fst js)) = Some (snd js)) runs
    /\ 1 + 0 + 1 = 1 + sum_runs uncounted_dirs runs
    /\ (dryRun (New 2 false) = false ->
        1 = sum_runs (removed false) runs
        /\ 1 = sum_runs (removed true) runs)
    /\ (dryRun (New 2 false) = true ->
        Forall (fun js => syscalls (snd js) = []) runs).
Proof.
  apply (CleanDirectories_books linux (New 2 false) sample_jobs 1500
           (mkCleanupResult 2 1 184 1 1 120 0 0 1 1 1500 [])).
  - vm_compute. discriminate.
  - vm_compute. discriminate.
  - exact sample_run.
Defined.

(** ** A directory removed, and the environment of [main] *)

Lemma removeAll_of_last (path : string) (o : outcome) (l : list syscall) :
  removeAll_of path (l ++ [SysRemoveAll path o]) = Some o.
Proof.
  induction l as [|s l IH]; cbn [app removeAll_of].
  - now rewrite String.eqb_refl.
  - now rewrite IH.
Qed.

Lemma walkNames_gone (pf : platform) (c : Cleaner) (dirPath path : string)
    (es : list entry) :
  forall st,
    removeAll_of path (syscalls st) = Some None ->
    walkNames pf (walkFn pf c dirPath) path
      (map (prepare pf (walk pf (walkFn pf c dirPath)) path) es) st
    = Some (None, fold_left (record_gone pf path) es st).
Proof.
  induction es as [|e es IH]; intros st Hst; [reflexivity|].
  destruct e as [nm ls h l].
  cbn [map prepare walkNames ch_name fold_left]. unfold bind at 1, lstat_entry.
  cbn [ch_lstat ch_here ch_name]. rewrite Hst.
  unfold bind. rewrite walkFn_error. apply IH. exact Hst.
Qed.

(** X21. In a real run, an eligible directory other than the target that
    is read and then removed by [os.RemoveAll] without error is counted and
    logged as deleted, and each entry it held is then looked for and not
    found: whatever the entry was, it is recorded as a failed file with one
    [Walk error] message, nothing below the directory is visited or counted
    in the totals, and no other removal is made.  A directory removed with
    [n] entries thus adds [n] failures and [n] messages to the result. *)
Theorem removed_directory_entries_fail :
  forall (pf : platform) (c : Cleaner) (dirPath path : string) (size : Z)
         (es : list entry) (st : state),
    dryRun c = false ->
    String.eqb path dirPath = false ->
    dir_eligible pf path = true ->
    walk pf (walkFn pf c dirPath) path (Dir size None None es) st
    = Some (None,
            fold_left (record_gone pf path) es (record_deletion path size st))
    /\ List.length
         (ErrorMessages
            (result (fold_left (record_gone pf path) es
                               (record_deletion path size st))))
       = (List.length (ErrorMessages (result st)) + List.length es)%nat
    /\ syscalls (fold_left (record_gone pf path) es
                           (record_deletion path size st))
       = (syscalls st ++ [SysRemoveAll path None])%list.
Proof.
  intros pf c dirPath path size es st Hreal Hroot Hel.
  assert (Hvisit : walkFn pf c dirPath path (Some (mkFileInfo true size)) None
                     (mkAnswers None None None) st
                   = Some (None, record_deletion path size st)).
  { unfold walkFn, deleteItem, bind, ret, lift, log, modify, sys, kind.
    rewrite Hroot. cbv beta iota.
    rewrite shouldDelete_policy,
      (policy_dir pf path (mkFileInfo true size) _ eq_refl), Hel, Hreal.
    reflexivity. }
  split; [|split].
  - cbn [walk option_map]. unfold bind at 1. rewrite Hvisit.
    apply walkNames_gone. cbn [record_deletion syscalls].
    apply removeAll_of_last.
  - assert (H0 : List.length (ErrorMessages (result (record_deletion path size st)))
                 = List.length (ErrorMessages (result st))).
    { destruct st as [[] evs scs]. reflexivity. }
    rewrite <- H0. generalize (record_deletion path size st). clear.
    induction es as [|e es IH]; intros s; cbn [fold_left List.length].
    + now rewrite Nat.add_0_r.
    + rewrite IH. destruct s as [[] evs scs]. cbn.
      rewrite length_app. cbn. lia.
  - change (syscalls st ++ [SysRemoveAll path None])%list
      with (syscalls (record_deletion path size st)).
    generalize (record_deletion path size st). clear.
    induction es as [|e es IH]; intros s; cbn [fold_left]; [reflexivity|].
    now rewrite IH.
Qed.

(** The theorem at the directory [/var/tmp/build], which holds a file and
    a directory. *)
Lemma removed_directory_entries_fail_witness :
  walk linux (walkFn linux (New 4 false) "/var/tmp") "/var/tmp/build"
       (Dir 4096 None None [regular "out.o" 10; directory "obj" []]) initState
  = Some (None,
          fold_left (record_gone linux "/var/tmp/build")
                    [regular "out.o" 10; directory "obj" []]
                    (record_deletion "/var/tmp/build" 4096 initState))
  /\ List.length
       (ErrorMessages
          (result (fold_left (record_gone linux "/var/tmp/build")
                             [regular "out.o" 10; directory "obj" []]
                             (record_deletion "/var/tmp/build" 4096 initState))))
     = (List.length (ErrorMessages (result initState))
        + List.length [regular "out.o" 10; directory "obj" []])%nat
  /\ syscalls (fold_left (record_gone linux "/var/tmp/build")
                         [regular "out.o" 10; directory "obj" []]
                         (record_deletion "/var/tmp/build" 4096 initState))
     = (syscalls initState ++ [SysRemoveAll "/var/tmp/build" None])%list.
Proof.
  apply (removed_directory_entries_fail linux (New 4 false) "/var/tmp"
           "/var/tmp/build" 4096 [regular "out.o" 10; directory "obj" []]
           initState); reflexivity.
Defined.




(** ** The number of workers *)







